(** * kdtools: an implicit k-d tree over a random-access sequence of tuples

    Shallow embedding of [inst/include/kdtools.h] and the properties of its
    sort and of its descent algorithms.

    Conventions of the embedding.
    - A tuple is the list of its components; the arity
      [tuple_size<TupleType>::value] is the parameter [K].  The template
      recursions that count an index up to [K - 1] ([is_last]) recurse here on
      the number of indices still to visit.
    - Components are integers (the templates are instantiated at an integral
      component type, or at [double] holding integral values) and integer
      arithmetic is unbounded.
    - A [double] is an exact real.  The only doubles the header computes are
      [sqrt] of a sum of squares, [numeric_limits<double>::max()] and the
      caller's [eps]; [sqrt s] is carried by its radicand [s], so that every
      comparison the header makes is decided exactly.  This is how the code
      computes as long as the components are of moderate size ([exact_on]
      below); rounding, overflow and underflow are not modelled.  The
      lemmas about distances are about these exact values; the theorems
      that read them as statements about the code for all inputs carry the
      bound as a hypothesis, and those that use the order of the keys only,
      whatever the keys are, need none.
    - An iterator into the sequence is its offset from [begin()]; a range
      [[first, last)] is a pair of offsets.  The sequence itself is a list.
    - Dereferencing an iterator records the offset in a log.  The pivot of a
      level is dereferenced once here, where the code dereferences it at
      each use: the log tells where a query reads, not how often.  A read
      outside the sequence is undefined in the code; here it yields the
      unspecified tuple [past_end], over which the theorems quantify, and
      it shows in the log.  A theorem about the result of a search that can
      make such a read is stated for the runs whose log stays inside the
      sequence ([reads_inside] below).
    - Recursive functions on ranges take a fuel argument that the public
      entry points set to the length of the range. *)

From Stdlib Require Import ZArith QArith List Bool Arith Lia Permutation Sorted.
From Stdlib Require Import Reals Qreals Lra.
Import ListNotations.

Local Open Scope nat_scope.

Definition tuple : Type := list Z.

(** [get<I>(x)] *)
Definition get (I : nat) (x : tuple) : Z := nth I x 0%Z.

(** ** Doubles *)

Inductive double : Type :=
| Sqrt (radicand : Z)   (* std::sqrt of an exactly known sum of squares *)
| DBL_MAX.              (* numeric_limits<double>::max() *)

(** [a < b] on doubles. *)
Definition dlt (a b : double) : bool :=
  match a, b with
  | Sqrt x, Sqrt y => (x <? y)%Z
  | Sqrt _, DBL_MAX => true
  | DBL_MAX, _ => false
  end.

(** [abs(d) < b] for an integer [d]. *)
Definition abs_lt (d : Z) (b : double) : bool :=
  match b with
  | Sqrt y => (d * d <? y)%Z
  | DBL_MAX => true
  end.

(** [abs(d) <= b] for an integer [d]. *)
Definition abs_le (d : Z) (b : double) : bool :=
  match b with
  | Sqrt y => (d * d <=? y)%Z
  | DBL_MAX => true
  end.

Definition Qltb (x y : Q) : bool := negb (Qle_bool y x).

(** [a < eps] for a rational [eps]: [sqrt x < eps] iff [0 < eps] and
    [x < eps * eps]. *)
Definition dlt_eps (a : double) (eps : Q) : bool :=
  match a with
  | Sqrt x => Qltb 0 eps && Qltb (inject_Z x) (eps * eps)
  | DBL_MAX => false
  end.

(** [abs(d) < b - eps]: with [t = abs(d) + eps], [t < sqrt y] iff [t < 0] or
    [t * t < y]. *)
Definition abs_lt_minus (d : Z) (b : double) (eps : Q) : bool :=
  match b with
  | Sqrt y =>
      let t := (inject_Z (Z.abs d) + eps)%Q in
      Qltb t 0 || Qltb (t * t) (inject_Z y)
  | DBL_MAX => true
  end.

(** ** Reads of the sequence

    A computation returns its value together with the offsets it
    dereferenced, in order. *)

Definition M (A : Type) : Type := (A * list nat)%type.

Definition ret {A : Type} (a : A) : M A := (a, []).

Definition bind {A B : Type} (m : M A) (k : A -> M B) : M B :=
  (fst (k (fst m)), snd m ++ snd (k (fst m))).

Definition value_of {A : Type} (m : M A) : A := fst m.
Definition reads_of {A : Type} (m : M A) : list nat := snd m.

Notation "x <- m ;; k" := (bind m (fun x => k))
  (at level 61, m at next level, right associativity).

(** [*it] *)
Definition deref (data : list tuple) (past_end : tuple) (it : nat) : M tuple :=
  (nth it data past_end, [it]).

(** ** The standard algorithms the header calls on a read-only range *)

Module std.
Section Range.
Variables (data : list tuple) (past_end : tuple).

(** [std::partition_point]: the bisection loop of the standard library
    ([len] elements left, starting at [first]). *)
Fixpoint partition_point_loop (fuel first len : nat) (pred : tuple -> bool)
  : M nat :=
  match fuel with
  | 0 => ret first
  | S fuel' =>
      if len =? 0 then ret first
      else
        let half := len / 2 in
        let middle := first + half in
        x <- deref data past_end middle ;;
        if pred x
        then partition_point_loop fuel' (S middle) (len - half - 1) pred
        else partition_point_loop fuel' first half pred
  end.

Definition partition_point (first last : nat) (pred : tuple -> bool) : M nat :=
  partition_point_loop (last - first) first (last - first) pred.

End Range.
End std.

(** ** namespace detail *)

Module detail.

Section Arity.
Variable K : nat.

Definition midpos (first last : nat) : nat := first + (last - first) / 2.

Definition less_nth (I : nat) (lhs rhs : tuple) : bool :=
  (get I lhs <? get I rhs)%Z.

(** [incr_wrap<I, TupleType>::value] *)
Definition incr_wrap (I : nat) : nat := (I + 1) mod K.

(** [kd_less<I, N>]: [n] is [K - 1 - N], the number of further axes that may
    be consulted; [n = 0] is the [is_last<N>] overload. *)
Fixpoint kd_less_ (n I : nat) (lhs rhs : tuple) : bool :=
  match n with
  | 0 => (get I lhs <? get I rhs)%Z
  | S n' =>
      if (get I lhs =? get I rhs)%Z
      then kd_less_ n' (incr_wrap I) lhs rhs
      else (get I lhs <? get I rhs)%Z
  end.

Definition kd_less (I : nat) : tuple -> tuple -> bool := kd_less_ (K - 1) I.

(** [kd_compare<Pred, I, N>]: as [kd_less], with the caller's [m_pred] on
    components in place of [<]; two components neither of which precedes
    the other count as equal. *)
Fixpoint kd_compare_ (m_pred : Z -> Z -> bool) (n I : nat)
  (lhs rhs : tuple) : bool :=
  match n with
  | 0 => m_pred (get I lhs) (get I rhs)
  | S n' =>
      if negb (m_pred (get I lhs) (get I rhs))
         && negb (m_pred (get I rhs) (get I lhs))
      then kd_compare_ m_pred n' (incr_wrap I) lhs rhs
      else m_pred (get I lhs) (get I rhs)
  end.

Definition kd_compare (m_pred : Z -> Z -> bool) (I : nat)
  : tuple -> tuple -> bool :=
  kd_compare_ m_pred (K - 1) I.

(** [all_less_<I>]: [n] is [K - 1 - I]. *)
Fixpoint all_less_ (n I : nat) (lhs rhs : tuple) : bool :=
  match n with
  | 0 => (get I lhs <? get I rhs)%Z
  | S n' => (get I lhs <? get I rhs)%Z && all_less_ n' (S I) lhs rhs
  end.

Definition all_less (lhs rhs : tuple) : bool := all_less_ (K - 1) 0 lhs rhs.

(** [none_less_<I>] *)
Fixpoint none_less_ (n I : nat) (lhs rhs : tuple) : bool :=
  match n with
  | 0 => (get I lhs >=? get I rhs)%Z
  | S n' => (get I lhs >=? get I rhs)%Z && none_less_ n' (S I) lhs rhs
  end.

Definition none_less (lhs rhs : tuple) : bool := none_less_ (K - 1) 0 lhs rhs.

(** [sum_of_squares_<I>] *)
Fixpoint sum_of_squares_ (n I : nat) (lhs rhs : tuple) : Z :=
  match n with
  | 0 => ((get I lhs - get I rhs) ^ 2)%Z
  | S n' => ((get I lhs - get I rhs) ^ 2 + sum_of_squares_ n' (S I) lhs rhs)%Z
  end.

Definition sum_of_squares (lhs rhs : tuple) : Z :=
  sum_of_squares_ (K - 1) 0 lhs rhs.

Definition l2dist (lhs rhs : tuple) : double := Sqrt (sum_of_squares lhs rhs).

Definition contains (value lower upper : tuple) : bool :=
  none_less value lower && all_less value upper.

(** *** The bounded best-queue

    A [priority_queue] ordered by [less_nth<0>] on (key, iterator) pairs is
    represented by its contents in the order [pop] removes them: largest key
    first.  [emplace] places a new pair behind the pairs whose key is not
    smaller. *)

Record n_best : Type := { m_n : nat; q : list (double * nat) }.

Definition n_best_new (n : nat) : n_best := {| m_n := n; q := [] |}.

Fixpoint emplace (e : double * nat) (l : list (double * nat))
  : list (double * nat) :=
  match l with
  | [] => [e]
  | h :: t => if dlt (fst h) (fst e) then e :: h :: t else h :: emplace e t
  end.

Definition max_key (b : n_best) : double :=
  match q b with
  | [] => DBL_MAX
  | top :: _ => fst top
  end.

Definition add (dist : double) (it : nat) (b : n_best) : n_best :=
  let q1 := emplace (dist, it) (q b) in
  {| m_n := m_n b;
     q := if m_n b <? length q1 then tl q1 else q1 |}.

(** *** Queries on the sequence [data] *)

Section Sequence.
Variables (data : list tuple) (past_end : tuple).

Local Notation "'*' it" := (deref data past_end it) (at level 35).

Definition find_pivot (I first last : nat) : M nat :=
  let pivot := midpos first last in
  pv <- * pivot ;;
  std.partition_point data past_end first pivot (fun x => less_nth I x pv).

Fixpoint kd_lower_bound (fuel I first last : nat) (value : tuple) : M nat :=
  let base :=
    x <- * first ;;
    ret (if none_less x value then first else last) in
  match fuel with
  | 0 => base
  | S fuel' =>
      let J := incr_wrap I in
      if 1 <? last - first then
        pivot <- find_pivot I first last ;;
        pv <- * pivot ;;
        if none_less pv value then kd_lower_bound fuel' J first pivot value
        else if all_less pv value
        then kd_lower_bound fuel' J (S pivot) last value
        else
          it <- kd_lower_bound fuel' J first pivot value ;;
          x <- * it ;;
          if none_less x value then ret it
          else
            it <- kd_lower_bound fuel' J (S pivot) last value ;;
            x <- * it ;;
            if none_less x value then ret it else ret last
      else base
  end.

Fixpoint kd_upper_bound (fuel I first last : nat) (value : tuple) : M nat :=
  let base :=
    x <- * first ;;
    ret (if all_less value x then first else last) in
  match fuel with
  | 0 => base
  | S fuel' =>
      let J := incr_wrap I in
      if 1 <? last - first then
        pivot <- find_pivot I first last ;;
        pv <- * pivot ;;
        if all_less value pv then kd_upper_bound fuel' J first pivot value
        else if none_less value pv
        then kd_upper_bound fuel' J (S pivot) last value
        else
          it <- kd_upper_bound fuel' J first pivot value ;;
          x <- * it ;;
          if all_less value x then ret it
          else
            it <- kd_upper_bound fuel' J (S pivot) last value ;;
            x <- * it ;;
            if all_less value x then ret it else ret last
      else base
  end.

Fixpoint kd_nearest_neighbor (fuel I first last : nat) (value : tuple)
  : M nat :=
  match fuel with
  | 0 => ret first
  | S fuel' =>
      let J := incr_wrap I in
      if 1 <? last - first then
        pivot <- find_pivot I first last ;;
        pv <- * pivot ;;
        let search_left := less_nth I value pv in
        search <- (if search_left
                   then kd_nearest_neighbor fuel' J first pivot value
                   else kd_nearest_neighbor fuel' J (S pivot) last value) ;;
        let min_dist := l2dist pv value in
        best <- (if search =? last then ret (pivot, min_dist)
                 else
                   sv <- * search ;;
                   let sdist := l2dist sv value in
                   ret (if dlt sdist min_dist
                        then (search, sdist) else (pivot, min_dist))) ;;
        let search := fst best in
        let min_dist := snd best in
        if abs_lt (get I value - get I pv) min_dist then
          s2 <- (if search_left
                 then kd_nearest_neighbor fuel' J (S pivot) last value
                 else kd_nearest_neighbor fuel' J first pivot value) ;;
          if s2 =? last then ret search
          else
            s2v <- * s2 ;;
            ret (if dlt (l2dist s2v value) min_dist then s2 else search)
        else ret search
      else ret first
  end.

(** The overload with [eps].  Below the level it is called at it searches
    with the exact overload above: the header's recursive calls pass no
    [eps]. *)
Definition kd_nearest_neighbor_eps (fuel I first last : nat) (value : tuple)
  (eps : Q) : M nat :=
  match fuel with
  | 0 => ret first
  | S fuel' =>
      let J := incr_wrap I in
      if 1 <? last - first then
        pivot <- find_pivot I first last ;;
        pv <- * pivot ;;
        let min_dist := l2dist pv value in
        if dlt_eps min_dist eps then ret pivot
        else
          let search_left := less_nth I value pv in
          search <- (if search_left
                     then kd_nearest_neighbor fuel' J first pivot value
                     else kd_nearest_neighbor fuel' J (S pivot) last value) ;;
          (* [None]: the early [return search] *)
          best <- (if search =? last then ret (Some (pivot, min_dist))
                   else
                     sv <- * search ;;
                     let sdist := l2dist sv value in
                     ret (if dlt_eps sdist eps then None
                          else if dlt sdist min_dist
                               then Some (search, sdist)
                               else Some (pivot, min_dist))) ;;
          match best with
          | None => ret search
          | Some (search, min_dist) =>
              if abs_lt_minus (get I value - get I pv) min_dist eps then
                s2 <- (if search_left
                       then kd_nearest_neighbor fuel' J (S pivot) last value
                       else kd_nearest_neighbor fuel' J first pivot value) ;;
                if s2 =? last then ret search
                else
                  s2v <- * s2 ;;
                  ret (if dlt (l2dist s2v value) min_dist then s2 else search)
              else ret search
          end
      else ret first
  end.

(** The sink [outp] is an appending output iterator; the value returned is
    the list of tuples written to it, in order. *)
Fixpoint kd_range_query (fuel I first last : nat) (lower upper : tuple)
  : M (list tuple) :=
  match last - first with
  | 1 =>
      x <- * first ;;
      ret (if contains x lower upper then [x] else [])
  | 0 => ret []
  | _ =>
      match fuel with
      | 0 => ret []
      | S fuel' =>
          let J := incr_wrap I in
          pivot <- find_pivot I first last ;;
          pv <- * pivot ;;
          let out0 := if contains pv lower upper then [pv] else [] in
          out1 <- (if negb (less_nth I pv lower)
                   then kd_range_query fuel' J first pivot lower upper
                   else ret []) ;;
          out2 <- (if less_nth I pv upper
                   then kd_range_query fuel' J (S pivot) last lower upper
                   else ret []) ;;
          ret (out0 ++ out1 ++ out2)
      end
  end.

(** [n_best::copy]: the [while (!q.empty())] loop. *)
Fixpoint copy_loop (l : list (double * nat)) : M (list tuple) :=
  match l with
  | [] => ret []
  | top :: rest =>
      x <- * (snd top) ;;
      out <- copy_loop rest ;;
      ret (x :: out)
  end.

Definition copy (b : n_best) : M (list tuple) := copy_loop (q b).

Fixpoint knn (fuel I first last : nat) (value : tuple) (b : n_best)
  : M n_best :=
  match last - first with
  | 1 =>
      x <- * first ;;
      ret (add (l2dist x value) first b)
  | 0 => ret b
  | _ =>
      match fuel with
      | 0 => ret b
      | S fuel' =>
          let J := incr_wrap I in
          pivot <- find_pivot I first last ;;
          pv <- * pivot ;;
          let b1 := add (l2dist pv value) pivot b in
          let search_left := less_nth I value pv in
          b2 <- (if search_left
                 then knn fuel' J first pivot value b1
                 else knn fuel' J (S pivot) last value b1) ;;
          if abs_le (get I value - get I pv) (max_key b2) then
            if search_left
            then knn fuel' J (S pivot) last value b2
            else knn fuel' J first pivot value b2
          else ret b2
      end
  end.

End Sequence.

(** *** Sorting

    [std::nth_element] and [std::partition] act on the contents of a range;
    the standard fixes their results only up to the postconditions stated
    with the theorems, so they are parameters here.  [partition] returns the
    rearranged range and the offset of the first element of the second
    group. *)

Section Sort.
Variable nth_element :
  (tuple -> tuple -> bool) -> nat -> list tuple -> list tuple.
Variable partition : (tuple -> bool) -> list tuple -> list tuple * nat.

(** [pivot = partition(first, pivot, bind(pred, _1, *pivot))] on the contents
    [l1] of [[first, last)]: [bind] copies the tuple at [pivot], the range
    before [pivot] is rearranged and what lies from [pivot] on is untouched.
    Returns the new contents and the new pivot offset. *)
Definition kd_repartition (I pivot : nat) (l1 : list tuple)
  : list tuple * nat :=
  let pv := nth pivot l1 [] in
  let '(front, pivot') :=
    partition (fun x => kd_less I x pv) (firstn pivot l1) in
  (front ++ skipn pivot l1, pivot').

(** One level of [kd_sort<I>]: the median selection followed by the
    re-partitioning. *)
Definition kd_sort_level (I : nat) (l : list tuple) : list tuple * nat :=
  let pivot := midpos 0 (length l) in
  kd_repartition I pivot (nth_element (kd_less I) pivot l).

Fixpoint kd_sort (fuel I : nat) (l : list tuple) : list tuple :=
  match fuel with
  | 0 => l
  | S fuel' =>
      let J := incr_wrap I in
      if 1 <? length l then
        let '(l2, pivot) := kd_sort_level I l in
        let upper := kd_sort fuel' J (skipn (S pivot) l2) in
        let lower := kd_sort fuel' J (firstn pivot l2) in
        lower ++ firstn 1 (skipn pivot l2) ++ upper
      else l
  end.

End Sort.
End Arity.
End detail.

(** ** namespace kdtools: the public entry points *)

Section Public.
Variables (K : nat) (data : list tuple) (past_end : tuple).

Definition kd_lower_bound (first last : nat) (value : tuple) : M nat :=
  detail.kd_lower_bound K data past_end (last - first) 0 first last value.

Definition kd_upper_bound (first last : nat) (value : tuple) : M nat :=
  detail.kd_upper_bound K data past_end (last - first) 0 first last value.

Definition kd_binary_search (first last : nat) (value : tuple) : M bool :=
  first' <- kd_lower_bound first last value ;;
  if first' =? last then ret false
  else
    x <- deref data past_end first' ;;
    ret (detail.none_less K value x).

(** The lower bound is computed before the upper one here; the order in
    which the two arguments of [make_pair] are evaluated is not fixed, and
    only the order of the logged reads depends on it. *)
Definition kd_equal_range (first last : nat) (value : tuple)
  : M (nat * nat) :=
  lo <- kd_lower_bound first last value ;;
  hi <- kd_upper_bound first last value ;;
  ret (lo, hi).

Definition kd_nearest_neighbor (first last : nat) (value : tuple) : M nat :=
  detail.kd_nearest_neighbor K data past_end (last - first) 0 first last value.

Definition kd_nearest_neighbor_eps (first last : nat) (value : tuple)
  (eps : Q) : M nat :=
  detail.kd_nearest_neighbor_eps K data past_end (last - first) 0 first last
    value eps.

Definition kd_range_query (first last : nat) (lower upper : tuple)
  : M (list tuple) :=
  detail.kd_range_query K data past_end (last - first) 0 first last lower
    upper.

Definition kd_nearest_neighbors (first last : nat) (value : tuple) (n : nat)
  : M (list tuple) :=
  b <- detail.knn K data past_end (last - first) 0 first last value
         (detail.n_best_new n) ;;
  detail.copy data past_end b.

End Public.

Section PublicSort.
Variable K : nat.
Variable nth_element :
  (tuple -> tuple -> bool) -> nat -> list tuple -> list tuple.
Variable partition : (tuple -> bool) -> list tuple -> list tuple * nat.

Definition kd_sort (l : list tuple) : list tuple :=
  detail.kd_sort K nth_element partition (length l) 0 l.

(** [lex_sort]: [std::sort] with [kd_less<0>], the sort being a parameter as
    above. *)
Definition lex_sort
  (sort : (tuple -> tuple -> bool) -> list tuple -> list tuple)
  (l : list tuple) : list tuple :=
  sort (detail.kd_less K 0) l.

End PublicSort.

(** ** The k-d order

    The layout at axis [I] of the contents [l] of a range, with the pivot at
    [midpos]: what lies before the pivot is [kd_less<I>] than it, nothing
    behind it is, and both sides are laid out in the same way at the next
    axis. *)

Fixpoint kd_ordered_at (K fuel I : nat) (l : list tuple) : bool :=
  match fuel with
  | 0 => true
  | S fuel' =>
      if 1 <? length l then
        let p := detail.midpos 0 (length l) in
        let pv := nth p l [] in
        let J := detail.incr_wrap K I in
        forallb (fun x => detail.kd_less K I x pv) (firstn p l)
        && forallb (fun y => negb (detail.kd_less K I y pv)) (skipn (S p) l)
        && kd_ordered_at K fuel' J (firstn p l)
        && kd_ordered_at K fuel' J (skipn (S p) l)
      else true
  end.

Definition kd_ordered (K : nat) (l : list tuple) : bool :=
  kd_ordered_at K (length l) 0 l.

(** A layout with the pivot anywhere at or before [midpos].  It is weaker
    than what [kd_sort] establishes ([kd_median_layout] below) and is what
    the proofs about the bound searches start from. *)
Inductive kd_layout (K : nat) : nat -> list tuple -> Prop :=
| kd_layout_leaf (I : nat) (l : list tuple) :
    length l <= 1 -> kd_layout K I l
| kd_layout_node (I : nat) (front : list tuple) (pv : tuple)
    (back : list tuple) :
    length front <= detail.midpos 0 (length (front ++ pv :: back)) ->
    Forall (fun x => detail.kd_less K I x pv = true) front ->
    Forall (fun y => detail.kd_less K I y pv = false) back ->
    kd_layout K (detail.incr_wrap K I) front ->
    kd_layout K (detail.incr_wrap K I) back ->
    kd_layout K I (front ++ pv :: back).

(** The layout [kd_sort] establishes.  A range of more than one tuple
    splits at the offset [p] that the re-partitioning of its level returned:
    the tuples before [p] are [kd_less<I>] than the pivot at [p] and no tuple
    behind it is.  The tuples that the re-partitioning left from [p] up to
    [midpos] were equal in this order to the selected median, and they stay
    behind [p]: at least [midpos - p] of the tuples behind the pivot are not
    larger than it either.  So the pivot is a median of the range, [p] is
    the number of tuples smaller than it, and [p] is [midpos] unless a tuple
    equal to the pivot lies behind it.  Both sides are laid out in the same
    way at the next axis. *)
Inductive kd_median_layout (K : nat) : nat -> list tuple -> Prop :=
| kd_median_layout_leaf (I : nat) (l : list tuple) :
    length l <= 1 -> kd_median_layout K I l
| kd_median_layout_node (I : nat) (front : list tuple) (pv : tuple)
    (back : list tuple) :
    length front <= detail.midpos 0 (length (front ++ pv :: back)) ->
    detail.midpos 0 (length (front ++ pv :: back))
    <= length front
       + length (filter (fun y => negb (detail.kd_less K I pv y)) back) ->
    Forall (fun x => detail.kd_less K I x pv = true) front ->
    Forall (fun y => detail.kd_less K I y pv = false) back ->
    kd_median_layout K (detail.incr_wrap K I) front ->
    kd_median_layout K (detail.incr_wrap K I) back ->
    kd_median_layout K I (front ++ pv :: back).

(** ** Reference implementations of the standard algorithms

    Functions that meet the postconditions of [std::nth_element] and
    [std::partition]: a sort and a stable split, and, closer to what the
    standard libraries do, a selection that leaves a selected range alone
    and a partition by swaps. *)

Fixpoint insert_by (cmp : tuple -> tuple -> bool) (x : tuple)
  (l : list tuple) : list tuple :=
  match l with
  | [] => [x]
  | h :: t => if cmp x h then x :: h :: t else h :: insert_by cmp x t
  end.

Definition sort_by (cmp : tuple -> tuple -> bool) (l : list tuple)
  : list tuple :=
  fold_right (insert_by cmp) [] l.

(** Sorting the whole range selects every position at once. *)
Definition nth_element_by_sort (cmp : tuple -> tuple -> bool) (n : nat)
  (l : list tuple) : list tuple :=
  sort_by cmp l.

Definition partition_stable (pred : tuple -> bool) (l : list tuple)
  : list tuple * nat :=
  (filter pred l ++ filter (fun x => negb (pred x)) l,
   length (filter pred l)).

(** The two-pointer scheme of [std::partition] on bidirectional iterators:
    [first] advances over the elements that satisfy the predicate, [last]
    retreats over those that do not, and the two elements they stop at are
    swapped.  [split_back] is the retreat of [last]: it cuts off the longest
    suffix of elements that do not satisfy the predicate. *)
Fixpoint split_back (pred : tuple -> bool) (l : list tuple)
  : list tuple * list tuple :=
  match l with
  | [] => ([], [])
  | x :: t =>
      let (p, s) := split_back pred t in
      match p with
      | [] => if pred x then ([x], s) else ([], x :: s)
      | _ => (x :: p, s)
      end
  end.

Fixpoint partition_swapping_loop (fuel : nat) (pred : tuple -> bool)
  (l : list tuple) : list tuple * nat :=
  match fuel with
  | 0 => (l, 0)
  | S fuel' =>
      match l with
      | [] => ([], 0)
      | x :: t =>
          if pred x then
            let (r, k) := partition_swapping_loop fuel' pred t in
            (x :: r, S k)
          else
            let (p, s) := split_back pred t in
            match rev p with
            | [] => (x :: t, 0)
            | y :: between =>
                let (r, k) :=
                  partition_swapping_loop fuel' pred (rev between) in
                (y :: r ++ x :: s, S k)
            end
      end
  end.

Definition partition_swapping (pred : tuple -> bool) (l : list tuple)
  : list tuple * nat :=
  partition_swapping_loop (length l) pred l.

(** An [nth_element] that leaves alone a range in which position [n] is
    already selected. *)
Definition selected (cmp : tuple -> tuple -> bool) (n : nat) (l : list tuple)
  : bool :=
  forallb (fun x => negb (cmp (nth n l []) x)) (firstn n l)
  && forallb (fun y => negb (cmp y (nth n l []))) (skipn (S n) l).

Definition nth_element_lazy (cmp : tuple -> tuple -> bool) (n : nat)
  (l : list tuple) : list tuple :=
  if selected cmp n l then l else sort_by cmp l.

(** ** Invariants of the best-queue *)

Definition key_ge (e1 e2 : double * nat) : Prop :=
  dlt (fst e1) (fst e2) = false.

(** The contents of the queue are in the order [pop] removes them. *)
Definition heap_ordered (l : list (double * nat)) : Prop :=
  StronglySorted key_ge l.

Section QueueInvariants.
Variables (K : nat) (data : list tuple) (past_end : tuple) (value : tuple).

(** The key of an entry is the distance of the tuple at its position. *)
Definition keyed (e : double * nat) : Prop :=
  fst e = detail.l2dist K (nth (snd e) data past_end) value.

(** How a queue may have changed after some calls of [add]. *)
Definition evolves (a b : detail.n_best) : Prop :=
  detail.m_n b = detail.m_n a
  /\ length (detail.q a) <= length (detail.q b)
  /\ (heap_ordered (detail.q a) -> heap_ordered (detail.q b))
  /\ (length (detail.q a) <= detail.m_n a ->
      length (detail.q b) <= detail.m_n b)
  /\ (Forall keyed (detail.q a) -> Forall keyed (detail.q b))
  /\ (length (detail.q b) < detail.m_n b ->
      incl (detail.q a) (detail.q b)).

End QueueInvariants.

(** ** Auxiliary notions for the proofs *)

(** The axes [kd_less<I>] consults, in order, when [n] further axes may
    follow the first. *)
Fixpoint kd_axes (K n I : nat) : list nat :=
  I :: match n with
       | 0 => []
       | S n' => kd_axes K n' (detail.incr_wrap K I)
       end.

(** No tuple of the sequence is componentwise above a later one without
    being componentwise equal to it. *)
Definition undominated (K : nat) (l : list tuple) : Prop :=
  forall p q d,
    p < q < length l ->
    detail.none_less K (nth p l d) (nth q l d) = true ->
    detail.none_less K (nth q l d) (nth p l d) = true.

(** ** What [kd_sort] relies on from the standard algorithms

    [nth_element] permutes the range and leaves at [n] an element that
    nothing before it is greater than and nothing behind it is smaller
    than.  [partition] permutes the range, the elements that satisfy the
    predicate first, and returns where the second group starts; the order
    inside either group is not specified. *)

Definition nth_element_post (K : nat)
  (nth_element : (tuple -> tuple -> bool) -> nat -> list tuple -> list tuple)
  : Prop :=
  forall I n l,
    n < length l ->
    let l1 := nth_element (detail.kd_less K I) n l in
    Permutation l l1
    /\ (forall i, i < n ->
          detail.kd_less K I (nth n l1 []) (nth i l1 []) = false)
    /\ (forall j, n < j < length l ->
          detail.kd_less K I (nth j l1 []) (nth n l1 []) = false).

Definition partition_post
  (partition : (tuple -> bool) -> list tuple -> list tuple * nat) : Prop :=
  forall pred l,
    let l' := fst (partition pred l) in
    let p := snd (partition pred l) in
    Permutation l l'
    /\ p <= length l
    /\ Forall (fun x => pred x = true) (firstn p l')
    /\ Forall (fun x => pred x = false) (skipn p l').

(** [std::sort] with the comparator [kd_less<0>] permutes the range so that
    no element is smaller than an earlier one. *)
Definition sort_post (K : nat)
  (sort : (tuple -> tuple -> bool) -> list tuple -> list tuple) : Prop :=
  forall l,
    let s := sort (detail.kd_less K 0) l in
    Permutation l s
    /\ forall i j, i < j < length s ->
         detail.kd_less K 0 (nth j s []) (nth i s []) = false.

(** The stable split of a range by a predicate. *)
Definition stable_split (pred : tuple -> bool) (l : list tuple) : list tuple :=
  filter pred l ++ filter (fun x => negb (pred x)) l.

(** ** The order the descent relies on

    At every range the descent visits, the tuples before the position that
    [find_pivot] returns are not above the pivot on the axis of the level,
    and the tuples behind it are not below. *)
Fixpoint descent_ordered (K : nat) (data : list tuple) (past_end : tuple)
  (fuel I first last : nat) : Prop :=
  match fuel with
  | 0 => True
  | S fuel' =>
      1 < last - first ->
      let pivot := value_of (detail.find_pivot data past_end I first last) in
      let pv := nth pivot data past_end in
      let J := detail.incr_wrap K I in
      (forall x, first <= x < pivot ->
         (get I (nth x data past_end) <= get I pv)%Z)
      /\ (forall y, pivot < y < last ->
            (get I pv <= get I (nth y data past_end))%Z)
      /\ descent_ordered K data past_end fuel' J first pivot
      /\ descent_ordered K data past_end fuel' J (S pivot) last
  end.

(** No two tuples of the sequence agree on any axis. *)
Definition tie_free (K : nat) (l : list tuple) : Prop :=
  forall i j a d,
    i < j < length l -> a < K -> get a (nth i l d) <> get a (nth j l d).

(** The contents of the range [[first, last)] of a sequence. *)
Definition range (data : list tuple) (first last : nat) : list tuple :=
  firstn (last - first) (skipn first data).

(** The components of a tuple on the axes [0 .. K-1]; two tuples are the
    same point when these agree. *)
Definition components (K : nat) (t : tuple) : list Z :=
  map (fun a => get a t) (seq 0 K).

(** No two positions of the sequence hold the same point. *)
Definition distinct_tuples (K : nat) (l : list tuple) : Prop :=
  NoDup (map (components K) l).

(** What the queue holds once the positions [U] have been dealt with
    (offered to [add], or skipped by the pruning test): entries at distinct
    positions of [U], as many as the capacity allows, and none of the other
    positions of [U] is closer to [value] than the entry on top. *)
Definition holds_nearest (K : nat) (data : list tuple) (past_end value : tuple)
  (b : detail.n_best) (U : list nat) : Prop :=
  heap_ordered (detail.q b)
  /\ Forall (keyed K data past_end value) (detail.q b)
  /\ NoDup (map snd (detail.q b))
  /\ incl (map snd (detail.q b)) U
  /\ length (detail.q b) = Nat.min (detail.m_n b) (length U)
  /\ (forall x, In x U -> ~ In x (map snd (detail.q b)) ->
        dlt (detail.l2dist K (nth x data past_end) value) (detail.max_key b)
        = false).

(** A position and a log of reads that stay inside [[first, last)]; on an
    empty range the position is [first]. *)
Definition stays_inside (first last : nat) (m : M nat) : Prop :=
  (first < last -> first <= value_of m < last)
  /\ (last <= first -> value_of m = first)
  /\ Forall (fun x => first <= x < last) (reads_of m).

(** Every position the computation dereferences is a position of the
    sequence.  A run that meets this dereferences no iterator at or past
    [end()], so that the tuple [past_end] plays no part in it. *)
Definition reads_inside {A : Type} (data : list tuple) (m : M A) : Prop :=
  Forall (fun x => x < length data) (reads_of m).

(** ** Where the arithmetic on doubles is exact

    Integral components of magnitude up to [2^22] on at most 16 axes.  The
    difference of two such components is below [2^23] in magnitude and is
    formed without overflow; its square, and a sum of up to 16 such
    squares, is an integer not above [2^50], which a [double] holds
    exactly.  [std::sqrt] rounds correctly, and on integers up to [2^50] the
    rounded square root is strictly increasing and tells the square root of
    [d * d] from those of the integers next to it: the comparisons of the
    header between two distances, and between a distance and a gap along an
    axis, then come out as for the exact values. *)
Definition exact_on (K : nat) (ts : list tuple) : Prop :=
  K <= 16
  /\ Forall (fun t => forall a, a < K -> (Z.abs (get a t) <= 2 ^ 22)%Z) ts.

(** The real number that the double [l2dist lhs rhs] stands for. *)
Definition l2dist_R (K : nat) (lhs rhs : tuple) : R :=
  sqrt (IZR (detail.sum_of_squares K lhs rhs)).

(** * Properties *)

(** ** Values and reads of computations *)

Lemma value_of_ret {A : Type} (a : A) : value_of (ret a) = a.
Proof. reflexivity. Qed.

Lemma reads_of_ret {A : Type} (a : A) : reads_of (ret a) = [].
Proof. reflexivity. Qed.

Lemma value_of_bind {A B : Type} (m : M A) (k : A -> M B) :
  value_of (bind m k) = value_of (k (value_of m)).
Proof. reflexivity. Qed.

Lemma reads_of_bind {A B : Type} (m : M A) (k : A -> M B) :
  reads_of (bind m k) = reads_of m ++ reads_of (k (value_of m)).
Proof. reflexivity. Qed.

Lemma value_of_deref data past_end it :
  value_of (deref data past_end it) = nth it data past_end.
Proof. reflexivity. Qed.

Lemma reads_of_deref data past_end it :
  reads_of (deref data past_end it) = [it].
Proof. reflexivity. Qed.

Lemma value_of_if {A : Type} (c : bool) (m1 m2 : M A) :
  value_of (if c then m1 else m2) = if c then value_of m1 else value_of m2.
Proof. now destruct c. Qed.

Lemma reads_inside_check {A : Type} (data : list tuple) (m : M A) :
  forallb (fun x => x <? length data) (reads_of m) = true ->
  reads_inside data m.
Proof.
  intros H. apply Forall_forall. intros x Hx.
  apply Nat.ltb_lt. exact (proj1 (forallb_forall _ _) H x Hx).
Qed.

(** ** Order on doubles *)

Lemma dlt_irrefl (a : double) : dlt a a = false.
Proof. destruct a; simpl; [apply Z.ltb_irrefl | reflexivity]. Qed.

Lemma dlt_asym (a b : double) : dlt a b = true -> dlt b a = false.
Proof.
  destruct a, b; simpl; try congruence.
  rewrite Z.ltb_lt, Z.ltb_ge. lia.
Qed.

Lemma dlt_ge_trans (a b c : double) :
  dlt a b = false -> dlt b c = false -> dlt a c = false.
Proof.
  destruct a, b, c; simpl; try congruence.
  rewrite !Z.ltb_ge. lia.
Qed.

Lemma dlt_gt_ge (a b c : double) :
  dlt a b = true -> dlt a c = false -> dlt b c = false.
Proof.
  destruct a, b, c; simpl; try congruence.
  rewrite Z.ltb_lt, !Z.ltb_ge. lia.
Qed.

(** ** The doubles of the embedding and the reals they stand for *)

Lemma Qltb_lt (x y : Q) : Qltb x y = true <-> (Q2R x < Q2R y)%R.
Proof.
  unfold Qltb. rewrite negb_true_iff. split.
  - intros H. apply Qlt_Rlt. apply Qnot_le_lt. intros Hle.
    apply Qle_bool_iff in Hle. congruence.
  - intros H. apply Rlt_Qlt in H. apply not_true_is_false. intros Hle.
    apply Qle_bool_iff in Hle. apply Qlt_not_le in H. contradiction.
Qed.

Lemma Q2R_inject_Z (z : Z) : Q2R (inject_Z z) = IZR z.
Proof. unfold Q2R, inject_Z. simpl. field. Qed.

Lemma sqrt_lt_iff (x y : R) :
  (0 <= x)%R -> (0 <= y)%R -> (sqrt x < sqrt y)%R <-> (x < y)%R.
Proof.
  intros Hx Hy. split; [now apply sqrt_lt_0|now apply sqrt_lt_1].
Qed.

(** [t < sqrt y] for any real [t]. *)
Lemma lt_sqrt_iff (t y : R) :
  (0 <= y)%R -> (t < sqrt y)%R <-> (t < 0)%R \/ (t * t < y)%R.
Proof.
  intros Hy. pose proof (sqrt_pos y) as Hs.
  pose proof (sqrt_sqrt y Hy) as Hss.
  split.
  - intros H. destruct (Rlt_le_dec t 0) as [Ht|Ht]; [now left|right].
    rewrite <- Hss. nra.
  - intros [Ht|Ht]; [lra|].
    destruct (Rlt_le_dec t (sqrt y)) as [|Hge]; [assumption|].
    exfalso. rewrite <- Hss in Ht. nra.
Qed.

Lemma dlt_real (x y : Z) :
  (0 <= x)%Z -> (0 <= y)%Z ->
  dlt (Sqrt x) (Sqrt y) = true <-> (sqrt (IZR x) < sqrt (IZR y))%R.
Proof.
  intros Hx Hy. cbn [dlt].
  rewrite sqrt_lt_iff by (now apply IZR_le).
  rewrite Z.ltb_lt. split; [apply IZR_lt|apply lt_IZR].
Qed.

Lemma abs_lt_real (d y : Z) :
  (0 <= y)%Z ->
  abs_lt d (Sqrt y) = true <-> (Rabs (IZR d) < sqrt (IZR y))%R.
Proof.
  intros Hy. cbn [abs_lt].
  rewrite <- sqrt_Rsqr_abs. unfold Rsqr. rewrite <- mult_IZR.
  apply (dlt_real (d * d) y); [apply Z.square_nonneg|assumption].
Qed.

Lemma abs_le_real (d y : Z) :
  (0 <= y)%Z ->
  abs_le d (Sqrt y) = true <-> (Rabs (IZR d) <= sqrt (IZR y))%R.
Proof.
  intros Hy. cbn [abs_le].
  rewrite <- sqrt_Rsqr_abs. unfold Rsqr. rewrite <- mult_IZR.
  rewrite Z.leb_le. split.
  - intros H. apply sqrt_le_1_alt. now apply IZR_le.
  - intros H. apply le_IZR. apply sqrt_le_0 in H; [assumption| |].
    + apply IZR_le, Z.square_nonneg.
    + now apply IZR_le.
Qed.

Lemma dlt_eps_real (x : Z) (eps : Q) :
  (0 <= x)%Z ->
  dlt_eps (Sqrt x) eps = true <-> (sqrt (IZR x) < Q2R eps)%R.
Proof.
  intros Hx. cbn [dlt_eps].
  rewrite andb_true_iff, !Qltb_lt, Q2R_mult, Q2R_inject_Z.
  replace (Q2R 0) with 0%R by (unfold Q2R; simpl; field).
  apply IZR_le in Hx.
  pose proof (sqrt_pos (IZR x)) as Hs.
  pose proof (sqrt_sqrt (IZR x) Hx) as Hss.
  split.
  - intros [He Hlt].
    destruct (Rlt_le_dec (sqrt (IZR x)) (Q2R eps)) as [|Hge]; [assumption|].
    exfalso. rewrite <- Hss in Hlt. nra.
  - intros H. split; [lra|]. rewrite <- Hss. nra.
Qed.

Lemma abs_lt_minus_real (d y : Z) (eps : Q) :
  (0 <= y)%Z ->
  abs_lt_minus d (Sqrt y) eps = true
  <-> (Rabs (IZR d) < sqrt (IZR y) - Q2R eps)%R.
Proof.
  intros Hy. cbn [abs_lt_minus].
  rewrite orb_true_iff, !Qltb_lt, Q2R_mult, Q2R_plus, !Q2R_inject_Z.
  replace (Q2R 0) with 0%R by (unfold Q2R; simpl; field).
  rewrite abs_IZR.
  rewrite <- (lt_sqrt_iff _ (IZR y)) by (now apply IZR_le).
  split; intros H; lra.
Qed.

(** ** Componentwise comparisons *)

Section Componentwise.
Variable K : nat.

Lemma all_less__spec (n I : nat) (a b : tuple) :
  detail.all_less_ n I a b = true
  <-> forall i, I <= i <= I + n -> (get i a < get i b)%Z.
Proof.
  revert I. induction n as [|n IH]; intros I; cbn [detail.all_less_].
  - rewrite Z.ltb_lt. split.
    + intros H i Hi. now replace i with I by lia.
    + intros H. apply H. lia.
  - rewrite andb_true_iff, Z.ltb_lt, IH. split.
    + intros [H0 H] i Hi.
      destruct (Nat.eq_dec i I) as [->|Hne]; [assumption|]. apply H. lia.
    + intros H. split; [apply H; lia|]. intros i Hi. apply H. lia.
Qed.

Lemma none_less__spec (n I : nat) (a b : tuple) :
  detail.none_less_ n I a b = true
  <-> forall i, I <= i <= I + n -> (get i b <= get i a)%Z.
Proof.
  revert I. induction n as [|n IH]; intros I; cbn [detail.none_less_].
  - rewrite Z.geb_le. split.
    + intros H i Hi. now replace i with I by lia.
    + intros H. apply H. lia.
  - rewrite andb_true_iff, Z.geb_le, IH. split.
    + intros [H0 H] i Hi.
      destruct (Nat.eq_dec i I) as [->|Hne]; [assumption|]. apply H. lia.
    + intros H. split; [apply H; lia|]. intros i Hi. apply H. lia.
Qed.

Lemma all_less_spec (a b : tuple) :
  detail.all_less K a b = true
  <-> forall i, i <= K - 1 -> (get i a < get i b)%Z.
Proof.
  unfold detail.all_less. rewrite all_less__spec.
  split; intros H i Hi; apply H; lia.
Qed.

Lemma none_less_spec (a b : tuple) :
  detail.none_less K a b = true
  <-> forall i, i <= K - 1 -> (get i b <= get i a)%Z.
Proof.
  unfold detail.none_less. rewrite none_less__spec.
  split; intros H i Hi; apply H; lia.
Qed.

Lemma none_less_trans (a b c : tuple) :
  detail.none_less K a b = true -> detail.none_less K b c = true ->
  detail.none_less K a c = true.
Proof.
  rewrite !none_less_spec. intros H1 H2 i Hi.
  specialize (H1 i Hi). specialize (H2 i Hi). lia.
Qed.

(** What is strictly below [v] on every axis cannot be above anything that
    is not below [v] on any axis. *)
Lemma all_less_none_less_absurd (a x v : tuple) :
  detail.all_less K a v = true -> detail.none_less K x v = true ->
  detail.none_less K x a = true /\ detail.none_less K a x = false.
Proof.
  intros Ha Hx. split.
  - rewrite all_less_spec in Ha. rewrite none_less_spec in Hx |- *.
    intros i Hi. specialize (Ha i Hi). specialize (Hx i Hi). lia.
  - apply not_true_is_false. intros Hax.
    rewrite all_less_spec in Ha. rewrite none_less_spec in Hx, Hax.
    specialize (Ha 0 ltac:(lia)). specialize (Hx 0 ltac:(lia)).
    specialize (Hax 0 ltac:(lia)). lia.
Qed.

(** ** The cyclic lexicographic order *)

Lemma kd_less__witness (n I : nat) (a b : tuple) :
  detail.kd_less_ K n I a b = true ->
  exists j, In j (kd_axes K n I) /\ (get j a < get j b)%Z.
Proof.
  revert I. induction n as [|n IH]; intros I; cbn [detail.kd_less_ kd_axes].
  - rewrite Z.ltb_lt. intros H. exists I. split; [now left|assumption].
  - destruct (Z.eqb_spec (get I a) (get I b)) as [Heq|Hne].
    + intros H. destruct (IH _ H) as (j & Hj & Hlt).
      exists j. split; [now right|assumption].
    + rewrite Z.ltb_lt. intros H. exists I. split; [now left|assumption].
Qed.

(** [x < m] and not [y < m] give [x < y]. *)
Lemma kd_less__lt_ge (n I : nat) (x m y : tuple) :
  detail.kd_less_ K n I x m = true ->
  detail.kd_less_ K n I y m = false ->
  detail.kd_less_ K n I x y = true.
Proof.
  revert I. induction n as [|n IH]; intros I; cbn [detail.kd_less_].
  - rewrite !Z.ltb_lt, Z.ltb_ge. lia.
  - destruct (Z.eqb_spec (get I x) (get I m)) as [Hxm|Hxm];
      destruct (Z.eqb_spec (get I y) (get I m)) as [Hym|Hym];
      destruct (Z.eqb_spec (get I x) (get I y)) as [Hxy|Hxy];
      rewrite ?Z.ltb_lt, ?Z.ltb_ge; try lia.
    apply IH.
Qed.

(** Not [y < m], with [m] nowhere below [y] on the axes consulted, makes
    them agree on these axes. *)
Lemma kd_less__ge_above (n I : nat) (y m : tuple) :
  detail.kd_less_ K n I y m = false ->
  (forall j, In j (kd_axes K n I) -> (get j y <= get j m)%Z) ->
  forall j, In j (kd_axes K n I) -> get j y = get j m.
Proof.
  revert I. induction n as [|n IH]; intros I; cbn [detail.kd_less_ kd_axes].
  - rewrite Z.ltb_ge. intros H Hle j [<-|[]].
    specialize (Hle I (or_introl eq_refl)). lia.
  - destruct (Z.eqb_spec (get I y) (get I m)) as [Heq|Hne].
    + intros H Hle j [<-|Hj]; [assumption|].
      apply (IH _ H); [|assumption]. intros j' Hj'. apply Hle. now right.
    + rewrite Z.ltb_ge. intros H Hle.
      specialize (Hle I (or_introl eq_refl)). exfalso. lia.
Qed.

(** Neither [a < b] nor [b < a]: they agree on the axes consulted. *)
Lemma kd_less__neither (n I : nat) (a b : tuple) :
  detail.kd_less_ K n I a b = false ->
  detail.kd_less_ K n I b a = false ->
  forall j, In j (kd_axes K n I) -> get j a = get j b.
Proof.
  revert I. induction n as [|n IH]; intros I; cbn [detail.kd_less_ kd_axes].
  - rewrite !Z.ltb_ge. intros Hab Hba j [<-|[]]. lia.
  - destruct (Z.eqb_spec (get I a) (get I b)) as [Heq|Hne];
      destruct (Z.eqb_spec (get I b) (get I a)) as [Heq'|Hne'];
      try congruence.
    + intros Hab Hba j [<-|Hj]; [assumption|]. now apply (IH _ Hab Hba).
    + rewrite !Z.ltb_ge. intros Hab Hba. exfalso. lia.
Qed.

Lemma kd_less_irrefl (I : nat) (a : tuple) : detail.kd_less K I a a = false.
Proof.
  unfold detail.kd_less. generalize (K - 1) as n. intros n. revert I.
  induction n as [|n IH]; intros I; cbn [detail.kd_less_].
  - apply Z.ltb_irrefl.
  - rewrite Z.eqb_refl. apply IH.
Qed.

Lemma kd_less_lt_ge (I : nat) (x m y : tuple) :
  detail.kd_less K I x m = true -> detail.kd_less K I y m = false ->
  detail.kd_less K I x y = true.
Proof. apply kd_less__lt_ge. Qed.

Lemma kd_less_asym (I : nat) (a b : tuple) :
  detail.kd_less K I a b = true -> detail.kd_less K I b a = false.
Proof.
  unfold detail.kd_less. generalize (K - 1) as n. intros n. revert I.
  induction n as [|n IH]; intros I; cbn [detail.kd_less_].
  - rewrite Z.ltb_lt, Z.ltb_ge. lia.
  - destruct (Z.eqb_spec (get I a) (get I b)) as [Hab|Hab];
      destruct (Z.eqb_spec (get I b) (get I a)) as [Hba|Hba]; try congruence.
    + apply IH.
    + rewrite Z.ltb_lt, Z.ltb_ge. lia.
Qed.

Lemma kd_less_trans (I : nat) (a b c : tuple) :
  detail.kd_less K I a b = true -> detail.kd_less K I b c = true ->
  detail.kd_less K I a c = true.
Proof.
  intros Hab Hbc. apply kd_less_lt_ge with b; [assumption|].
  now apply kd_less_asym.
Qed.

Hypothesis K_pos : 0 < K.

Lemma incr_wrap_lt (I : nat) : detail.incr_wrap K I < K.
Proof. unfold detail.incr_wrap. apply Nat.mod_upper_bound. lia. Qed.

Lemma kd_axes_lt (n I : nat) : I < K -> Forall (fun j => j < K) (kd_axes K n I).
Proof.
  revert I. induction n as [|n IH]; intros I HI; cbn [kd_axes].
  - now repeat constructor.
  - constructor; [assumption|]. apply IH, incr_wrap_lt.
Qed.

Lemma kd_axes_offset (n I t : nat) :
  I < K -> t <= n -> In ((I + t) mod K) (kd_axes K n I).
Proof.
  revert I t. induction n as [|n IH]; intros I t HI Ht; cbn [kd_axes].
  - left. replace t with 0 by lia. rewrite Nat.add_0_r.
    symmetry. now apply Nat.mod_small.
  - destruct t as [|t].
    + left. rewrite Nat.add_0_r. symmetry. now apply Nat.mod_small.
    + right. specialize (IH (detail.incr_wrap K I) t (incr_wrap_lt I)
                           ltac:(lia)).
      unfold detail.incr_wrap in IH at 1.
      rewrite Nat.Div0.add_mod_idemp_l in IH.
      now replace (I + S t) with (I + 1 + t) by lia.
Qed.

Lemma kd_axes_cover (I j : nat) :
  I < K -> j < K -> In j (kd_axes K (K - 1) I).
Proof.
  intros HI Hj.
  destruct (le_lt_dec I j) as [Hle|Hlt].
  - replace j with ((I + (j - I)) mod K) at 1.
    + apply kd_axes_offset; [assumption|lia].
    + replace (I + (j - I)) with j by lia. now apply Nat.mod_small.
  - replace j with ((I + (K + j - I)) mod K) at 1.
    + apply kd_axes_offset; [assumption|lia].
    + replace (I + (K + j - I)) with (j + 1 * K) by lia.
      rewrite Nat.Div0.mod_add. now apply Nat.mod_small.
Qed.

(** [kd_less<I>] finds an axis below [K] on which its first argument is
    smaller. *)
Lemma kd_less_not_none_less (I : nat) (a b : tuple) :
  I < K -> detail.kd_less K I a b = true -> detail.none_less K a b = false.
Proof.
  intros HI Hlt. apply not_true_is_false. intros Hge.
  destruct (kd_less__witness _ _ _ _ Hlt) as (j & Hj & Hjlt).
  pose proof (proj1 (Forall_forall _ _) (kd_axes_lt (K - 1) I HI) j Hj) as HjK.
  cbv beta in HjK. rewrite none_less_spec in Hge. specialize (Hge j ltac:(lia)). lia.
Qed.

(** Not [y < m] although [m] is componentwise above [y]: then [y] is
    componentwise above [m] as well. *)
Lemma kd_less_ge_none_less (I : nat) (y m : tuple) :
  I < K -> detail.kd_less K I y m = false ->
  detail.none_less K m y = true -> detail.none_less K y m = true.
Proof.
  intros HI Hge Hmy.
  rewrite none_less_spec in Hmy. rewrite none_less_spec.
  intros i Hi.
  assert (HiK : i < K) by lia.
  rewrite <- (kd_less__ge_above (K - 1) I y m Hge); [lia| |].
  - intros j Hj.
    pose proof (proj1 (Forall_forall _ _) (kd_axes_lt (K - 1) I HI) j Hj)
      as HjK.
    cbv beta in HjK. apply Hmy. lia.
  - now apply kd_axes_cover.
Qed.

End Componentwise.

(** ** Sums of squares *)

Lemma sum_of_squares__nonneg (n I : nat) (a b : tuple) :
  (0 <= detail.sum_of_squares_ n I a b)%Z.
Proof.
  revert I. induction n as [|n IH]; intros I; cbn [detail.sum_of_squares_].
  - rewrite Z.pow_2_r. apply Z.square_nonneg.
  - specialize (IH (S I)). rewrite Z.pow_2_r.
    pose proof (Z.square_nonneg (get I a - get I b)). lia.
Qed.

Lemma sum_of_squares__ge_axis (n I i : nat) (a b : tuple) :
  I <= i <= I + n ->
  ((get i a - get i b) ^ 2 <= detail.sum_of_squares_ n I a b)%Z.
Proof.
  revert I. induction n as [|n IH]; intros I Hi; cbn [detail.sum_of_squares_].
  - replace i with I by lia. lia.
  - pose proof (sum_of_squares__nonneg n (S I) a b).
    destruct (Nat.eq_dec i I) as [->|Hne]; [lia|].
    specialize (IH (S I) ltac:(lia)).
    rewrite (Z.pow_2_r (get I a - get I b)).
    pose proof (Z.square_nonneg (get I a - get I b)). lia.
Qed.

Lemma sum_of_squares_ge_axis (K i : nat) (a b : tuple) :
  i < K ->
  ((get i a - get i b) * (get i a - get i b) <= detail.sum_of_squares K a b)%Z.
Proof.
  intros Hi. rewrite <- Z.pow_2_r.
  apply sum_of_squares__ge_axis. lia.
Qed.

Lemma sum_of_squares_sym (K : nat) (a b : tuple) :
  detail.sum_of_squares K a b = detail.sum_of_squares K b a.
Proof.
  unfold detail.sum_of_squares. generalize (K - 1) as n. intros n.
  generalize 0 as i.
  induction n as [|n IH]; intros i; cbn [detail.sum_of_squares_].
  - rewrite !Z.pow_2_r. lia.
  - rewrite IH, !Z.pow_2_r. lia.
Qed.

Lemma exact_on_check (K : nat) (ts : list tuple) :
  (K <=? 16)
  && forallb (fun t => forallb (fun a => (Z.abs (get a t) <=? 2 ^ 22)%Z)
                         (seq 0 K)) ts = true ->
  exact_on K ts.
Proof.
  intros H. apply andb_true_iff in H. destruct H as [HK H].
  split; [now apply Nat.leb_le|].
  apply Forall_forall. intros t Ht a Ha.
  pose proof (proj1 (forallb_forall _ _) H t Ht) as Hall. cbv beta in Hall.
  apply Z.leb_le. apply (proj1 (forallb_forall _ _) Hall).
  apply in_seq. lia.
Qed.

(** ** From the k-d order to positions *)

Lemma filter_of_permutation (keep : tuple -> bool) :
  forall l l' : list tuple,
    Permutation l l' -> Permutation (filter keep l) (filter keep l').
Proof.
  induction 1 as [|x l l' _ IH|x y l|l l' l'' _ IH1 _ IH2]; cbn [filter].
  - constructor.
  - destruct (keep x); [now constructor|exact IH].
  - destruct (keep x); destruct (keep y); try reflexivity. apply perm_swap.
  - etransitivity; eassumption.
Qed.

Lemma filter_everything {A : Type} (f : A -> bool) (l : list A) :
  Forall (fun x => f x = true) l -> filter f l = l.
Proof.
  induction 1 as [|x l Hx _ IH]; cbn [filter]; [reflexivity|].
  now rewrite Hx, IH.
Qed.

Lemma split_at_nth {A : Type} (l : list A) (p : nat) (d : A) :
  p < length l -> l = firstn p l ++ nth p l d :: skipn (S p) l.
Proof.
  revert p. induction l as [|a l IH]; intros p Hp; simpl in Hp; [lia|].
  destruct p as [|p]; [reflexivity|].
  cbn [firstn nth skipn app]. f_equal. apply IH. lia.
Qed.

Lemma midpos_lt (first last : nat) :
  first < last -> first <= detail.midpos first last < last.
Proof.
  intros H. unfold detail.midpos.
  assert ((last - first) / 2 < last - first)
    by (apply Nat.div_lt; lia).
  lia.
Qed.

Section Layout.
Variable K : nat.
Hypothesis K_pos : 0 < K.

Lemma kd_ordered_at_layout (fuel I : nat) (l : list tuple) :
  length l <= fuel -> kd_ordered_at K fuel I l = true -> kd_layout K I l.
Proof.
  revert I l. induction fuel as [|fuel IH]; intros I l Hlen Hord.
  - apply kd_layout_leaf. lia.
  - cbn [kd_ordered_at] in Hord.
    destruct (Nat.ltb_spec 1 (length l)) as [Hl|Hl];
      [|now apply kd_layout_leaf].
    apply andb_true_iff in Hord. destruct Hord as [Hord Hback].
    apply andb_true_iff in Hord. destruct Hord as [Hord Hfront].
    apply andb_true_iff in Hord. destruct Hord as [Hlt Hge].
    set (p := detail.midpos 0 (length l)) in *.
    assert (Hp : p < length l) by (apply (midpos_lt 0 (length l)); lia).
    rewrite (split_at_nth l p [] Hp).
    apply kd_layout_node.
    + rewrite <- (split_at_nth l p [] Hp).
      rewrite firstn_length_le by lia. reflexivity.
    + apply Forall_forall. intros x Hx.
      exact (proj1 (forallb_forall _ _) Hlt x Hx).
    + apply Forall_forall. intros y Hy.
      apply negb_true_iff. exact (proj1 (forallb_forall _ _) Hge y Hy).
    + apply IH; [|assumption]. rewrite firstn_length_le; lia.
    + apply IH; [|assumption]. rewrite length_skipn. lia.
Qed.

Lemma kd_ordered_layout (l : list tuple) :
  kd_ordered K l = true -> kd_layout K 0 l.
Proof. apply kd_ordered_at_layout. lia. Qed.

Lemma kd_layout_undominated (I : nat) (l : list tuple) :
  kd_layout K I l -> I < K -> undominated K l.
Proof.
  induction 1 as [I l Hl|I front pv back Hmid Hfront Hback _ IHf _ IHb];
    intros HI p q d Hpq Hge.
  - lia.
  - specialize (IHf (incr_wrap_lt K K_pos I)).
    specialize (IHb (incr_wrap_lt K K_pos I)).
    rewrite length_app in Hpq. cbn [length] in Hpq.
    destruct (Nat.lt_trichotomy q (length front)) as [Hq|[Hq|Hq]].
    + (* both before the pivot *)
      rewrite !app_nth1 in * by lia. apply IHf; [lia|assumption].
    + (* [q] is the pivot *)
      exfalso. rewrite app_nth1 in Hge by lia.
      rewrite app_nth2, Hq, Nat.sub_diag in Hge by lia. cbn [nth] in Hge.
      pose proof (proj1 (Forall_nth _ _) Hfront p d ltac:(lia)) as Hlt.
      rewrite (kd_less_not_none_less K K_pos I _ _ HI Hlt) in Hge.
      discriminate.
    + rewrite (app_nth2 front _ d (n := q)) in * by lia.
      destruct (q - length front) as [|q'] eqn:Eq; [lia|]. cbn [nth] in *.
      pose proof (proj1 (Forall_nth _ _) Hback q' d ltac:(lia)) as Hq'.
      destruct (Nat.lt_trichotomy p (length front)) as [Hp|[Hp|Hp]].
      * (* [p] before the pivot, [q] behind it *)
        exfalso. rewrite app_nth1 in Hge by lia.
        pose proof (proj1 (Forall_nth _ _) Hfront p d ltac:(lia)) as Hlt.
        pose proof (kd_less_lt_ge K I _ _ _ Hlt Hq') as Hpq'.
        rewrite (kd_less_not_none_less K K_pos I _ _ HI Hpq') in Hge.
        discriminate.
      * (* [p] is the pivot *)
        rewrite app_nth2, Hp, Nat.sub_diag in * by lia. cbn [nth] in *.
        now apply (kd_less_ge_none_less K K_pos I).
      * (* both behind the pivot *)
        rewrite (app_nth2 front _ d (n := p)) in * by lia.
        destruct (p - length front) as [|p'] eqn:Ep; [lia|]. cbn [nth] in *.
        apply IHb; [lia|assumption].
Qed.

End Layout.

(** ** The layout of [kd_sort] fixes the pivot *)

Section MedianLayout.
Variable K : nat.

Lemma kd_median_layout_layout (I : nat) (l : list tuple) :
  kd_median_layout K I l -> kd_layout K I l.
Proof.
  induction 1 as [I l Hl|I front pv back Hmid _ Hfront Hback _ IHf _ IHb].
  - now apply kd_layout_leaf.
  - now apply kd_layout_node.
Qed.

Lemma filter_none_kept {A : Type} (f : A -> bool) (l : list A) :
  Forall (fun x => f x = false) l -> filter f l = [].
Proof.
  induction 1 as [|x l Hx _ IH]; cbn [filter]; [reflexivity|].
  now rewrite Hx.
Qed.

Lemma app_same_length {A : Type} (f f' r r' : list A) :
  f ++ r = f' ++ r' -> length f = length f' -> f = f' /\ r = r'.
Proof.
  revert f'. induction f as [|a f IH]; intros [|a' f'] Heq Hlen;
    cbn in Hlen; try lia.
  - now split.
  - cbn [app] in Heq. injection Heq as -> Heq.
    destruct (IH f' Heq ltac:(lia)) as [-> ->]. now split.
Qed.

Lemma app_cons_longer {A : Type} (f f' b b' : list A) (x x' : A) :
  f ++ x :: b = f' ++ x' :: b' -> length f < length f' ->
  exists m, f' = f ++ x :: m /\ b = m ++ x' :: b'.
Proof.
  revert f'. induction f as [|a f IH]; intros f' Heq Hlen.
  - destruct f' as [|a' f']; [cbn in Hlen; lia|].
    cbn [app] in Heq. injection Heq as <- ->. now exists f'.
  - destruct f' as [|a' f']; [cbn in Hlen; lia|].
    cbn [app] in Heq. injection Heq as <- Heq.
    destruct (IH f' Heq ltac:(cbn in Hlen; lia)) as (m & -> & ->).
    now exists m.
Qed.

(** A sequence splits in one way only into a front of smaller tuples, a
    pivot of which enough copies lie behind it to reach [midpos], and a back
    without smaller tuples. *)
Lemma median_split_before (I : nat) (front back front' back' : list tuple)
  (pv pv' : tuple) :
  front ++ pv :: back = front' ++ pv' :: back' ->
  detail.midpos 0 (length (front ++ pv :: back))
  <= length front
     + length (filter (fun y => negb (detail.kd_less K I pv y)) back) ->
  length front' <= detail.midpos 0 (length (front' ++ pv' :: back')) ->
  Forall (fun x => detail.kd_less K I x pv' = true) front' ->
  Forall (fun y => detail.kd_less K I y pv' = false) back' ->
  length front' <= length front.
Proof.
  intros Heq Hcopies Hmid' Hfront' Hback'.
  destruct (le_lt_dec (length front') (length front)) as [|Hlt];
    [assumption|exfalso].
  destruct (app_cons_longer _ _ _ _ _ _ Heq Hlt) as (m & -> & ->).
  rewrite <- Heq in Hmid'.
  assert (Hpv : detail.kd_less K I pv pv' = true).
  { apply (proj1 (Forall_forall _ _) Hfront'). apply in_or_app. right.
    now left. }
  assert (Hnone :
    filter (fun y => negb (detail.kd_less K I pv y)) (pv' :: back') = []).
  { apply filter_none_kept. constructor.
    - now rewrite Hpv.
    - apply Forall_forall. intros y Hy.
      pose proof (proj1 (Forall_forall _ _) Hback' y Hy) as Hge.
      cbv beta in Hge.
      now rewrite (kd_less_lt_ge K I _ _ _ Hpv Hge). }
  rewrite filter_app, Hnone, app_nil_r in Hcopies.
  pose proof (filter_length_le (fun y => negb (detail.kd_less K I pv y)) m).
  rewrite length_app in Hlt, Hmid'. cbn [length] in Hlt, Hmid'.
  rewrite !length_app in Hmid'. cbn [length] in Hmid'.
  rewrite !length_app in Hcopies. cbn [length] in Hcopies.
  rewrite !length_app in Hcopies. cbn [length] in Hcopies.
  rewrite !length_app in Hmid'. cbn [length] in Hmid'. lia.
Qed.

Lemma median_split_unique (I : nat) (front back front' back' : list tuple)
  (pv pv' : tuple) :
  front ++ pv :: back = front' ++ pv' :: back' ->
  length front <= detail.midpos 0 (length (front ++ pv :: back)) ->
  detail.midpos 0 (length (front ++ pv :: back))
  <= length front
     + length (filter (fun y => negb (detail.kd_less K I pv y)) back) ->
  Forall (fun x => detail.kd_less K I x pv = true) front ->
  Forall (fun y => detail.kd_less K I y pv = false) back ->
  length front' <= detail.midpos 0 (length (front' ++ pv' :: back')) ->
  detail.midpos 0 (length (front' ++ pv' :: back'))
  <= length front'
     + length (filter (fun y => negb (detail.kd_less K I pv' y)) back') ->
  Forall (fun x => detail.kd_less K I x pv' = true) front' ->
  Forall (fun y => detail.kd_less K I y pv' = false) back' ->
  front = front' /\ pv = pv' /\ back = back'.
Proof.
  intros Heq Hmid Hcopies Hfront Hback Hmid' Hcopies' Hfront' Hback'.
  pose proof (median_split_before I _ _ _ _ _ _ Heq Hcopies Hmid' Hfront'
                Hback') as H1.
  pose proof (median_split_before I _ _ _ _ _ _ (eq_sym Heq) Hcopies' Hmid
                Hfront Hback) as H2.
  destruct (app_same_length _ _ _ _ Heq ltac:(lia)) as [-> Hrest].
  injection Hrest as -> ->. now repeat split.
Qed.

End MedianLayout.

(** ** The reference implementations meet the postconditions *)

Lemma partition_stable_post : partition_post partition_stable.
Proof.
  intros pred l. cbn [partition_stable fst snd].
  split; [|split; [|split]].
  - induction l as [|a l IH]; [constructor|]. cbn [filter].
    destruct (pred a); cbn [negb app].
    + now constructor.
    + now apply Permutation_cons_app.
  - apply filter_length_le.
  - rewrite firstn_app, Nat.sub_diag, firstn_all, firstn_O, app_nil_r.
    apply Forall_forall. intros x Hx. now apply filter_In in Hx.
  - rewrite skipn_app, Nat.sub_diag, skipn_all, skipn_O.
    apply Forall_forall. intros x Hx. apply filter_In in Hx.
    now apply negb_true_iff.
Qed.

Lemma split_back_spec pred l :
  let p := fst (split_back pred l) in
  let s := snd (split_back pred l) in
  l = p ++ s
  /\ Forall (fun x => pred x = false) s
  /\ (p = [] \/ exists p' y, p = p' ++ [y] /\ pred y = true).
Proof.
  induction l as [|x t IH]; cbn [split_back].
  - cbn. split; [reflexivity|]. split; [constructor|now left].
  - destruct (split_back pred t) as [p s]. cbn [fst snd] in IH.
    destruct IH as (Ht & Hs & Hp).
    destruct p as [|z p].
    + destruct (pred x) eqn:Ex; cbn [fst snd].
      * split; [now rewrite Ht|]. split; [exact Hs|].
        right. exists [], x. now split.
      * split; [now rewrite Ht|]. split; [now constructor|now left].
    + cbn [fst snd]. split; [now rewrite Ht|]. split; [exact Hs|].
      right. destruct Hp as [Hp|(p' & y & Hp & Hy)]; [discriminate|].
      exists (x :: p'), y. split; [|exact Hy].
      cbn [app]. now rewrite <- Hp.
Qed.

Lemma partition_swapping_loop_spec pred fuel :
  forall l, length l <= fuel ->
  let l' := fst (partition_swapping_loop fuel pred l) in
  let p := snd (partition_swapping_loop fuel pred l) in
  Permutation l l'
  /\ p <= length l
  /\ Forall (fun x => pred x = true) (firstn p l')
  /\ Forall (fun x => pred x = false) (skipn p l').
Proof.
  induction fuel as [|fuel IH]; intros l Hfuel.
  - destruct l; [|cbn in Hfuel; lia]. cbn.
    split; [constructor|]. split; [lia|]. split; constructor.
  - destruct l as [|x t].
    { cbn. split; [constructor|]. split; [lia|]. split; constructor. }
    cbn [length] in Hfuel. cbn [partition_swapping_loop].
    destruct (pred x) eqn:Ex.
    + specialize (IH t ltac:(lia)).
      destruct (partition_swapping_loop fuel pred t) as [r k].
      cbn [fst snd] in IH |- *. destruct IH as (Hperm & Hk & Hfront & Hback).
      cbn [firstn skipn length].
      split; [now constructor|]. split; [lia|].
      split; [now constructor|exact Hback].
    + pose proof (split_back_spec pred t) as Hsb.
      destruct (split_back pred t) as [p s]. cbn [fst snd] in Hsb.
      destruct Hsb as (Ht & Hs & Hp).
      destruct (rev p) as [|y between] eqn:Erev.
      * cbn [fst snd firstn skipn]. split; [reflexivity|]. split; [lia|].
        split; [constructor|].
        assert (p = []) as -> by (now rewrite <- (rev_involutive p), Erev).
        cbn [app] in Ht. subst t. now constructor.
      * assert (Ep : p = rev between ++ [y])
          by (now rewrite <- (rev_involutive p), Erev).
        assert (Hy : pred y = true).
        { destruct Hp as [Hp|(p' & y' & Hp & Hy')].
          - subst p. discriminate.
          - rewrite Hp in Ep. apply app_inj_tail in Ep. now destruct Ep as [_ <-]. }
        assert (Hlen : length (rev between) <= fuel).
        { rewrite Ht, Ep, !length_app in Hfuel. cbn [length] in Hfuel. lia. }
        specialize (IH (rev between) Hlen).
        destruct (partition_swapping_loop fuel pred (rev between)) as [r k].
        cbn [fst snd] in IH |- *. destruct IH as (Hperm & Hk & Hfront & Hback).
        assert (Hkr : k <= length r)
          by (now rewrite <- (Permutation_length Hperm)).
        cbn [firstn skipn length].
        split; [|split; [|split]].
        -- rewrite Ht, Ep, <- app_assoc. cbn [app].
           etransitivity;
             [apply perm_skip, Permutation_sym, Permutation_middle|].
           etransitivity; [apply perm_swap|]. apply perm_skip.
           etransitivity; [|apply Permutation_middle].
           apply perm_skip. now apply Permutation_app_tail.
        -- rewrite Ht, Ep, !length_app. cbn [length]. lia.
        -- constructor; [exact Hy|].
           rewrite firstn_app.
           replace (k - length r) with 0 by lia.
           now rewrite firstn_O, app_nil_r.
        -- rewrite skipn_app.
           replace (k - length r) with 0 by lia. rewrite skipn_O.
           apply Forall_app. split; [exact Hback|now constructor].
Qed.

Lemma partition_swapping_post : partition_post partition_swapping.
Proof.
  intros pred l. apply partition_swapping_loop_spec. lia.
Qed.

Section SortBy.
Variable cmp : tuple -> tuple -> bool.
Hypothesis cmp_asym : forall a b, cmp a b = true -> cmp b a = false.
Hypothesis cmp_trans :
  forall a b c, cmp a b = true -> cmp b c = true -> cmp a c = true.

Local Abbreviation not_after := (fun a b => cmp b a = false).

Lemma insert_by_perm x l : Permutation (x :: l) (insert_by cmp x l).
Proof.
  induction l as [|h t IH]; cbn [insert_by]; [reflexivity|].
  destruct (cmp x h); [reflexivity|].
  etransitivity; [apply perm_swap|]. now constructor.
Qed.

Lemma insert_by_sorted x l :
  StronglySorted not_after l -> StronglySorted not_after (insert_by cmp x l).
Proof.
  induction l as [|h t IH]; intros Hl; cbn [insert_by].
  - constructor; constructor.
  - inversion Hl as [|? ? Ht Hh]; subst.
    destruct (cmp x h) eqn:Hxh.
    + constructor; [assumption|].
      constructor; [now apply cmp_asym|].
      eapply Forall_impl; [|exact Hh]. cbv beta. intros y Hy.
      destruct (cmp y x) eqn:Hyx; [|reflexivity].
      rewrite (cmp_trans _ _ _ Hyx Hxh) in Hy. discriminate.
    + constructor; [now apply IH|].
      eapply Permutation_Forall; [apply insert_by_perm|].
      now constructor.
Qed.

Lemma sort_by_perm l : Permutation l (sort_by cmp l).
Proof.
  induction l as [|a l IH]; cbn [sort_by fold_right]; [reflexivity|].
  etransitivity; [|apply insert_by_perm]. now constructor.
Qed.

Lemma sort_by_sorted l : StronglySorted not_after (sort_by cmp l).
Proof.
  induction l as [|a l IH]; cbn [sort_by fold_right]; [constructor|].
  now apply insert_by_sorted.
Qed.

End SortBy.

Lemma StronglySorted_nth {A : Type} (R : A -> A -> Prop) (l : list A) (d : A) :
  StronglySorted R l ->
  forall i j, i < j < length l -> R (nth i l d) (nth j l d).
Proof.
  induction 1 as [|a l Hl IH Ha]; intros i j Hij; cbn [length] in Hij;
    [lia|].
  destruct j as [|j]; [lia|]. destruct i as [|i]; cbn [nth].
  - apply (proj1 (Forall_nth _ _) Ha). lia.
  - apply IH. lia.
Qed.

Lemma nth_element_by_sort_post (K : nat) :
  nth_element_post K nth_element_by_sort.
Proof.
  intros I n l Hn. cbv zeta. unfold nth_element_by_sort.
  pose proof (sort_by_perm (detail.kd_less K I) l) as Hperm.
  pose proof (sort_by_sorted (detail.kd_less K I) (kd_less_asym K I)
                (kd_less_trans K I) l) as Hsorted.
  pose proof (Permutation_length Hperm) as Hlen.
  split; [assumption|]. split.
  - intros i Hi.
    apply (StronglySorted_nth _ _ [] Hsorted i n). unfold tuple in *. lia.
  - intros j Hj.
    apply (StronglySorted_nth _ _ [] Hsorted n j). unfold tuple in *. lia.
Qed.

Lemma nth_element_lazy_post (K : nat) :
  nth_element_post K nth_element_lazy.
Proof.
  intros I n l Hn. unfold nth_element_lazy.
  destruct (selected (detail.kd_less K I) n l) eqn:Esel;
    [|apply (nth_element_by_sort_post K I n l Hn)].
  cbv zeta. unfold selected in Esel.
  apply andb_true_iff in Esel. destruct Esel as [Hfront Hback].
  rewrite forallb_forall in Hfront, Hback.
  split; [reflexivity|]. split.
  - intros i Hi. apply negb_true_iff, Hfront.
    assert (Hnth : nth i (firstn n l) [] = nth i l []).
    { rewrite nth_firstn. now apply Nat.ltb_lt in Hi as ->. }
    rewrite <- Hnth. apply nth_In. rewrite length_firstn. unfold tuple in *. lia.
  - intros j Hj. apply negb_true_iff, Hback.
    replace j with (S n + (j - S n)) by lia.
    rewrite <- nth_skipn. apply nth_In. rewrite length_skipn.
    unfold tuple in *. lia.
Qed.

(** ** The re-partitioning step of [kd_sort] *)

Lemma Forall_firstn_nth {A : Type} (P : A -> Prop) (p : nat) (l : list A)
  (d : A) :
  Forall P (firstn p l) -> forall i, i < p -> i < length l -> P (nth i l d).
Proof.
  intros H i Hi Hl.
  rewrite <- (firstn_skipn p l), app_nth1
    by (rewrite length_firstn; lia).
  apply (proj1 (Forall_nth _ _) H). rewrite length_firstn. lia.
Qed.

Lemma Forall_skipn_nth {A : Type} (P : A -> Prop) (p : nat) (l : list A)
  (d : A) :
  Forall P (skipn p l) -> forall i, p <= i < length l -> P (nth i l d).
Proof.
  intros H i Hi.
  rewrite <- (firstn_skipn p l), app_nth2
    by (rewrite length_firstn; lia).
  rewrite length_firstn, Nat.min_l by lia.
  apply (proj1 (Forall_nth _ _) H). rewrite length_skipn. lia.
Qed.

Lemma nth_firstn_lt {A : Type} (p i : nat) (l : list A) (d : A) :
  i < p -> nth i (firstn p l) d = nth i l d.
Proof.
  revert p i. induction l as [|a l IH]; intros p i Hi.
  - rewrite firstn_nil. reflexivity.
  - destruct p as [|p]; [lia|]. destruct i as [|i]; [reflexivity|].
    cbn [firstn nth]. apply IH. lia.
Qed.

Lemma nth_skipn_add {A : Type} (p i : nat) (l : list A) (d : A) :
  nth i (skipn p l) d = nth (p + i) l d.
Proof.
  revert l. induction p as [|p IH]; intros l; [reflexivity|].
  destruct l as [|a l]; [now destruct i|]. cbn [skipn Nat.add nth]. apply IH.
Qed.

Section Repartition.
Variable K : nat.
Variable partition : (tuple -> bool) -> list tuple -> list tuple * nat.
Hypothesis partition_ok : partition_post partition.

Lemma kd_repartition_spec (I pivot : nat) (l1 : list tuple) :
  pivot < length l1 ->
  (forall i, i < pivot ->
     detail.kd_less K I (nth pivot l1 []) (nth i l1 []) = false) ->
  let pv := nth pivot l1 [] in
  let l2 := fst (detail.kd_repartition K partition I pivot l1) in
  let p := snd (detail.kd_repartition K partition I pivot l1) in
  length l2 = length l1
  /\ p <= pivot
  /\ Permutation (firstn pivot l1) (firstn pivot l2)
  /\ skipn pivot l2 = skipn pivot l1
  /\ (forall i, i < p -> detail.kd_less K I (nth i l2 []) pv = true)
  /\ (forall i, p <= i <= pivot ->
        detail.kd_less K I (nth i l2 []) pv = false
        /\ detail.kd_less K I pv (nth i l2 []) = false).
Proof.
  intros Hpivot Hsel pv. unfold detail.kd_repartition. fold pv.
  pose proof (partition_ok (fun x => detail.kd_less K I x pv)
                (firstn pivot l1)) as Hpost.
  destruct (partition (fun x => detail.kd_less K I x pv) (firstn pivot l1))
    as [front p] eqn:E.
  cbn [fst snd] in *. cbv zeta in Hpost.
  destruct Hpost as (Hperm & Hp & Htrue & Hfalse).
  assert (Hlen0 : length (firstn pivot l1) = pivot)
    by (rewrite length_firstn; lia).
  assert (Hlen : length front = pivot)
    by (rewrite <- (Permutation_length Hperm); exact Hlen0).
  assert (Hfirst : firstn pivot (front ++ skipn pivot l1) = front).
  { rewrite firstn_app, Hlen, Nat.sub_diag, firstn_O, app_nil_r.
    rewrite <- Hlen. apply firstn_all. }
  assert (Hskip : skipn pivot (front ++ skipn pivot l1) = skipn pivot l1).
  { rewrite skipn_app, Hlen, Nat.sub_diag, skipn_O.
    rewrite <- Hlen at 1. now rewrite skipn_all. }
  split; [|split; [|split; [|split; [|split]]]].
  - rewrite length_app, length_skipn. lia.
  - lia.
  - now rewrite Hfirst.
  - exact Hskip.
  - intros i Hi. rewrite app_nth1 by lia.
    apply (Forall_firstn_nth _ p front [] Htrue); lia.
  - intros i Hi.
    destruct (Nat.eq_dec i pivot) as [->|Hne].
    + rewrite app_nth2, Hlen, Nat.sub_diag by lia.
      rewrite nth_skipn_add, Nat.add_0_r. fold pv.
      split; apply kd_less_irrefl.
    + rewrite app_nth1 by lia. split.
      * apply (Forall_skipn_nth _ p front [] Hfalse). lia.
      * assert (Hin : In (nth i front []) (firstn pivot l1)).
        { apply Permutation_in with front; [now symmetry|].
          apply nth_In. lia. }
        destruct (In_nth _ _ [] Hin) as (k & Hk & Hnth).
        rewrite length_firstn in Hk.
        rewrite <- Hnth, nth_firstn_lt by lia.
        apply Hsel. lia.
Qed.

(** ** [kd_sort] *)

Variable nth_element :
  (tuple -> tuple -> bool) -> nat -> list tuple -> list tuple.
Hypothesis nth_element_ok : nth_element_post K nth_element.
Hypothesis K_pos : 0 < K.

Lemma firstn_1_skipn {A : Type} (p : nat) (l : list A) (d : A) :
  p < length l -> firstn 1 (skipn p l) = [nth p l d].
Proof.
  revert l. induction p as [|p IH]; intros l Hp;
    (destruct l as [|a l]; cbn [length] in Hp; [lia|]).
  - reflexivity.
  - cbn [skipn nth]. apply IH. lia.
Qed.

Lemma distinct_tuples_perm (l l' : list tuple) :
  Permutation l l' -> distinct_tuples K l -> distinct_tuples K l'.
Proof.
  intros Hperm. apply Permutation_NoDup. now apply Permutation_map.
Qed.

Lemma distinct_tuples_firstn (p : nat) (l : list tuple) :
  distinct_tuples K l -> distinct_tuples K (firstn p l).
Proof.
  unfold distinct_tuples. rewrite <- (firstn_skipn p l) at 1.
  rewrite map_app. apply NoDup_app_remove_r.
Qed.

Lemma distinct_tuples_skipn (p : nat) (l : list tuple) :
  distinct_tuples K l -> distinct_tuples K (skipn p l).
Proof.
  unfold distinct_tuples. rewrite <- (firstn_skipn p l) at 1.
  rewrite map_app. apply NoDup_app_remove_l.
Qed.

Lemma kd_less_neither_components (I : nat) (a b : tuple) :
  I < K ->
  detail.kd_less K I a b = false -> detail.kd_less K I b a = false ->
  components K a = components K b.
Proof.
  intros HI Hab Hba. unfold components. apply map_ext_in.
  intros j Hj. apply in_seq in Hj.
  apply (kd_less__neither K (K - 1) I a b Hab Hba).
  apply kd_axes_cover; [assumption|assumption|lia].
Qed.

Lemma kd_sort_at (fuel I : nat) (l : list tuple) :
  length l <= fuel -> I < K ->
  Permutation l (detail.kd_sort K nth_element partition fuel I l)
  /\ kd_layout K I (detail.kd_sort K nth_element partition fuel I l)
  /\ (distinct_tuples K l ->
      kd_ordered_at K fuel I (detail.kd_sort K nth_element partition fuel I l)
      = true).
Proof.
  revert I l. induction fuel as [|fuel IH]; intros I l Hfuel HI;
    cbn [detail.kd_sort].
  - split; [reflexivity|]. split; [apply kd_layout_leaf; lia|reflexivity].
  - destruct (Nat.ltb_spec 1 (length l)) as [Hbig|Hsmall].
    2:{ split; [reflexivity|]. split; [now apply kd_layout_leaf|].
        intros _. cbn [kd_ordered_at].
        destruct (Nat.ltb_spec 1 (length l)); [lia|reflexivity]. }
    unfold detail.kd_sort_level.
    set (mid := detail.midpos 0 (length l)).
    assert (Hmid : mid < length l) by (apply (midpos_lt 0 (length l)); lia).
    destruct (nth_element_ok I mid l Hmid) as (Hperm1 & Hbefore & Hafter).
    set (l1 := nth_element (detail.kd_less K I) mid l) in *.
    assert (Hlen1 : length l1 = length l)
      by (symmetry; apply Permutation_length, Hperm1).
    destruct (kd_repartition_spec I mid l1 ltac:(lia) Hbefore)
      as (Hlen2 & Hp & Hperm2 & Hskip & Hlt & Heq).
    destruct (detail.kd_repartition K partition I mid l1) as [l2 p].
    cbn [fst snd] in *.
    set (pv := nth mid l1 []) in *.
    set (pv' := nth p l2 []).
    assert (Hperm12 : Permutation l1 l2).
    { rewrite <- (firstn_skipn mid l1), <- (firstn_skipn mid l2), Hskip.
      now apply Permutation_app_tail. }
    assert (Hsame : forall j, mid <= j -> nth j l2 [] = nth j l1 []).
    { intros j Hj. replace j with (mid + (j - mid)) by lia.
      now rewrite <- !nth_skipn_add, Hskip. }
    assert (Hbehind : forall j, p < j < length l2 ->
              detail.kd_less K I (nth j l2 []) pv = false).
    { intros j Hj. destruct (le_lt_dec j mid) as [Hle|Hgt].
      - apply Heq. lia.
      - rewrite Hsame by lia. apply Hafter. lia. }
    destruct (Heq p ltac:(lia)) as [Hpv1 Hpv2]. fold pv' in Hpv1, Hpv2.
    set (J := detail.incr_wrap K I).
    assert (HJ : J < K) by (apply incr_wrap_lt; assumption).
    destruct (IH J (firstn p l2) ltac:(rewrite length_firstn; lia) HJ)
      as (HpermL & HlayL & HordL).
    destruct (IH J (skipn (S p) l2) ltac:(rewrite length_skipn; lia) HJ)
      as (HpermR & HlayR & HordR).
    set (A := detail.kd_sort K nth_element partition fuel J (firstn p l2))
      in *.
    set (B := detail.kd_sort K nth_element partition fuel J (skipn (S p) l2))
      in *.
    assert (HlenA : length A = p).
    { rewrite <- (Permutation_length HpermL), length_firstn. lia. }
    assert (HlenB : length B = length l - S p).
    { rewrite <- (Permutation_length HpermR), length_skipn. lia. }
    assert (HA : Forall (fun x => detail.kd_less K I x pv' = true) A).
    { eapply Permutation_Forall; [exact HpermL|].
      apply Forall_forall. intros x Hx.
      destruct (In_nth _ _ [] Hx) as (i & Hi & <-).
      rewrite length_firstn in Hi. rewrite nth_firstn_lt by lia.
      apply kd_less_lt_ge with pv; [apply Hlt; lia|assumption]. }
    assert (HB : Forall (fun y => detail.kd_less K I y pv' = false) B).
    { eapply Permutation_Forall; [exact HpermR|].
      apply Forall_forall. intros y Hy.
      destruct (In_nth _ _ [] Hy) as (i & Hi & <-).
      rewrite length_skipn in Hi. rewrite nth_skipn_add. cbv beta.
      apply not_true_is_false. intros Hy'.
      exact (eq_true_false_abs _
               (kd_less_lt_ge K I _ _ _ Hy' Hpv2)
               (Hbehind (S p + i) ltac:(lia))). }
    rewrite (firstn_1_skipn p l2 []) by lia. fold pv'. cbn [app].
    split; [|split].
    + etransitivity; [exact Hperm1|]. etransitivity; [exact Hperm12|].
      rewrite (split_at_nth l2 p []) at 1 by lia. fold pv'.
      apply Permutation_app; [assumption|]. now constructor.
    + apply kd_layout_node; try assumption.
      rewrite length_app. cbn [length]. rewrite HlenA, HlenB.
      replace (p + S (length l - S p)) with (length l) by lia.
      fold mid. lia.
    + intros Hdist.
      assert (Hdist2 : distinct_tuples K l2).
      { apply distinct_tuples_perm with l; [|assumption].
        etransitivity; eassumption. }
      assert (Hpm : p = mid).
      { destruct (Nat.eq_dec p mid) as [|Hne]; [assumption|exfalso].
        apply Hne.
        apply (proj1 (NoDup_nth (map (components K) l2) (components K []))
                 Hdist2); rewrite ?length_map; try lia.
        rewrite !map_nth. fold pv'. rewrite (Hsame mid) by lia. fold pv.
        now apply kd_less_neither_components with I. }
      cbn [kd_ordered_at].
      rewrite length_app. cbn [length]. rewrite HlenA, HlenB.
      replace (p + S (length l - S p)) with (length l) by lia.
      destruct (Nat.ltb_spec 1 (length l)) as [_|]; [|lia].
      fold mid. rewrite <- Hpm.
      rewrite app_nth2, HlenA, Nat.sub_diag by lia. cbn [nth].
      assert (HfA : firstn p (A ++ pv' :: B) = A).
      { rewrite firstn_app, HlenA, Nat.sub_diag, firstn_O, app_nil_r.
        rewrite <- HlenA. apply firstn_all. }
      assert (HsB : skipn (S p) (A ++ pv' :: B) = B).
      { rewrite skipn_app, HlenA, (skipn_all2 A) by lia.
        now replace (S p - p) with 1 by lia. }
      rewrite HfA, HsB.
      rewrite !andb_true_iff. repeat split.
      * apply forallb_forall. exact (proj1 (Forall_forall _ _) HA).
      * apply forallb_forall. intros y Hy. apply negb_true_iff.
        exact (proj1 (Forall_forall _ _) HB y Hy).
      * apply HordL. now apply distinct_tuples_firstn.
      * apply HordR. now apply distinct_tuples_skipn.
Qed.

(** The tuples that stay between the returned offset and [midpos] are
    copies of the pivot, wherever the sort of the back range moves them. *)
Lemma kd_sort_median_at (fuel I : nat) (l : list tuple) :
  length l <= fuel -> I < K ->
  kd_median_layout K I (detail.kd_sort K nth_element partition fuel I l).
Proof.
  revert I l. induction fuel as [|fuel IH]; intros I l Hfuel HI;
    cbn [detail.kd_sort].
  - apply kd_median_layout_leaf; lia.
  - destruct (Nat.ltb_spec 1 (length l)) as [Hbig|Hsmall];
      [|now apply kd_median_layout_leaf].
    unfold detail.kd_sort_level.
    set (mid := detail.midpos 0 (length l)).
    assert (Hmid : mid < length l) by (apply (midpos_lt 0 (length l)); lia).
    destruct (nth_element_ok I mid l Hmid) as (Hperm1 & Hbefore & Hafter).
    set (l1 := nth_element (detail.kd_less K I) mid l) in *.
    assert (Hlen1 : length l1 = length l)
      by (symmetry; apply Permutation_length, Hperm1).
    destruct (kd_repartition_spec I mid l1 ltac:(lia) Hbefore)
      as (Hlen2 & Hp & Hperm2 & Hskip & Hlt & Heq).
    destruct (detail.kd_repartition K partition I mid l1) as [l2 p].
    cbn [fst snd] in *.
    set (pv := nth mid l1 []) in *.
    set (pv' := nth p l2 []).
    assert (Hsame : forall j, mid <= j -> nth j l2 [] = nth j l1 []).
    { intros j Hj. replace j with (mid + (j - mid)) by lia.
      now rewrite <- !nth_skipn_add, Hskip. }
    assert (Hbehind : forall j, p < j < length l2 ->
              detail.kd_less K I (nth j l2 []) pv = false).
    { intros j Hj. destruct (le_lt_dec j mid) as [Hle|Hgt].
      - apply Heq. lia.
      - rewrite Hsame by lia. apply Hafter. lia. }
    destruct (Heq p ltac:(lia)) as [Hpv1 Hpv2]. fold pv' in Hpv1, Hpv2.
    set (J := detail.incr_wrap K I).
    assert (HJ : J < K) by (apply incr_wrap_lt; assumption).
    pose proof (IH J (firstn p l2) ltac:(rewrite length_firstn; lia) HJ)
      as HlayL.
    pose proof (IH J (skipn (S p) l2) ltac:(rewrite length_skipn; lia) HJ)
      as HlayR.
    destruct (kd_sort_at fuel J (firstn p l2)
                ltac:(rewrite length_firstn; lia) HJ) as (HpermL & _ & _).
    destruct (kd_sort_at fuel J (skipn (S p) l2)
                ltac:(rewrite length_skipn; lia) HJ) as (HpermR & _ & _).
    set (A := detail.kd_sort K nth_element partition fuel J (firstn p l2))
      in *.
    set (B := detail.kd_sort K nth_element partition fuel J (skipn (S p) l2))
      in *.
    assert (HlenA : length A = p).
    { rewrite <- (Permutation_length HpermL), length_firstn. lia. }
    assert (HlenB : length B = length l - S p).
    { rewrite <- (Permutation_length HpermR), length_skipn. lia. }
    assert (HA : Forall (fun x => detail.kd_less K I x pv' = true) A).
    { eapply Permutation_Forall; [exact HpermL|].
      apply Forall_forall. intros x Hx.
      destruct (In_nth _ _ [] Hx) as (i & Hi & <-).
      rewrite length_firstn in Hi. rewrite nth_firstn_lt by lia.
      apply kd_less_lt_ge with pv; [apply Hlt; lia|assumption]. }
    assert (HB : Forall (fun y => detail.kd_less K I y pv' = false) B).
    { eapply Permutation_Forall; [exact HpermR|].
      apply Forall_forall. intros y Hy.
      destruct (In_nth _ _ [] Hy) as (i & Hi & <-).
      rewrite length_skipn in Hi. rewrite nth_skipn_add. cbv beta.
      apply not_true_is_false. intros Hy'.
      exact (eq_true_false_abs _
               (kd_less_lt_ge K I _ _ _ Hy' Hpv2)
               (Hbehind (S p + i) ltac:(lia))). }
    (* the copies of the pivot behind it *)
    set (same := fun y => negb (detail.kd_less K I pv' y)).
    assert (Hcopies : mid - p <= length (filter same B)).
    { rewrite <- (Permutation_length
                    (filter_of_permutation same _ _ HpermR)).
      rewrite <- (firstn_skipn (mid - p) (skipn (S p) l2)), filter_app,
        length_app.
      assert (Hall : Forall (fun y => same y = true)
                       (firstn (mid - p) (skipn (S p) l2))).
      { apply Forall_forall. intros y Hy.
        destruct (In_nth _ _ [] Hy) as (i & Hi & <-).
        rewrite length_firstn, length_skipn in Hi.
        rewrite nth_firstn_lt, nth_skipn_add by lia.
        unfold same. apply negb_true_iff, not_true_is_false. intros Hy'.
        destruct (Heq (S p + i) ltac:(lia)) as [_ Hge].
        exact (eq_true_false_abs _
                 (kd_less_lt_ge K I _ _ _ Hy' Hge) Hpv1). }
      rewrite (filter_everything same _ Hall), length_firstn, length_skipn.
      lia. }
    rewrite (firstn_1_skipn p l2 []) by lia. fold pv'. cbn [app].
    assert (Hwhole : length (A ++ pv' :: B) = length l).
    { rewrite length_app. cbn [length]. rewrite HlenA, HlenB. lia. }
    apply kd_median_layout_node; try assumption.
    + rewrite Hwhole. fold mid. lia.
    + rewrite Hwhole. fold mid. fold same. lia.
Qed.

End Repartition.

(** C8.  At a level of [kd_sort] with more than one element, after the
    median selection at [midpos] the re-partitioning of the front permutes
    it and leaves the rest alone; the tuples [kd_less<I>] than the selected
    pivot value come first, followed up to [midpos] by tuples equal to it in
    this order, and the offset returned is the first one whose tuple is not
    [kd_less<I>] than the pivot value.  The order inside the two groups is
    whatever [std::partition] leaves. *)
Theorem kd_sort_level_split
  (K : nat)
  (nth_element : (tuple -> tuple -> bool) -> nat -> list tuple -> list tuple)
  (partition : (tuple -> bool) -> list tuple -> list tuple * nat)
  (I : nat) (l : list tuple) :
  nth_element_post K nth_element ->
  partition_post partition ->
  1 < length l ->
  let mid := detail.midpos 0 (length l) in
  let l1 := nth_element (detail.kd_less K I) mid l in
  let pv := nth mid l1 [] in
  let l2 := fst (detail.kd_sort_level K nth_element partition I l) in
  let p := snd (detail.kd_sort_level K nth_element partition I l) in
  p <= mid
  /\ Permutation (firstn mid l1) (firstn mid l2)
  /\ skipn mid l2 = skipn mid l1
  /\ (forall i, i < p -> detail.kd_less K I (nth i l2 []) pv = true)
  /\ (forall i, p <= i <= mid ->
        detail.kd_less K I (nth i l2 []) pv = false
        /\ detail.kd_less K I pv (nth i l2 []) = false).
Proof.
  intros Hnth Hpart Hlen mid l1 pv l2 p.
  assert (Hmid : mid < length l) by (apply (midpos_lt 0 (length l)); lia).
  destruct (Hnth I mid l Hmid) as (Hperm & Hbefore & _).
  fold l1 in Hperm, Hbefore.
  assert (Hmid1 : mid < length l1)
    by (rewrite <- (Permutation_length Hperm); exact Hmid).
  destruct (kd_repartition_spec K partition Hpart I mid l1 Hmid1 Hbefore)
    as (_ & Hp & Hperm2 & Hskip & Hlt & Heq).
  unfold l2, p, detail.kd_sort_level. fold mid. fold l1.
  repeat split; try assumption; apply Heq; assumption.
Qed.

Lemma kd_sort_level_split_witness :
  let l := [[2]; [1]; [3]; [4]]%Z in
  let l2 := fst (detail.kd_sort_level 1 nth_element_by_sort
                   partition_swapping 0 l) in
  let p := snd (detail.kd_sort_level 1 nth_element_by_sort
                  partition_swapping 0 l) in
  nth_element_post 1 nth_element_by_sort
  /\ partition_post partition_swapping
  /\ 1 < length l
  /\ p <= 2
  /\ (forall i, i < p -> detail.kd_less 1 0 (nth i l2 []) [3]%Z = true).
Proof.
  pose proof (kd_sort_level_split 1 nth_element_by_sort partition_swapping
                0 [[2]; [1]; [3]; [4]]%Z (nth_element_by_sort_post 1)
                partition_swapping_post ltac:(cbn; lia)) as H.
  cbv zeta in H. destruct H as (Hp & _ & _ & Hlt & _).
  split; [apply nth_element_by_sort_post|].
  split; [apply partition_swapping_post|].
  split; [cbn; lia|].
  split; [exact Hp | exact Hlt].
Defined.

(** In [[3]; [1]; [2]; [3]; [4]; [5]] the median position 3 is selected as
    the sequence stands: nothing before it is larger than [3] and nothing
    behind it is smaller.  The front [[3]; [1]; [2]] is then partitioned by
    "smaller than [3]": [first] stops at [3], [last] at [2], the two are
    swapped, and the front becomes [[2]; [1]; [3]].  A stable split would
    give [[1]; [2]; [3]]: the relative order of the tuples smaller than the
    pivot value is not kept. *)
Lemma kd_sort_level_not_stable :
  let l := [[3]; [1]; [2]; [3]; [4]; [5]]%Z in
  let mid := detail.midpos 0 (length l) in
  let l1 := nth_element_lazy (detail.kd_less 1 0) mid l in
  let pv := nth mid l1 [] in
  nth_element_post 1 nth_element_lazy
  /\ partition_post partition_swapping
  /\ mid = 3 /\ l1 = l /\ pv = [3]%Z
  /\ stable_split (fun x => detail.kd_less 1 0 x pv) (firstn mid l1)
       ++ skipn mid l1 = [[1]; [2]; [3]; [3]; [4]; [5]]%Z
  /\ detail.kd_sort_level 1 nth_element_lazy partition_swapping 0 l
     = ([[2]; [1]; [3]; [3]; [4]; [5]]%Z, 2)
  /\ fst (detail.kd_sort_level 1 nth_element_lazy partition_swapping 0 l)
     <> stable_split (fun x => detail.kd_less 1 0 x pv) (firstn mid l1)
          ++ skipn mid l1.
Proof.
  split; [apply nth_element_lazy_post|].
  split; [apply partition_swapping_post|].
  cbv. repeat split. discriminate.
Qed.

(** C5.  After [kd_sort] the sequence is a rearrangement of the input laid
    out as follows at every level, over [[first, last)] at axis [I].  There
    is a pivot position [p], at or before [midpos(first, last)], such that
    every tuple in [[first, p)] is [kd_less<I>] than the one at [p], no
    tuple in [(p, last)] is, and at least [midpos(first, last) - p] of the
    tuples in [(p, last)] are equal to the one at [p] in this order; both
    parts are laid out in the same way at the next axis.  So the tuple at
    [p] is a median of its range, [p] is the number of tuples of the range
    smaller than it, and [p] is [midpos(first, last)] unless a copy of the
    pivot lies behind it.  When no two tuples of the input are the same
    point this is the k-d order, with [p] at [midpos] at every level. *)
Theorem kd_sort_layout
  (K : nat)
  (nth_element : (tuple -> tuple -> bool) -> nat -> list tuple -> list tuple)
  (partition : (tuple -> bool) -> list tuple -> list tuple * nat)
  (l : list tuple) :
  0 < K ->
  nth_element_post K nth_element ->
  partition_post partition ->
  Permutation l (kd_sort K nth_element partition l)
  /\ kd_median_layout K 0 (kd_sort K nth_element partition l)
  /\ (distinct_tuples K l ->
      kd_ordered K (kd_sort K nth_element partition l) = true).
Proof.
  intros HK Hnth Hpart. unfold kd_sort, kd_ordered.
  destruct (kd_sort_at K partition Hpart nth_element Hnth HK (length l) 0 l
              ltac:(lia) HK) as (Hperm & _ & Hord).
  split; [assumption|]. split.
  - apply kd_sort_median_at; try assumption. lia.
  - intros Hdist. rewrite <- (Permutation_length Hperm). now apply Hord.
Qed.

Lemma kd_sort_layout_witness :
  let l := [[5; 5]; [9; 0]; [2; 7]; [8; 1]; [5; 4]]%Z in
  let d := [[5; 5]; [5; 5]; [9; 0]]%Z in
  0 < 2
  /\ nth_element_post 2 nth_element_by_sort
  /\ partition_post partition_stable
  /\ distinct_tuples 2 l
  /\ Permutation l (kd_sort 2 nth_element_by_sort partition_stable l)
  /\ kd_median_layout 2 0 (kd_sort 2 nth_element_by_sort partition_stable l)
  /\ kd_ordered 2 (kd_sort 2 nth_element_by_sort partition_stable l) = true
  /\ kd_median_layout 2 0 (kd_sort 2 nth_element_by_sort partition_stable d)
  /\ kd_ordered 2 (kd_sort 2 nth_element_by_sort partition_stable d) = false.
Proof.
  assert (Hdist : distinct_tuples 2 [[5; 5]; [9; 0]; [2; 7]; [8; 1]; [5; 4]]%Z).
  { unfold distinct_tuples. cbn.
    repeat (constructor; [cbn; intuition discriminate|]). constructor. }
  split; [lia|].
  split; [apply nth_element_by_sort_post|].
  split; [apply partition_stable_post|].
  split; [exact Hdist|].
  pose proof (kd_sort_layout 2 nth_element_by_sort partition_stable
                [[5; 5]; [9; 0]; [2; 7]; [8; 1]; [5; 4]]%Z ltac:(lia)
                (nth_element_by_sort_post 2) partition_stable_post) as H.
  destruct H as (H1 & H2 & H3).
  pose proof (kd_sort_layout 2 nth_element_by_sort partition_stable
                [[5; 5]; [5; 5]; [9; 0]]%Z ltac:(lia)
                (nth_element_by_sort_post 2) partition_stable_post) as H'.
  destruct H' as (_ & H2' & _).
  split; [exact H1|]. split; [exact H2|]. split; [exact (H3 Hdist)|].
  split; [exact H2'|reflexivity].
Defined.

(** Sorting [[(5,5); (5,5); (9,0)]] leaves the pivot of the top level at
    offset [0]; at [midpos], offset [1], lies [(9,0)], and the tuple behind
    it is smaller on axis [0]. *)
Lemma kd_sort_pivot_before_midpos :
  let l := [[5; 5]; [5; 5]; [9; 0]]%Z in
  let s := kd_sort 2 nth_element_by_sort partition_stable l in
  nth_element_post 2 nth_element_by_sort
  /\ partition_post partition_stable
  /\ s = [[5; 5]; [9; 0]; [5; 5]]%Z
  /\ detail.midpos 0 (length s) = 1
  /\ detail.less_nth 0 (nth 2 s []) (nth 1 s []) = true
  /\ detail.kd_less 2 0 (nth 2 s []) (nth 1 s []) = true
  /\ kd_ordered 2 s = false.
Proof.
  split; [apply nth_element_by_sort_post|].
  split; [apply partition_stable_post|].
  cbv. repeat split.
Qed.

(** ** Where [find_pivot] lands *)

Section Descent.
Variables (K : nat) (data : list tuple) (past_end : tuple).

Lemma partition_point_loop_bounds (pred : tuple -> bool)
  (fuel first len : nat) :
  let p := value_of (std.partition_point_loop data past_end fuel first len
                       pred) in
  first <= p <= first + len.
Proof.
  revert first len.
  induction fuel as [|fuel IH]; intros first len;
    cbn [std.partition_point_loop].
  - rewrite value_of_ret. lia.
  - destruct (Nat.eqb_spec len 0) as [->|Hlen]; [rewrite value_of_ret; lia|].
    rewrite value_of_bind.
    assert (len / 2 < len) by (apply Nat.div_lt; lia).
    destruct (pred _).
    + specialize (IH (S (first + len / 2)) (len - len / 2 - 1)).
      cbv zeta in IH. lia.
    + specialize (IH first (len / 2)). cbv zeta in IH. lia.
Qed.

Lemma find_pivot_bounds (I first last : nat) :
  first < last ->
  first <= value_of (detail.find_pivot data past_end I first last) < last.
Proof.
  intros H. unfold detail.find_pivot, std.partition_point.
  rewrite value_of_bind.
  pose proof (midpos_lt first last H) as Hm.
  pose proof (partition_point_loop_bounds
                (fun x => detail.less_nth I x
                            (value_of (deref data past_end
                                         (detail.midpos first last))))
                (detail.midpos first last - first) first
                (detail.midpos first last - first)) as Hp.
  cbv zeta in Hp. lia.
Qed.

(** ** [kd_lower_bound] *)

Variable value : tuple.

Local Abbreviation hit := (fun j => detail.none_less K (nth j data past_end) value).

Lemma kd_lower_bound_leftmost :
  undominated K data ->
  forall fuel I first last,
    last - first <= fuel -> first <= last <= length data ->
    let p := value_of (detail.kd_lower_bound K data past_end fuel I first last
                         value) in
    first <= p <= last
    /\ (p < last -> hit p = true)
    /\ (forall j, first <= j < p -> hit j = false).
Proof.
  intros Hund.
  assert (Hbase : forall first last,
    last - first <= 1 -> first <= last ->
    let p := value_of (x <- deref data past_end first ;;
                       ret (if detail.none_less K x value
                            then first else last)) in
    first <= p <= last
    /\ (p < last -> hit p = true)
    /\ (forall j, first <= j < p -> hit j = false)).
  { intros first last H1 H2.
    rewrite value_of_bind, value_of_ret, value_of_deref. cbv zeta.
    destruct (detail.none_less K (nth first data past_end) value) eqn:E.
    - repeat split; try lia. intros _. exact E.
    - repeat split; try lia. intros j Hj.
      now replace j with first by lia. }
  induction fuel as [|fuel IH]; intros I first last Hfuel Hrange;
    cbn [detail.kd_lower_bound].
  - apply Hbase; lia.
  - destruct (Nat.ltb_spec 1 (last - first)) as [Hbig|Hsmall];
      [|apply Hbase; lia].
    rewrite !value_of_bind.
    pose proof (find_pivot_bounds I first last ltac:(lia)) as Hpiv.
    set (pivot := value_of (detail.find_pivot data past_end I first last))
      in *.
    rewrite value_of_deref.
    pose proof (IH (detail.incr_wrap K I) first pivot ltac:(lia) ltac:(lia))
      as HL.
    pose proof (IH (detail.incr_wrap K I) (S pivot) last ltac:(lia)
                  ltac:(lia)) as HR.
    cbv zeta in HL, HR.
    set (L := value_of (detail.kd_lower_bound K data past_end fuel
                          (detail.incr_wrap K I) first pivot value)) in *.
    set (R := value_of (detail.kd_lower_bound K data past_end fuel
                          (detail.incr_wrap K I) (S pivot) last value)) in *.
    destruct HL as (HL1 & HL2 & HL3). destruct HR as (HR1 & HR2 & HR3).
    destruct (detail.none_less K (nth pivot data past_end) value) eqn:Epv.
    + (* the pivot qualifies: the answer is in the left part or is the pivot *)
      cbv zeta. fold L. repeat split; try lia.
      * intros _. destruct (Nat.eq_dec L pivot) as [->|Hne];
          [exact Epv|apply HL2; lia].
      * assumption.
    + destruct (detail.all_less K (nth pivot data past_end) value) eqn:Eall.
      * (* nothing before the pivot qualifies *)
        cbv zeta. fold R. repeat split; try lia; [assumption|].
        intros j Hj.
        destruct (Nat.lt_trichotomy j pivot) as [Hlt|[->|Hgt]].
        -- apply not_true_is_false. intros Hj'.
           destruct (all_less_none_less_absurd K _ _ _ Eall Hj')
             as [Habove Hnot].
           rewrite (Hund j pivot past_end ltac:(lia) Habove) in Hnot.
           discriminate.
        -- exact Epv.
        -- apply HR3. lia.
      * rewrite !value_of_bind, value_of_deref. fold L.
        destruct (detail.none_less K (nth L data past_end) value) eqn:EL.
        -- rewrite value_of_ret. cbv zeta.
           repeat split; try lia; [intros _; exact EL|assumption].
        -- assert (L = pivot).
           { destruct (Nat.eq_dec L pivot) as [|Hne]; [assumption|].
             specialize (HL2 ltac:(lia)). cbv beta in HL2. congruence. }
           subst L.
           rewrite !value_of_bind, value_of_deref. fold R.
           assert (Hnone : forall j, first <= j < R -> hit j = false).
           { intros j Hj.
             destruct (Nat.lt_trichotomy j pivot) as [Hlt|[->|Hgt]].
             - apply HL3. lia.
             - exact Epv.
             - apply HR3. lia. }
           destruct (detail.none_less K (nth R data past_end) value) eqn:ER.
           ++ rewrite value_of_ret. cbv zeta.
              repeat split; try lia; [intros _; exact ER|assumption].
           ++ assert (R = last).
              { destruct (Nat.eq_dec R last) as [|Hne]; [assumption|].
                specialize (HR2 ltac:(lia)). cbv beta in HR2. congruence. }
              rewrite value_of_ret. cbv zeta.
              repeat split; try lia. intros j Hj. apply Hnone. lia.
Qed.

End Descent.

(** The search over the whole sequence, from the one consequence of the
    layout it needs. *)
Lemma kd_lower_bound_first_hit
  (K : nat) (data : list tuple) (past_end value : tuple) :
  undominated K data ->
  let last := length data in
  let p := value_of (kd_lower_bound K data past_end 0 last value) in
  p <= last
  /\ (p = last \/ detail.none_less K (nth p data past_end) value = true)
  /\ (forall j, j < p ->
        detail.none_less K (nth j data past_end) value = false).
Proof.
  intros Hund last p.
  destruct (kd_lower_bound_leftmost K data past_end value Hund
              (last - 0) 0 0 last ltac:(lia) ltac:(unfold last; lia))
    as (H1 & H2 & H3).
  fold (kd_lower_bound K data past_end 0 last value) in H1, H2, H3.
  fold p in H1, H2, H3.
  split; [lia|]. split.
  - destruct (Nat.eq_dec p last) as [|Hne]; [now left|right].
    apply H2. lia.
  - intros j Hj. apply H3. lia.
Qed.

Lemma kd_binary_search_exists
  (K : nat) (data : list tuple) (past_end value : tuple) :
  undominated K data ->
  let last := length data in
  let p := value_of (kd_lower_bound K data past_end 0 last value) in
  (value_of (kd_binary_search K data past_end 0 last value) = true
   <-> exists x, In x data
                 /\ detail.none_less K value x = true
                 /\ detail.none_less K x value = true)
  /\ value_of (kd_binary_search K data past_end 0 last value)
     = negb (p =? last) && detail.none_less K value (nth p data past_end).
Proof.
  intros Hund last p.
  destruct (kd_lower_bound_first_hit K data past_end value Hund)
    as (H1 & H2 & H3).
  fold last in H1, H2, H3. fold p in H1, H2, H3.
  assert (Hval : value_of (kd_binary_search K data past_end 0 last value)
                 = negb (p =? last)
                   && detail.none_less K value (nth p data past_end)).
  { unfold kd_binary_search. rewrite value_of_bind. fold p.
    destruct (p =? last); [reflexivity|].
    now rewrite value_of_bind, value_of_deref, value_of_ret. }
  split; [|exact Hval].
  rewrite Hval, andb_true_iff, negb_true_iff, Nat.eqb_neq. split.
  - intros [Hp Hvp]. exists (nth p data past_end).
    destruct H2 as [|H2]; [contradiction|].
    split; [apply nth_In; unfold last in *; lia|]. now split.
  - intros (x & Hx & Hvx & Hxv).
    destruct (In_nth data x past_end Hx) as (j & Hj & <-).
    assert (Hpj : p <= j).
    { destruct (le_lt_dec p j) as [|Hlt]; [assumption|].
      rewrite (H3 j Hlt) in Hxv. discriminate. }
    assert (Hp : p <> last) by (unfold last; lia).
    split; [assumption|].
    destruct H2 as [|H2]; [contradiction|].
    destruct (Nat.eq_dec p j) as [->|Hne]; [assumption|].
    apply none_less_trans with (nth j data past_end); [assumption|].
    apply Hund; [lia|].
    now apply none_less_trans with value.
Qed.

(** C6.  [kd_lower_bound] dereferences [last].  On the empty sequence,
    which is in k-d order, it reads the position [0 = last]; on the
    sequence [(0,1); (0,2); (1,0)], which is in k-d order and is what
    [kd_sort] makes of it, the search for [(0,5)] reads the position
    [3 = last] when the search behind the pivot comes back with [last].  In
    both cases the position read is [end()] of the sequence. *)
Theorem kd_lower_bound_reads_past_the_end (past_end : tuple) :
  (forall K value,
     kd_ordered K [] = true
     /\ reads_of (kd_lower_bound K [] past_end 0 0 value) = [0])
  /\ let data := [[0; 1]; [0; 2]; [1; 0]]%Z in
     kd_ordered 2 data = true
     /\ kd_sort 2 nth_element_by_sort partition_stable data = data
     /\ In (length data)
          (reads_of (kd_lower_bound 2 data past_end 0 (length data)
                       [0; 5]%Z)).
Proof.
  split.
  - intros K value. split; reflexivity.
  - cbv zeta. split; [reflexivity|]. split; [reflexivity|].
    cbv -[In]. cbn [In]. do 11 right. now left.
Qed.

(** C7.  [kd_binary_search] starts with [kd_lower_bound] and so
    dereferences [last] as well: the position [0] of the empty sequence,
    and the position [3] of [(0,1); (0,2); (1,0)] when [(0,5)] is looked
    for. *)
Theorem kd_binary_search_reads_past_the_end (past_end : tuple) :
  (forall K value,
     kd_ordered K [] = true
     /\ reads_of (kd_binary_search K [] past_end 0 0 value) = [0])
  /\ let data := [[0; 1]; [0; 2]; [1; 0]]%Z in
     kd_ordered 2 data = true
     /\ kd_sort 2 nth_element_by_sort partition_stable data = data
     /\ In (length data)
          (reads_of (kd_binary_search 2 data past_end 0 (length data)
                       [0; 5]%Z)).
Proof.
  split.
  - intros K value. split; [reflexivity|].
    unfold kd_binary_search, kd_lower_bound.
    rewrite reads_of_bind. cbn [detail.kd_lower_bound Nat.sub].
    rewrite value_of_bind, value_of_ret, reads_of_bind, reads_of_deref,
      reads_of_ret.
    destruct (detail.none_less K _ value); reflexivity.
  - cbv zeta. split; [reflexivity|]. split; [reflexivity|].
    cbv -[In]. cbn [In]. do 11 right. now left.
Qed.

(** ** Empty ranges *)

(** C3.  On an empty range [[first, first)] every query gives the result of
    an empty search ([last] as a position, nothing written to the sink), but
    only three of the five do so without a read: [kd_lower_bound] and
    [kd_upper_bound] dereference [first], an offset outside the range. *)
Theorem empty_range_queries
  (K : nat) (data : list tuple) (past_end : tuple) (first : nat)
  (value lower upper : tuple) (n : nat) :
  kd_lower_bound K data past_end first first value = (first, [first])
  /\ kd_upper_bound K data past_end first first value = (first, [first])
  /\ kd_nearest_neighbor K data past_end first first value = (first, [])
  /\ kd_range_query K data past_end first first lower upper = ([], [])
  /\ kd_nearest_neighbors K data past_end first first value n = ([], []).
Proof.
  unfold kd_lower_bound, kd_upper_bound, kd_nearest_neighbor, kd_range_query,
    kd_nearest_neighbors.
  rewrite Nat.sub_diag.
  cbn [detail.kd_lower_bound detail.kd_upper_bound detail.kd_nearest_neighbor
       detail.kd_range_query detail.knn].
  rewrite Nat.sub_diag.
  unfold bind, deref, ret; cbn.
  repeat split.
  - now destruct (detail.none_less K (nth first data past_end) value).
  - now destruct (detail.all_less K value (nth first data past_end)).
Qed.

(** ** Comparisons against [eps = 0] *)

Lemma dlt_eps_0 (a : double) : dlt_eps a 0 = false.
Proof. destruct a; reflexivity. Qed.

Lemma abs_lt_minus_0 (d : Z) (b : double) : abs_lt_minus d b 0 = abs_lt d b.
Proof.
  destruct b as [y|]; [|reflexivity].
  unfold abs_lt_minus, abs_lt, Qltb, Qle_bool, Qplus, Qmult, inject_Z; simpl.
  rewrite !Z.mul_1_r, Z.add_0_r, Z.abs_square.
  replace (0 <=? Z.abs d)%Z with true by (symmetry; apply Z.leb_le, Z.abs_nonneg).
  simpl. now rewrite Z.ltb_antisym.
Qed.

(** ** The two nearest-neighbour overloads *)

(** C9.  Called with [eps = 0], the overload of [kd_nearest_neighbor] with a
    tolerance returns the same position as the exact overload, on every
    sequence and every range of it (k-d-sorted or not).  Both overloads
    search the two sides of the pivot with the exact overload; at the level
    of the call neither early return can fire, since no distance is below
    [0], and the pruning test [abs(d) < min_dist - 0] is the exact one. *)
Theorem kd_nearest_neighbor_eps_zero
  (K : nat) (data : list tuple) (past_end : tuple) (first last : nat)
  (value : tuple) :
  value_of (kd_nearest_neighbor_eps K data past_end first last value 0)
  = value_of (kd_nearest_neighbor K data past_end first last value).
Proof.
  unfold kd_nearest_neighbor_eps, kd_nearest_neighbor.
  destruct (last - first) as [|fuel] eqn:Hlen; [reflexivity|].
  cbn [detail.kd_nearest_neighbor_eps detail.kd_nearest_neighbor].
  rewrite Hlen.
  destruct (1 <? S fuel); [|reflexivity].
  rewrite !value_of_bind.
  set (pivot := value_of (detail.find_pivot data past_end 0 first last)).
  set (pv := value_of (deref data past_end pivot)).
  rewrite dlt_eps_0.
  rewrite !value_of_bind.
  set (search := value_of (if detail.less_nth 0 value pv then _ else _)).
  destruct (search =? last) eqn:Hs.
  - rewrite !value_of_ret. cbn [fst snd].
    rewrite abs_lt_minus_0.
    destruct (abs_lt _ _); [|reflexivity].
    rewrite !value_of_bind. reflexivity.
  - rewrite !value_of_bind, !value_of_ret, dlt_eps_0.
    destruct (dlt _ _); cbn [fst snd]; rewrite abs_lt_minus_0;
      (destruct (abs_lt _ _); [|reflexivity]);
      rewrite !value_of_bind; reflexivity.
Qed.

(** ** Nearest neighbours on a sequence with ties on an axis *)

(** C4.  [[(0,1); (0,2); (1,0)]] is in k-d order and is left as it is by
    [kd_sort]; its first two tuples agree on axis [0].  For the query
    [(0,-1)] [kd_nearest_neighbor] returns offset [0], at distance [sqrt 4],
    although the tuple at offset [2] is at distance [sqrt 2]. *)
Theorem kd_nearest_neighbor_misses_with_axis_ties (past_end : tuple) :
  let data := [[0; 1]; [0; 2]; [1; 0]]%Z in
  let value := [0; -1]%Z in
  kd_ordered 2 data = true
  /\ kd_sort 2 nth_element_by_sort partition_stable data = data
  /\ get 0 (nth 0 data past_end) = get 0 (nth 1 data past_end)
  /\ value_of (kd_nearest_neighbor 2 data past_end 0 (length data) value) = 0
  /\ detail.l2dist 2 (nth 0 data past_end) value = Sqrt 4
  /\ detail.l2dist 2 (nth 2 data past_end) value = Sqrt 2.
Proof. cbv. repeat split. Qed.

(** ** [kd_nearest_neighbor] on a sequence the descent can rely on *)

Section NearestNeighbor.
Variables (K : nat) (data : list tuple) (past_end value : tuple).

Local Abbreviation at_ x := (nth x data past_end).
Local Abbreviation dist2 x :=
  (detail.sum_of_squares K (nth x data past_end) value).
Local Abbreviation NN := (detail.kd_nearest_neighbor K data past_end).

Lemma kd_nearest_neighbor_empty (fuel I first : nat) :
  value_of (NN fuel I first first value) = first.
Proof.
  destruct fuel; cbn [detail.kd_nearest_neighbor]; [reflexivity|].
  now rewrite Nat.sub_diag.
Qed.

(** The value of one level of the descent, in terms of the values of the
    recursive calls. *)
Lemma kd_nearest_neighbor_level (fuel I first last : nat) :
  1 < last - first ->
  let J := detail.incr_wrap K I in
  let pivot := value_of (detail.find_pivot data past_end I first last) in
  let pv := nth pivot data past_end in
  let search_left := detail.less_nth I value pv in
  let near := value_of (if search_left then NN fuel J first pivot value
                        else NN fuel J (S pivot) last value) in
  let far := value_of (if search_left then NN fuel J (S pivot) last value
                       else NN fuel J first pivot value) in
  let best :=
    if near =? last then (pivot, detail.l2dist K pv value)
    else if dlt (detail.l2dist K (nth near data past_end) value)
              (detail.l2dist K pv value)
         then (near, detail.l2dist K (nth near data past_end) value)
         else (pivot, detail.l2dist K pv value) in
  value_of (NN (S fuel) I first last value)
  = if abs_lt (get I value - get I pv) (snd best)
    then if far =? last then fst best
         else if dlt (detail.l2dist K (nth far data past_end) value) (snd best)
              then far else fst best
    else fst best.
Proof.
  intros Hbig. cbn [detail.kd_nearest_neighbor].
  destruct (Nat.ltb_spec 1 (last - first)) as [_|]; [|lia].
  cbv zeta. rewrite !value_of_bind, value_of_deref.
  set (pivot := value_of (detail.find_pivot data past_end I first last)).
  set (near := value_of (if detail.less_nth I value (nth pivot data past_end)
                         then _ else _)).
  destruct (near =? last).
  - rewrite value_of_ret. cbn [fst snd].
    destruct (abs_lt _ _); [|reflexivity].
    rewrite value_of_bind.
    set (far := value_of (if detail.less_nth I value (nth pivot data past_end)
                          then _ else _)).
    destruct (far =? last); [reflexivity|].
    now rewrite value_of_bind, value_of_deref, value_of_ret.
  - rewrite value_of_bind, value_of_deref, value_of_ret.
    destruct (dlt _ _); cbn [fst snd];
      (destruct (abs_lt _ _); [|reflexivity]);
      rewrite value_of_bind;
      set (far := value_of (if detail.less_nth I value
                                 (nth pivot data past_end)
                            then _ else _));
      (destruct (far =? last); [reflexivity|]);
      now rewrite value_of_bind, value_of_deref, value_of_ret.
Qed.

Hypothesis K_pos : 0 < K.

Lemma kd_nearest_neighbor_nearest (fuel I first last : nat) :
  last - first <= fuel -> first < last -> I < K ->
  descent_ordered K data past_end fuel I first last ->
  let r := value_of (NN fuel I first last value) in
  first <= r < last
  /\ forall x, first <= x < last -> (dist2 r <= dist2 x)%Z.
Proof.
  revert I first last.
  induction fuel as [|fuel IH]; intros I first last Hfuel Hne HI Hord; [lia|].
  destruct (Nat.ltb_spec 1 (last - first)) as [Hbig|Hsmall].
  2:{ cbn [detail.kd_nearest_neighbor].
      destruct (Nat.ltb_spec 1 (last - first)) as [|_]; [lia|].
      cbv zeta. rewrite value_of_ret. split; [lia|].
      intros x Hx. replace x with first by lia. lia. }
  cbv zeta. rewrite (kd_nearest_neighbor_level fuel I first last Hbig).
  cbn [descent_ordered] in Hord. specialize (Hord Hbig). cbv zeta in Hord.
  pose proof (find_pivot_bounds data past_end I first last Hne) as Hpiv.
  set (pivot := value_of (detail.find_pivot data past_end I first last)) in *.
  set (pv := nth pivot data past_end) in *.
  set (J := detail.incr_wrap K I) in *.
  destruct Hord as (Hbefore & Hbehind & HordL & HordR).
  assert (HJ : J < K) by (apply incr_wrap_lt; assumption).
  (* the two recursive calls *)
  assert (HL : first < pivot ->
            let r := value_of (NN fuel J first pivot value) in
            first <= r < pivot
            /\ forall x, first <= x < pivot -> (dist2 r <= dist2 x)%Z).
  { intros H. apply IH; try assumption; lia. }
  assert (HR : S pivot < last ->
            let r := value_of (NN fuel J (S pivot) last value) in
            S pivot <= r < last
            /\ forall x, S pivot <= x < last -> (dist2 r <= dist2 x)%Z).
  { intros H. apply IH; try assumption; lia. }
  cbv zeta in HL, HR.
  assert (HL0 : first = pivot -> value_of (NN fuel J first pivot value) = pivot).
  { intros Heq. rewrite <- Heq. apply kd_nearest_neighbor_empty. }
  assert (HR0 : S pivot = last ->
            value_of (NN fuel J (S pivot) last value) = last).
  { intros Heq. rewrite <- Heq. apply kd_nearest_neighbor_empty. }
  set (rl := value_of (NN fuel J first pivot value)) in *.
  set (rr := value_of (NN fuel J (S pivot) last value)) in *.
  (* distances along the axis bound the distances *)
  assert (Haxis : forall x,
            ((get I (at_ x) - get I value) * (get I (at_ x) - get I value)
             <= dist2 x)%Z).
  { intros x. apply sum_of_squares_ge_axis. assumption. }
  unfold detail.l2dist, detail.less_nth.
  destruct (Z.ltb_spec (get I value) (get I pv)) as [Hsl|Hsl].
  - (* the value is on the left of the pivot *)
    cbn [dlt abs_lt]. fold rl rr.
    destruct (Nat.eq_dec first pivot) as [Hemp|Hnemp].
    + (* nothing on the left *)
      rewrite (HL0 Hemp).
      destruct (Nat.eqb_spec pivot last) as [|_]; [lia|].
      fold pv. rewrite Z.ltb_irrefl. cbn [fst snd dlt abs_lt].
      destruct (Z.ltb_spec ((get I value - get I pv) * (get I value - get I pv))
                  (detail.sum_of_squares K pv value)) as [Hfar|Hprune].
      * destruct (Nat.eq_dec (S pivot) last) as [Hemp'|Hnemp'].
        -- rewrite (HR0 Hemp'), Nat.eqb_refl. split; [lia|].
           intros x Hx. replace x with pivot by lia. lia.
        -- destruct (HR ltac:(lia)) as [HR1 HR2].
           destruct (Nat.eqb_spec rr last) as [|_]; [lia|].
           destruct (Z.ltb_spec (dist2 rr) (detail.sum_of_squares K pv value))
             as [Hcl|Hcl].
           ++ split; [lia|]. intros x Hx.
              destruct (Nat.eq_dec x pivot) as [->|]; [fold pv; lia|].
              apply HR2. lia.
           ++ split; [lia|]. intros x Hx.
              destruct (Nat.eq_dec x pivot) as [->|]; [lia|].
              specialize (HR2 x ltac:(lia)). fold pv. lia.
      * split; [lia|]. intros x Hx.
        destruct (Nat.eq_dec x pivot) as [->|]; [lia|].
        specialize (Hbehind x ltac:(lia)). specialize (Haxis x).
        cbv beta in Haxis. fold pv. nia.
    + destruct (HL ltac:(lia)) as [HL1 HL2].
      destruct (Nat.eqb_spec rl last) as [|_]; [lia|].
      set (best := if (dist2 rl <? detail.sum_of_squares K pv value)%Z
                   then (rl, Sqrt (dist2 rl))
                   else (pivot, Sqrt (detail.sum_of_squares K pv value))).
      assert (Hbest : first <= fst best < last
                      /\ snd best = Sqrt (dist2 (fst best))
                      /\ (forall x, first <= x <= pivot ->
                            (dist2 (fst best) <= dist2 x)%Z)).
      { subst best.
        destruct (Z.ltb_spec (dist2 rl) (detail.sum_of_squares K pv value));
          cbn [fst snd]; (split; [lia|split; [reflexivity|]]);
          intros x Hx; (destruct (Nat.eq_dec x pivot) as [->|];
                        [fold pv; lia|specialize (HL2 x ltac:(lia));
                                      fold pv; lia]). }
      destruct Hbest as (Hb1 & Hb2 & Hb3). rewrite Hb2. cbn [dlt abs_lt].
      destruct (Z.ltb_spec ((get I value - get I pv) * (get I value - get I pv))
                  (dist2 (fst best))) as [Hfar|Hprune].
      * destruct (Nat.eq_dec (S pivot) last) as [Hemp'|Hnemp'].
        -- rewrite (HR0 Hemp'), Nat.eqb_refl. split; [lia|].
           intros x Hx. apply Hb3. lia.
        -- destruct (HR ltac:(lia)) as [HR1 HR2].
           destruct (Nat.eqb_spec rr last) as [|_]; [lia|].
           destruct (Z.ltb_spec (dist2 rr) (dist2 (fst best))) as [Hcl|Hcl].
           ++ split; [lia|]. intros x Hx.
              destruct (le_lt_dec x pivot) as [Hle|Hgt].
              ** specialize (Hb3 x ltac:(lia)). lia.
              ** apply HR2. lia.
           ++ split; [lia|]. intros x Hx.
              destruct (le_lt_dec x pivot) as [Hle|Hgt].
              ** apply Hb3. lia.
              ** specialize (HR2 x ltac:(lia)). lia.
      * split; [lia|]. intros x Hx.
        destruct (le_lt_dec x pivot) as [Hle|Hgt]; [apply Hb3; lia|].
        specialize (Hbehind x ltac:(lia)). specialize (Haxis x).
        cbv beta in Haxis. fold pv in Hprune. nia.
  - (* the value is not on the left of the pivot *)
    cbn [dlt abs_lt]. fold rl rr.
    destruct (Nat.eq_dec (S pivot) last) as [Hemp|Hnemp].
    + (* nothing on the right *)
      rewrite (HR0 Hemp), Nat.eqb_refl. cbn [fst snd dlt abs_lt].
      destruct (Z.ltb_spec ((get I value - get I pv) * (get I value - get I pv))
                  (detail.sum_of_squares K pv value)) as [Hfar|Hprune].
      * destruct (Nat.eq_dec first pivot) as [Hemp'|Hnemp'].
        -- rewrite (HL0 Hemp').
           destruct (Nat.eqb_spec pivot last) as [|_]; [lia|].
           fold pv. rewrite Z.ltb_irrefl. split; [lia|].
           intros x Hx. replace x with pivot by lia. lia.
        -- destruct (HL ltac:(lia)) as [HL1 HL2].
           destruct (Nat.eqb_spec rl last) as [|_]; [lia|].
           destruct (Z.ltb_spec (dist2 rl) (detail.sum_of_squares K pv value))
             as [Hcl|Hcl].
           ++ split; [lia|]. intros x Hx.
              destruct (Nat.eq_dec x pivot) as [->|]; [fold pv; lia|].
              apply HL2. lia.
           ++ split; [lia|]. intros x Hx.
              destruct (Nat.eq_dec x pivot) as [->|]; [lia|].
              specialize (HL2 x ltac:(lia)). fold pv. lia.
      * split; [lia|]. intros x Hx.
        destruct (Nat.eq_dec x pivot) as [->|]; [lia|].
        specialize (Hbefore x ltac:(lia)). specialize (Haxis x).
        cbv beta in Haxis. fold pv. nia.
    + destruct (HR ltac:(lia)) as [HR1 HR2].
      destruct (Nat.eqb_spec rr last) as [|_]; [lia|].
      set (best := if (dist2 rr <? detail.sum_of_squares K pv value)%Z
                   then (rr, Sqrt (dist2 rr))
                   else (pivot, Sqrt (detail.sum_of_squares K pv value))).
      assert (Hbest : first <= fst best < last
                      /\ snd best = Sqrt (dist2 (fst best))
                      /\ (forall x, pivot <= x < last ->
                            (dist2 (fst best) <= dist2 x)%Z)).
      { subst best.
        destruct (Z.ltb_spec (dist2 rr) (detail.sum_of_squares K pv value));
          cbn [fst snd]; (split; [lia|split; [reflexivity|]]);
          intros x Hx; (destruct (Nat.eq_dec x pivot) as [->|];
                        [fold pv; lia|specialize (HR2 x ltac:(lia));
                                      fold pv; lia]). }
      destruct Hbest as (Hb1 & Hb2 & Hb3). rewrite Hb2. cbn [dlt abs_lt].
      destruct (Z.ltb_spec ((get I value - get I pv) * (get I value - get I pv))
                  (dist2 (fst best))) as [Hfar|Hprune].
      * destruct (Nat.eq_dec first pivot) as [Hemp'|Hnemp'].
        -- rewrite (HL0 Hemp').
           destruct (Nat.eqb_spec pivot last) as [|_]; [lia|].
           destruct (Z.ltb_spec (dist2 pivot) (dist2 (fst best))) as [Hcl|Hcl].
           ++ specialize (Hb3 pivot ltac:(lia)). lia.
           ++ split; [lia|]. intros x Hx. apply Hb3. lia.
        -- destruct (HL ltac:(lia)) as [HL1 HL2].
           destruct (Nat.eqb_spec rl last) as [|_]; [lia|].
           destruct (Z.ltb_spec (dist2 rl) (dist2 (fst best))) as [Hcl|Hcl].
           ++ split; [lia|]. intros x Hx.
              destruct (le_lt_dec pivot x) as [Hle|Hgt].
              ** specialize (Hb3 x ltac:(lia)). lia.
              ** apply HL2. lia.
           ++ split; [lia|]. intros x Hx.
              destruct (le_lt_dec pivot x) as [Hle|Hgt].
              ** apply Hb3. lia.
              ** specialize (HL2 x ltac:(lia)). lia.
      * split; [lia|]. intros x Hx.
        destruct (le_lt_dec pivot x) as [Hle|Hgt]; [apply Hb3; lia|].
        specialize (Hbefore x ltac:(lia)). specialize (Haxis x).
        cbv beta in Haxis. fold pv in Hprune. nia.
Qed.

End NearestNeighbor.

(** ** Without ties the descent follows the k-d order *)

Section Ranges.
Variable data : list tuple.

Lemma range_length (first last : nat) :
  first <= last <= length data -> length (range data first last) = last - first.
Proof.
  intros H. unfold range. rewrite length_firstn, length_skipn. lia.
Qed.

Lemma range_nth (first last i : nat) (d : tuple) :
  i < last - first ->
  nth i (range data first last) d = nth (first + i) data d.
Proof.
  intros H. unfold range. now rewrite nth_firstn_lt, nth_skipn_add.
Qed.

Lemma range_firstn (first last p : nat) :
  p <= last - first ->
  firstn p (range data first last) = range data first (first + p).
Proof.
  intros H. unfold range. rewrite firstn_firstn.
  f_equal. lia.
Qed.

Lemma range_skipn (first last p : nat) :
  p <= last - first ->
  skipn p (range data first last) = range data (first + p) last.
Proof.
  intros H. unfold range. rewrite skipn_firstn_comm, skipn_skipn.
  f_equal; [lia|]. f_equal. lia.
Qed.

Lemma range_all : range data 0 (length data) = data.
Proof. unfold range. rewrite Nat.sub_0_r. apply firstn_all. Qed.

Lemma forallb_range (P : tuple -> bool) (first last : nat) (d : tuple) :
  first <= last <= length data ->
  forallb P (range data first last) = true ->
  forall x, first <= x < last -> P (nth x data d) = true.
Proof.
  intros Hr H x Hx.
  replace x with (first + (x - first)) by lia.
  rewrite <- (range_nth first last) by lia.
  apply (proj1 (forallb_forall _ _) H), nth_In.
  rewrite range_length; lia.
Qed.

End Ranges.

Section TieFree.
Variables (K : nat) (data : list tuple) (past_end : tuple).

Lemma kd_less_axis_le (I : nat) (a b : tuple) :
  detail.kd_less K I a b = true -> (get I a <= get I b)%Z.
Proof.
  unfold detail.kd_less. destruct (K - 1) as [|n]; cbn [detail.kd_less_].
  - rewrite Z.ltb_lt. lia.
  - destruct (Z.eqb_spec (get I a) (get I b)); [lia|].
    rewrite Z.ltb_lt. lia.
Qed.

Lemma kd_less_false_axis_le (I : nat) (a b : tuple) :
  detail.kd_less K I a b = false -> (get I b <= get I a)%Z.
Proof.
  unfold detail.kd_less. destruct (K - 1) as [|n]; cbn [detail.kd_less_].
  - rewrite Z.ltb_ge. lia.
  - destruct (Z.eqb_spec (get I a) (get I b)); [lia|].
    rewrite Z.ltb_ge. lia.
Qed.

Lemma partition_point_loop_all (pred : tuple -> bool) (fuel first len : nat) :
  len <= fuel ->
  (forall x, first <= x < first + len -> pred (nth x data past_end) = true) ->
  value_of (std.partition_point_loop data past_end fuel first len pred)
  = first + len.
Proof.
  revert first len.
  induction fuel as [|fuel IH]; intros first len Hfuel Hall;
    cbn [std.partition_point_loop].
  - rewrite value_of_ret. lia.
  - destruct (Nat.eqb_spec len 0) as [->|Hlen]; [rewrite value_of_ret; lia|].
    assert (len / 2 < len) by (apply Nat.div_lt; lia).
    rewrite value_of_bind, value_of_deref, Hall by lia.
    rewrite IH; [lia|lia|].
    intros x Hx. apply Hall. lia.
Qed.

Lemma find_pivot_at_midpos (I first last : nat) :
  (forall x, first <= x < detail.midpos first last ->
     (get I (nth x data past_end)
      < get I (nth (detail.midpos first last) data past_end))%Z) ->
  value_of (detail.find_pivot data past_end I first last)
  = detail.midpos first last.
Proof.
  intros Hall. unfold detail.find_pivot, std.partition_point.
  rewrite value_of_bind, value_of_deref.
  rewrite partition_point_loop_all.
  - unfold detail.midpos. lia.
  - lia.
  - intros x Hx. unfold detail.less_nth. apply Z.ltb_lt, Hall.
    unfold detail.midpos in *. lia.
Qed.

Hypothesis K_pos : 0 < K.
Hypothesis no_ties : tie_free K data.

Lemma kd_ordered_descent_ordered (fuel I first last : nat) :
  first <= last <= length data -> I < K ->
  kd_ordered_at K fuel I (range data first last) = true ->
  descent_ordered K data past_end fuel I first last.
Proof.
  revert I first last.
  induction fuel as [|fuel IH]; intros I first last Hr HI Hord;
    cbn [descent_ordered]; [exact Logic.I|].
  intros Hbig. cbn [kd_ordered_at] in Hord.
  rewrite range_length in Hord by assumption.
  destruct (Nat.ltb_spec 1 (last - first)) as [_|]; [|lia].
  apply andb_true_iff in Hord. destruct Hord as [Hord HordR].
  apply andb_true_iff in Hord. destruct Hord as [Hord HordL].
  apply andb_true_iff in Hord. destruct Hord as [Hlt Hge].
  pose proof (midpos_lt first last ltac:(lia)) as Hm.
  assert (Hmid : first + detail.midpos 0 (last - first)
                 = detail.midpos first last)
    by (unfold detail.midpos; rewrite Nat.sub_0_r; lia).
  set (p := detail.midpos 0 (last - first)) in *.
  set (m := detail.midpos first last) in *.
  assert (Hpv : nth p (range data first last) [] = nth m data past_end).
  { rewrite range_nth by lia. rewrite Hmid. apply nth_indep. lia. }
  rewrite Hpv in Hlt, Hge.
  rewrite range_firstn, Hmid in Hlt, HordL by lia.
  rewrite range_skipn in Hge, HordR by lia.
  replace (first + S p) with (S m) in Hge, HordR by lia.
  assert (Hbefore : forall x, first <= x < m ->
            (get I (nth x data past_end) < get I (nth m data past_end))%Z).
  { intros x Hx.
    pose proof (forallb_range data _ first m past_end ltac:(lia) Hlt x Hx)
      as Hx'.
    apply kd_less_axis_le in Hx'.
    pose proof (no_ties x m I past_end ltac:(lia) HI). lia. }
  rewrite (find_pivot_at_midpos I first last Hbefore). fold m. cbv zeta.
  split; [|split; [|split]].
  - intros x Hx. specialize (Hbefore x Hx). lia.
  - intros y Hy.
    pose proof (forallb_range data _ (S m) last past_end ltac:(lia) Hge y
                  ltac:(lia)) as Hy'.
    apply negb_true_iff in Hy'. now apply kd_less_false_axis_le in Hy'.
  - apply IH; [lia|now apply incr_wrap_lt|assumption].
  - apply IH; [lia|now apply incr_wrap_lt|assumption].
Qed.

End TieFree.

(** On a non-empty sequence in k-d order in which no two tuples agree on any
    axis, [kd_nearest_neighbor] returns the position of a tuple at minimum
    distance from [value]. *)
Theorem kd_nearest_neighbor_nearest_on_tie_free
  (K : nat) (data : list tuple) (past_end value : tuple) :
  0 < K ->
  data <> [] ->
  kd_ordered K data = true ->
  tie_free K data ->
  let r := value_of (kd_nearest_neighbor K data past_end 0 (length data)
                       value) in
  r < length data
  /\ forall x, x < length data ->
       (detail.sum_of_squares K (nth r data past_end) value
        <= detail.sum_of_squares K (nth x data past_end) value)%Z.
Proof.
  intros HK Hne Hord Hties.
  assert (Hlen : 0 < length data) by (destruct data; [congruence|cbn; lia]).
  unfold kd_ordered in Hord. rewrite <- (range_all data) in Hord at 2.
  replace (length data) with (length data - 0) in Hord at 1 by lia.
  pose proof (kd_ordered_descent_ordered K data past_end HK Hties
                (length data - 0) 0 0 (length data) ltac:(lia) HK Hord)
    as Hdesc.
  destruct (kd_nearest_neighbor_nearest K data past_end value HK
              (length data - 0) 0 0 (length data) ltac:(lia) Hlen HK Hdesc)
    as [Hr Hmin].
  unfold kd_nearest_neighbor. cbv zeta. split; [lia|].
  intros x Hx. apply Hmin. lia.
Qed.

(** ** The bounded best-queue *)

Lemma emplace_In e l x : In x (detail.emplace e l) <-> x = e \/ In x l.
Proof.
  induction l as [|h t IH]; simpl.
  - intuition congruence.
  - destruct (dlt (fst h) (fst e)); simpl; [intuition congruence|].
    rewrite IH. intuition congruence.
Qed.

Lemma emplace_length e l : length (detail.emplace e l) = S (length l).
Proof.
  induction l as [|h t IH]; simpl; [reflexivity|].
  destruct (dlt (fst h) (fst e)); simpl; congruence.
Qed.

Lemma emplace_Forall (P : double * nat -> Prop) e l :
  P e -> Forall P l -> Forall P (detail.emplace e l).
Proof.
  intros He Hl. apply Forall_forall. intros x Hx.
  apply emplace_In in Hx. destruct Hx as [->|Hx]; [assumption|].
  now apply (proj1 (Forall_forall P l) Hl).
Qed.

Lemma emplace_ordered e l : heap_ordered l -> heap_ordered (detail.emplace e l).
Proof.
  unfold heap_ordered.
  induction l as [|h t IH]; intros Hl; simpl.
  - constructor; constructor.
  - inversion Hl as [|? ? Ht Hh]; subst.
    destruct (dlt (fst h) (fst e)) eqn:Hlt.
    + constructor; [assumption|].
      constructor; [now apply dlt_asym|].
      eapply Forall_impl; [|exact Hh].
      intros x Hx. unfold key_ge in *. eapply dlt_gt_ge; eassumption.
    + constructor; [now apply IH|].
      apply emplace_Forall; assumption.
Qed.

Lemma tl_ordered l : heap_ordered l -> heap_ordered (tl l).
Proof.
  intros Hl. destruct l; [assumption|]. now inversion Hl.
Qed.

Lemma add_m_n d it b : detail.m_n (detail.add d it b) = detail.m_n b.
Proof. reflexivity. Qed.

Lemma add_ordered d it b :
  heap_ordered (detail.q b) -> heap_ordered (detail.q (detail.add d it b)).
Proof.
  intros Hb. unfold detail.add; simpl.
  destruct (_ <? _); [apply tl_ordered|]; now apply emplace_ordered.
Qed.

Lemma add_length_le d it b :
  length (detail.q b) <= detail.m_n b ->
  length (detail.q (detail.add d it b)) <= detail.m_n b.
Proof.
  intros Hb. unfold detail.add; simpl.
  destruct (Nat.ltb_spec (detail.m_n b)
              (length (detail.emplace (d, it) (detail.q b)))) as [H|H].
  - rewrite emplace_length in H.
    destruct (detail.emplace (d, it) (detail.q b)) eqn:E; simpl; [lia|].
    apply (f_equal (@length _)) in E. rewrite emplace_length in E.
    simpl in E. lia.
  - assumption.
Qed.

Lemma add_length_ge d it b :
  length (detail.q b) <= length (detail.q (detail.add d it b)).
Proof.
  unfold detail.add; simpl.
  pose proof (emplace_length (d, it) (detail.q b)) as E.
  destruct (_ <? _); [|lia].
  destruct (detail.emplace (d, it) (detail.q b)); simpl in *; lia.
Qed.

Lemma add_not_full d it b :
  length (detail.q (detail.add d it b)) < detail.m_n b ->
  detail.q (detail.add d it b) = detail.emplace (d, it) (detail.q b).
Proof.
  unfold detail.add; simpl.
  pose proof (emplace_length (d, it) (detail.q b)) as E.
  destruct (Nat.ltb_spec (detail.m_n b)
              (length (detail.emplace (d, it) (detail.q b)))) as [H|H];
    [|reflexivity].
  destruct (detail.emplace (d, it) (detail.q b)); simpl in *; lia.
Qed.

Lemma add_Forall (P : double * nat -> Prop) d it b :
  P (d, it) -> Forall P (detail.q b) -> Forall P (detail.q (detail.add d it b)).
Proof.
  intros He Hb. unfold detail.add; simpl.
  pose proof (emplace_Forall P (d, it) (detail.q b) He Hb) as H.
  destruct (_ <? _); [|assumption].
  destruct (detail.emplace (d, it) (detail.q b)); simpl; [constructor|].
  now inversion H.
Qed.

Lemma max_key_ge b e :
  heap_ordered (detail.q b) -> In e (detail.q b) ->
  dlt (detail.max_key b) (fst e) = false.
Proof.
  unfold detail.max_key. intros Hb He.
  destruct (detail.q b) as [|top rest]; [contradiction|].
  destruct He as [->|He]; [apply dlt_irrefl|].
  inversion Hb as [|? ? _ Htop]; subst.
  exact (proj1 (Forall_forall _ _) Htop e He).
Qed.

(** ** [knn] and the queue *)

Section KnnQueue.
Variables (K : nat) (data : list tuple) (past_end : tuple) (value : tuple).

Local Abbreviation keyed := (keyed K data past_end value).
Local Abbreviation evolves := (evolves K data past_end value).

Lemma evolves_refl b : evolves b b.
Proof. unfold evolves. intuition auto using incl_refl. Qed.

Lemma evolves_trans a b c : evolves a b -> evolves b c -> evolves a c.
Proof.
  unfold evolves.
  intros (Hn1 & Hl1 & Ho1 & Hc1 & Hk1 & Hi1) (Hn2 & Hl2 & Ho2 & Hc2 & Hk2 & Hi2).
  split; [congruence|]. split; [lia|]. split; [auto|]. split; [auto|].
  split; [auto|].
  intros H. apply incl_tran with (detail.q b); [apply Hi1; lia|now apply Hi2].
Qed.

Lemma evolves_add it b :
  evolves b (detail.add (detail.l2dist K (nth it data past_end) value) it b).
Proof.
  unfold evolves. rewrite add_m_n.
  repeat split.
  - apply add_length_ge.
  - apply add_ordered.
  - apply add_length_le.
  - intros H. now apply add_Forall.
  - intros H. rewrite (add_not_full _ _ _ H).
    intros e He. apply emplace_In. now right.
Qed.

Lemma knn_evolves (fuel I first last : nat) (b : detail.n_best) :
  evolves b (value_of (detail.knn K data past_end fuel I first last value b)).
Proof.
  revert I first last b.
  induction fuel as [|fuel IH]; intros I first last b; cbn [detail.knn];
    destruct (last - first) as [|[|d]];
    try apply evolves_refl; try apply evolves_add.
  rewrite !value_of_bind.
  set (pivot := value_of (detail.find_pivot data past_end I first last)).
  rewrite value_of_deref.
  set (pv := nth pivot data past_end).
  set (b1 := detail.add (detail.l2dist K pv value) pivot b).
  assert (H1 : evolves b b1) by apply evolves_add.
  set (b2 := value_of (if detail.less_nth I value pv then _ else _)).
  assert (H2 : evolves b1 b2).
  { subst b2. destruct (detail.less_nth I value pv); apply IH. }
  destruct (abs_le _ _).
  - eapply evolves_trans; [exact H1|].
    eapply evolves_trans; [exact H2|].
    destruct (detail.less_nth I value pv); apply IH.
  - eapply evolves_trans; eassumption.
Qed.

Lemma value_of_copy_loop l :
  value_of (detail.copy_loop data past_end l)
  = map (fun e => nth (snd e) data past_end) l.
Proof.
  induction l as [|top rest IH]; [reflexivity|].
  cbn [detail.copy_loop map].
  rewrite !value_of_bind, value_of_deref, value_of_ret. now f_equal.
Qed.

Lemma keyed_ordered_copy l :
  Forall keyed l -> heap_ordered l ->
  StronglySorted
    (fun x y => dlt (detail.l2dist K x value) (detail.l2dist K y value) = false)
    (map (fun e => nth (snd e) data past_end) l).
Proof.
  induction l as [|e l IH]; intros Hk Ho; cbn [map]; [constructor|].
  inversion Hk as [|? ? Hke Hkl]; subst.
  inversion Ho as [|? ? Hol Hoe]; subst.
  constructor; [now apply IH|].
  apply Forall_map. apply Forall_forall. intros x Hx.
  pose proof (proj1 (Forall_forall _ _) Hoe x Hx) as Hge.
  pose proof (proj1 (Forall_forall _ _) Hkl x Hx) as Hkx.
  unfold key_ge, keyed in *. cbv beta. now rewrite <- Hke, <- Hkx.
Qed.

End KnnQueue.

(** ** The queue of [knn] *)

(** The queue of capacity 2 after one [add]: not full, and [max_key] is the
    key just added. *)
Lemma max_key_of_partly_filled_queue :
  let b := detail.add (Sqrt 4) 0 (detail.n_best_new 2) in
  length (detail.q b) < detail.m_n b
  /\ detail.max_key b = Sqrt 4
  /\ detail.max_key b <> DBL_MAX.
Proof. cbv. repeat split; [lia | discriminate]. Qed.

(** C10.  [kd_nearest_neighbors] writes at most [n] tuples, each at a
    distance from [value] that is not smaller than the distance of any tuple
    written after it. *)
Theorem kd_nearest_neighbors_at_most_n_farthest_first
  (K : nat) (data : list tuple) (past_end : tuple) (first last : nat)
  (value : tuple) (n : nat) :
  let out :=
    value_of (kd_nearest_neighbors K data past_end first last value n) in
  length out <= n
  /\ StronglySorted
       (fun x y =>
          dlt (detail.l2dist K x value) (detail.l2dist K y value) = false)
       out.
Proof.
  unfold kd_nearest_neighbors, detail.copy.
  rewrite value_of_bind, value_of_copy_loop.
  destruct (knn_evolves K data past_end value (last - first) 0 first last
              (detail.n_best_new n))
    as (Hn & _ & Ho & Hc & Hk & _).
  cbn [detail.n_best_new detail.q detail.m_n] in *.
  split.
  - rewrite length_map. rewrite Hn in Hc. apply Hc. simpl. lia.
  - apply keyed_ordered_copy; [apply Hk; constructor|apply Ho; constructor].
Qed.

(** ** k nearest neighbours on a sequence with ties on an axis *)

(** C2.  [[(0,0); (0,1); (1,0)]] is in k-d order and is left as it is by
    [kd_sort]; its first two tuples agree on axis [0].  For the query
    [(1,-1)] and [n = 1] [kd_nearest_neighbors] writes the tuple [(0,0)], at
    distance [sqrt 2], although the tuple at offset [2] is at distance
    [sqrt 1]. *)
Theorem kd_nearest_neighbors_misses_with_axis_ties (past_end : tuple) :
  let data := [[0; 0]; [0; 1]; [1; 0]]%Z in
  let value := [1; -1]%Z in
  kd_ordered 2 data = true
  /\ kd_sort 2 nth_element_by_sort partition_stable data = data
  /\ get 0 (nth 0 data past_end) = get 0 (nth 1 data past_end)
  /\ value_of (kd_nearest_neighbors 2 data past_end 0 (length data) value 1)
     = [[0; 0]%Z]
  /\ detail.l2dist 2 [0; 0]%Z value = Sqrt 2
  /\ detail.l2dist 2 (nth 2 data past_end) value = Sqrt 1.
Proof. cbv. repeat split. Qed.

(** ** [knn] on a sequence the descent can rely on *)

Lemma emplace_perm e l : Permutation (e :: l) (detail.emplace e l).
Proof.
  induction l as [|h t IH]; cbn [detail.emplace]; [reflexivity|].
  destruct (dlt (fst h) (fst e)); [reflexivity|].
  etransitivity; [apply perm_swap|]. now constructor.
Qed.

(** Once the queue is full, [add] does not raise the key on top. *)
Lemma add_max_key_le d it b :
  heap_ordered (detail.q b) -> detail.q b <> [] ->
  detail.m_n b < length (detail.emplace (d, it) (detail.q b)) ->
  1 <= detail.m_n b ->
  dlt (detail.max_key b) (detail.max_key (detail.add d it b)) = false.
Proof.
  intros Hord Hne Hfull Hn.
  unfold detail.add, detail.max_key. cbn [detail.q detail.m_n].
  destruct (Nat.ltb_spec (detail.m_n b)
              (length (detail.emplace (d, it) (detail.q b)))) as [_|]; [|lia].
  rewrite emplace_length in Hfull.
  destruct (detail.q b) as [|top rest] eqn:E; [congruence|].
  cbn [detail.emplace fst].
  destruct (dlt (fst top) d) eqn:Htop; cbn [fst tl].
  - apply dlt_irrefl.
  - inversion Hord as [|? ? Hrest Htoprest]; subst.
    destruct rest as [|r rest']; cbn [detail.emplace fst].
    + exact Htop.
    + destruct (dlt (fst r) d); cbn [fst]; [exact Htop|].
      now inversion Htoprest.
Qed.

Lemma NoDup_incl_lt {A : Type} (l1 l2 : list A) (x : A) :
  NoDup l1 -> incl l1 l2 -> In x l2 -> ~ In x l1 -> length l1 < length l2.
Proof.
  intros Hnd Hincl Hx Hnx.
  assert (H : length (x :: l1) <= length l2).
  { apply NoDup_incl_length; [now constructor|].
    intros y [<-|Hy]; [assumption|now apply Hincl]. }
  cbn [length] in H. lia.
Qed.

Section KnnNearest.
Variables (K : nat) (data : list tuple) (past_end value : tuple).

Local Abbreviation key x := (detail.l2dist K (nth x data past_end) value).
Local Abbreviation holds := (holds_nearest K data past_end value).

Lemma holds_nearest_perm b U U' :
  Permutation U U' -> holds b U -> holds b U'.
Proof.
  intros Hperm (Ho & Hk & Hnd & Hincl & Hlen & Hfar).
  repeat split; try assumption.
  - intros x Hx. apply (Permutation_in _ Hperm). now apply Hincl.
  - now rewrite <- (Permutation_length Hperm).
  - intros x Hx. apply Hfar. now apply (Permutation_in _ (Permutation_sym Hperm)).
Qed.

Lemma holds_nearest_add b U x :
  1 <= detail.m_n b -> NoDup U -> ~ In x U ->
  holds b U -> holds (detail.add (key x) x b) (x :: U).
Proof.
  intros Hn HU Hx (Ho & Hk & Hnd & Hincl & Hlen & Hfar).
  pose proof (emplace_perm (key x, x) (detail.q b)) as Hperm.
  pose proof (emplace_length (key x, x) (detail.q b)) as Hlen1.
  pose proof (emplace_ordered (key x, x) (detail.q b) Ho) as Ho1.
  assert (Hk1 : Forall (keyed K data past_end value)
                  (detail.emplace (key x, x) (detail.q b))).
  { apply emplace_Forall; [reflexivity|assumption]. }
  assert (Hnd1 : NoDup (map snd (detail.emplace (key x, x) (detail.q b)))).
  { eapply Permutation_NoDup; [apply Permutation_map, Hperm|].
    cbn [map snd]. constructor; [|assumption].
    intros Hin. apply Hx. now apply Hincl. }
  assert (Hincl1 : incl (map snd (detail.emplace (key x, x) (detail.q b)))
                     (x :: U)).
  { intros y Hy.
    apply (Permutation_in _ (Permutation_sym (Permutation_map snd Hperm)))
      in Hy.
    cbn [map snd] in Hy. destruct Hy as [<-|Hy]; [now left|right].
    now apply Hincl. }
  unfold holds_nearest, detail.add. cbn [detail.q detail.m_n].
  destruct (Nat.ltb_spec (detail.m_n b)
              (length (detail.emplace (key x, x) (detail.q b)))) as [Hpop|Hkeep].
  - (* the queue was full: the entry on top is removed *)
    destruct (detail.emplace (key x, x) (detail.q b)) as [|top rest] eqn:E;
      [cbn in Hlen1; lia|].
    cbn [tl length map] in *.
    assert (Hfull : length (detail.q b) = detail.m_n b) by lia.
    inversion Ho1 as [|? ? Horest Htop]; subst.
    inversion Hk1 as [|? ? Hktop Hkrest]; subst.
    inversion Hnd1 as [|? ? Hntop Hndrest]; subst.
    split; [assumption|]. split; [assumption|]. split; [assumption|].
    split; [intros y Hy; apply Hincl1; now right|].
    split; [lia|].
    intros y Hy Hny.
    assert (Hnew : dlt (detail.max_key b)
                     (detail.max_key (detail.add (key x) x b)) = false).
    { apply add_max_key_le; try assumption.
      - intros Hq. rewrite Hq in Hfull. cbn in Hfull. lia.
      - rewrite emplace_length. lia. }
    set (M := detail.max_key b) in *.
    unfold detail.add, detail.max_key in Hnew.
    cbn [detail.q detail.m_n] in Hnew. rewrite E in Hnew.
    destruct (Nat.ltb_spec (detail.m_n b) (length (top :: rest))) as [_|Hc];
      [|cbn [length] in Hc; lia].
    cbn [tl] in Hnew. unfold detail.max_key. cbn [detail.q].
    destruct (Nat.eq_dec y (snd top)) as [->|Hne].
    + (* the position just removed *)
      unfold keyed in Hktop. rewrite <- Hktop.
      destruct rest as [|r rest']; [cbn in Hlen1; lia|].
      now inversion Htop.
    + assert (Hy1 : ~ In y (map snd (top :: rest))).
      { cbn [map]. intros [Heq|Hin]; [congruence|contradiction]. }
      assert (Hyx : y <> x /\ ~ In y (map snd (detail.q b))).
      { split.
        - intros ->. apply Hy1.
          apply (Permutation_in _ (Permutation_map snd Hperm)). now left.
        - intros Hin. apply Hy1.
          apply (Permutation_in _ (Permutation_map snd Hperm)). now right. }
      destruct Hyx as [Hyx Hyq].
      destruct Hy as [Hy|Hy]; [congruence|].
      specialize (Hfar y Hy Hyq).
      destruct rest as [|r rest']; [cbn in Hlen1; lia|].
      eapply dlt_ge_trans; [exact Hfar|exact Hnew].
  - (* the queue was not full: every position dealt with is in it *)
    rewrite Hlen1 in *. cbn [length].
    assert (Hall : length (detail.q b) = length U) by lia.
    split; [assumption|]. split; [assumption|]. split; [assumption|].
    split; [assumption|]. split; [lia|].
    intros y Hy Hny. exfalso. apply Hny.
    apply (Permutation_in _ (Permutation_map snd Hperm)). cbn [map snd].
    destruct Hy as [<-|Hy]; [now left|right].
    refine (NoDup_length_incl Hnd _ Hincl y Hy).
    rewrite length_map. lia.
Qed.

(** Positions that are no closer than the entry on top of a full queue can
    be left out. *)
Lemma holds_nearest_skip b U P :
  length (detail.q b) = detail.m_n b ->
  (forall x, In x P -> dlt (key x) (detail.max_key b) = false) ->
  holds b U -> holds b (P ++ U).
Proof.
  intros Hfull HP (Ho & Hk & Hnd & Hincl & Hlen & Hfar).
  repeat split; try assumption.
  - intros y Hy. apply in_or_app. right. now apply Hincl.
  - rewrite length_app. lia.
  - intros x Hx Hnx. apply in_app_or in Hx.
    destruct Hx as [Hx|Hx]; [now apply HP|now apply Hfar].
Qed.

End KnnNearest.

Section KnnDescent.
Variables (K : nat) (data : list tuple) (past_end value : tuple).
Hypothesis K_pos : 0 < K.

Local Abbreviation key x := (detail.l2dist K (nth x data past_end) value).
Local Abbreviation holds := (holds_nearest K data past_end value).
Local Abbreviation KNN := (detail.knn K data past_end).

Lemma knn_m_n (fuel I first last : nat) (b : detail.n_best) :
  detail.m_n (value_of (KNN fuel I first last value b)) = detail.m_n b.
Proof. apply (knn_evolves K data past_end value). Qed.

Lemma seq_split_at (first last pivot : nat) :
  first <= pivot < last ->
  seq first (last - first)
  = seq first (pivot - first) ++ pivot :: seq (S pivot) (last - S pivot).
Proof.
  intros H.
  replace (last - first) with ((pivot - first) + S (last - S pivot)) by lia.
  rewrite seq_app. cbn [seq].
  now replace (first + (pivot - first)) with pivot by lia.
Qed.

Lemma perm_far_left (Lr Rr U : list nat) (p : nat) :
  Permutation (Lr ++ Rr ++ p :: U) ((Lr ++ p :: Rr) ++ U).
Proof.
  rewrite <- app_assoc. apply Permutation_app_head. cbn [app].
  symmetry. apply Permutation_middle.
Qed.

Lemma perm_far_right (Lr Rr U : list nat) (p : nat) :
  Permutation (Rr ++ Lr ++ p :: U) ((Lr ++ p :: Rr) ++ U).
Proof.
  etransitivity; [apply Permutation_app_comm|].
  rewrite <- !app_assoc. apply Permutation_app_head. cbn [app].
  constructor. apply Permutation_app_comm.
Qed.

(** A failed pruning test: the queue is full and the pivot is not in it. *)
Lemma knn_prune_full (I pivot : nat) (b : detail.n_best) (U : list nat) :
  I < K -> holds b U -> In pivot U ->
  abs_le (get I value - get I (nth pivot data past_end)) (detail.max_key b)
  = false ->
  length (detail.q b) = detail.m_n b.
Proof.
  intros HI (Ho & Hk & Hnd & Hincl & Hlen & Hfar) Hp Htest.
  assert (Hnot : ~ In pivot (map snd (detail.q b))).
  { intros Hin. apply in_map_iff in Hin. destruct Hin as (e & He & Hin).
    pose proof (max_key_ge b e Ho Hin) as Hge.
    pose proof (proj1 (Forall_forall _ _) Hk e Hin) as Hke.
    unfold keyed in Hke. rewrite Hke, He in Hge.
    pose proof (sum_of_squares_ge_axis K I (nth pivot data past_end) value HI)
      as Hax.
    destruct (detail.max_key b) as [M|]; [|discriminate].
    cbn [abs_le dlt detail.l2dist] in Htest, Hge.
    apply Z.leb_gt in Htest. apply Z.ltb_ge in Hge. lia. }
  pose proof (NoDup_incl_lt _ _ pivot Hnd Hincl Hp Hnot) as Hlt.
  rewrite length_map in Hlt. lia.
Qed.

Lemma knn_holds_nearest (fuel I first last : nat) (b : detail.n_best)
  (U : list nat) :
  last - first <= fuel -> first <= last <= length data -> I < K ->
  1 <= detail.m_n b ->
  descent_ordered K data past_end fuel I first last ->
  NoDup U -> (forall x, In x U -> ~ first <= x < last) ->
  holds b U ->
  holds (value_of (KNN fuel I first last value b))
    (seq first (last - first) ++ U).
Proof.
  revert I first last b U.
  induction fuel as [|fuel IH];
    intros I first last b U Hfuel Hr HI Hn Hord HU Hout Hb;
    cbn [detail.knn]; destruct (last - first) as [|[|d]] eqn:Ed;
    try (rewrite value_of_ret; exact Hb); try lia.
  - rewrite value_of_bind, value_of_deref, value_of_ret. cbn [seq app].
    apply holds_nearest_add; try assumption.
    intros Hin. apply (Hout first Hin). lia.
  - assert (Hbig : 1 < last - first) by lia.
    rewrite <- Ed in Hfuel |- *. clear d Ed.
    rewrite !value_of_bind, value_of_deref.
    cbn [descent_ordered] in Hord. specialize (Hord Hbig).
    cbv zeta in Hord.
    pose proof (find_pivot_bounds data past_end I first last ltac:(lia))
      as Hpiv.
    set (pivot := value_of (detail.find_pivot data past_end I first last))
      in *.
    set (pv := nth pivot data past_end) in *.
    set (J := detail.incr_wrap K I) in *.
    destruct Hord as (Hbefore & Hbehind & HordL & HordR).
    assert (HJ : J < K) by (apply incr_wrap_lt; assumption).
    set (b1 := detail.add (detail.l2dist K pv value) pivot b).
    assert (Hb1 : holds b1 (pivot :: U)).
    { apply holds_nearest_add; try assumption.
      intros Hin. apply (Hout pivot Hin). lia. }
    assert (HU1 : NoDup (pivot :: U)).
    { constructor; [|assumption]. intros Hin. apply (Hout pivot Hin). lia. }
    rewrite (seq_split_at first last pivot Hpiv).
    set (Lr := seq first (pivot - first)).
    set (Rr := seq (S pivot) (last - S pivot)).
    assert (HLr : forall x, In x Lr <-> first <= x < pivot).
    { intros x. unfold Lr. rewrite in_seq. lia. }
    assert (HRr : forall x, In x Rr <-> pivot < x < last).
    { intros x. unfold Rr. rewrite in_seq. lia. }
    assert (Haxis : forall x,
              ((get I (nth x data past_end) - get I value)
               * (get I (nth x data past_end) - get I value)
               <= detail.sum_of_squares K (nth x data past_end) value)%Z).
    { intros x. now apply sum_of_squares_ge_axis. }
    unfold detail.less_nth.
    destruct (Z.ltb_spec (get I value) (get I pv)) as [Hsl|Hsl].
    + (* the near side is the left one *)
      set (b2 := value_of (KNN fuel J first pivot value b1)).
      assert (Hb2 : holds b2 (Lr ++ pivot :: U)).
      { apply IH; try assumption; try lia.
        intros x [<-|Hx]; [lia|]. specialize (Hout x Hx). lia. }
      assert (HU2 : NoDup (Lr ++ pivot :: U)).
      { apply NoDup_app; [apply seq_NoDup|assumption|].
        intros x Hx [<-|Hin]; apply HLr in Hx; [lia|].
        specialize (Hout x Hin). lia. }
      assert (Hn2 : 1 <= detail.m_n b2)
        by (unfold b2; rewrite knn_m_n; exact Hn).
      destruct (abs_le (get I value - get I pv) (detail.max_key b2)) eqn:Htest.
      * apply holds_nearest_perm with (Rr ++ Lr ++ pivot :: U).
        { apply perm_far_right. }
        apply IH; try assumption; try lia.
        intros x Hx. apply in_app_or in Hx.
        destruct Hx as [Hx|[<-|Hx]];
          [apply HLr in Hx; lia|lia|specialize (Hout x Hx); lia].
      * rewrite value_of_ret.
        apply holds_nearest_perm with (Rr ++ Lr ++ pivot :: U).
        { apply perm_far_right. }
        apply holds_nearest_skip; [|  |assumption].
        -- apply (knn_prune_full I pivot b2 (Lr ++ pivot :: U) HI Hb2);
             [|exact Htest].
           apply in_or_app. right. now left.
        -- intros x Hx. apply HRr in Hx.
           specialize (Hbehind x Hx). specialize (Haxis x).
           destruct (detail.max_key b2) as [M|]; [|discriminate].
           cbn [abs_le dlt detail.l2dist] in Htest |- *.
           apply Z.leb_gt in Htest. apply Z.ltb_ge. fold pv in Hbehind. nia.
    + (* the near side is the right one *)
      set (b2 := value_of (KNN fuel J (S pivot) last value b1)).
      assert (Hb2 : holds b2 (Rr ++ pivot :: U)).
      { apply IH; try assumption; try lia.
        intros x [<-|Hx]; [lia|]. specialize (Hout x Hx). lia. }
      assert (HU2 : NoDup (Rr ++ pivot :: U)).
      { apply NoDup_app; [apply seq_NoDup|assumption|].
        intros x Hx [<-|Hin]; apply HRr in Hx; [lia|].
        specialize (Hout x Hin). lia. }
      assert (Hn2 : 1 <= detail.m_n b2)
        by (unfold b2; rewrite knn_m_n; exact Hn).
      destruct (abs_le (get I value - get I pv) (detail.max_key b2)) eqn:Htest.
      * apply holds_nearest_perm with (Lr ++ Rr ++ pivot :: U).
        { apply perm_far_left. }
        apply IH; try assumption; try lia.
        intros x Hx. apply in_app_or in Hx.
        destruct Hx as [Hx|[<-|Hx]];
          [apply HRr in Hx; lia|lia|specialize (Hout x Hx); lia].
      * rewrite value_of_ret.
        apply holds_nearest_perm with (Lr ++ Rr ++ pivot :: U).
        { apply perm_far_left. }
        apply holds_nearest_skip; [|  |assumption].
        -- apply (knn_prune_full I pivot b2 (Rr ++ pivot :: U) HI Hb2);
             [|exact Htest].
           apply in_or_app. right. now left.
        -- intros x Hx. apply HLr in Hx.
           specialize (Hbefore x Hx). specialize (Haxis x).
           destruct (detail.max_key b2) as [M|]; [|discriminate].
           cbn [abs_le dlt detail.l2dist] in Htest |- *.
           apply Z.leb_gt in Htest. apply Z.ltb_ge. fold pv in Hbefore. nia.
Qed.

End KnnDescent.

(** On a sequence in k-d order in which no two tuples agree on any axis,
    [kd_nearest_neighbors] with [1 <= n <= |data|] writes the tuples at [n]
    distinct positions, and no other position holds a tuple closer to
    [value] than any of them. *)
Theorem kd_nearest_neighbors_nearest_on_tie_free
  (K : nat) (data : list tuple) (past_end value : tuple) (n : nat) :
  0 < K ->
  kd_ordered K data = true ->
  tie_free K data ->
  1 <= n <= length data ->
  exists positions,
    value_of (kd_nearest_neighbors K data past_end 0 (length data) value n)
    = map (fun p => nth p data past_end) positions
    /\ NoDup positions
    /\ length positions = n
    /\ (forall p, In p positions -> p < length data)
    /\ (forall p x,
          In p positions -> x < length data -> ~ In x positions ->
          (detail.sum_of_squares K (nth p data past_end) value
           <= detail.sum_of_squares K (nth x data past_end) value)%Z).
Proof.
  intros HK Hord Hties Hn.
  unfold kd_ordered in Hord. rewrite <- (range_all data) in Hord at 2.
  replace (length data) with (length data - 0) in Hord at 1 by lia.
  pose proof (kd_ordered_descent_ordered K data past_end HK Hties
                (length data - 0) 0 0 (length data) ltac:(lia) HK Hord)
    as Hdesc.
  assert (Hnew : holds_nearest K data past_end value (detail.n_best_new n) []).
  { unfold holds_nearest. cbn [detail.n_best_new detail.q detail.m_n map].
    repeat split; try constructor.
    - intros x [].
    - cbn. lia.
    - intros x []. }
  pose proof (knn_holds_nearest K data past_end value HK (length data - 0)
                0 0 (length data) (detail.n_best_new n) []
                ltac:(lia) ltac:(lia) HK ltac:(cbn; lia) Hdesc
                ltac:(constructor) ltac:(intros x []) Hnew) as H.
  rewrite app_nil_r in H.
  set (b := value_of (detail.knn K data past_end (length data - 0) 0 0
                        (length data) value (detail.n_best_new n))) in *.
  assert (Hm : detail.m_n b = n) by apply knn_m_n.
  destruct H as (Ho & Hk & Hnd & Hincl & Hlen & Hfar).
  exists (map snd (detail.q b)).
  split; [|split; [|split; [|split]]].
  - unfold kd_nearest_neighbors, detail.copy.
    rewrite value_of_bind, value_of_copy_loop. fold b.
    now rewrite map_map.
  - assumption.
  - rewrite length_map, Hlen, Hm, length_seq. lia.
  - intros p Hp. apply Hincl, in_seq in Hp. lia.
  - intros p x Hp Hx Hnx.
    apply in_map_iff in Hp. destruct Hp as (e & <- & He).
    pose proof (max_key_ge b e Ho He) as Htop.
    pose proof (proj1 (Forall_forall _ _) Hk e He) as Hke.
    unfold keyed in Hke. rewrite Hke in Htop.
    assert (Hxfar : dlt (detail.l2dist K (nth x data past_end) value)
                      (detail.max_key b) = false).
    { apply Hfar; [|assumption]. apply in_seq. lia. }
    pose proof (dlt_ge_trans _ _ _ Hxfar Htop) as Hxe.
    cbn [dlt detail.l2dist] in Hxe. now apply Z.ltb_ge in Hxe.
Qed.

(** ** The order [kd_less] and the componentwise tests *)

Lemma components_eq_iff (K : nat) (a b : tuple) :
  components K a = components K b <-> forall j, j < K -> get j a = get j b.
Proof.
  unfold components. split.
  - intros H j Hj.
    assert (Hn : nth j (map (fun i => get i a) (seq 0 K)) 0%Z
                 = nth j (map (fun i => get i b) (seq 0 K)) 0%Z)
      by now rewrite H.
    rewrite !(nth_indep _ 0%Z (get 0 a)) in Hn at 1
      by (rewrite length_map, length_seq; exact Hj).
    rewrite (map_nth (fun i => get i a)) in Hn.
    rewrite (nth_indep _ (get 0 a) (get 0 b)) in Hn
      by (rewrite length_map, length_seq; exact Hj).
    rewrite (map_nth (fun i => get i b)) in Hn.
    now rewrite seq_nth in Hn by exact Hj.
  - intros H. apply map_ext_in. intros j Hj. apply in_seq in Hj.
    apply H. lia.
Qed.

Section KdLess.
Variable K : nat.

Lemma kd_less__ext (n I : nat) (a a' b b' : tuple) :
  0 < K -> I < K ->
  (forall j, j < K -> get j a = get j a') ->
  (forall j, j < K -> get j b = get j b') ->
  detail.kd_less_ K n I a b = detail.kd_less_ K n I a' b'.
Proof.
  intros HK HI Ha Hb. revert I HI.
  induction n as [|n IH]; intros I HI; cbn [detail.kd_less_];
    rewrite (Ha I HI), (Hb I HI); [reflexivity|].
  destruct (get I a' =? get I b')%Z; [|reflexivity].
  apply IH. unfold detail.incr_wrap. apply Nat.mod_upper_bound. lia.
Qed.

Lemma kd_less__first_difference (n I : nat) (a b : tuple) :
  I < K ->
  detail.kd_less_ K n I a b = true
  <-> exists t,
        t <= n
        /\ (get ((I + t) mod K) a < get ((I + t) mod K) b)%Z
        /\ forall s, s < t -> get ((I + s) mod K) a = get ((I + s) mod K) b.
Proof.
  revert I. induction n as [|n IH]; intros I HI; cbn [detail.kd_less_].
  - rewrite Z.ltb_lt. split.
    + intros H. exists 0. rewrite Nat.add_0_r, Nat.mod_small by exact HI.
      split; [lia|]. split; [exact H|]. intros s Hs. lia.
    + intros (t & Ht & Hlt & _). assert (t = 0) as -> by lia.
      now rewrite Nat.add_0_r, Nat.mod_small in Hlt by exact HI.
  - assert (HJ : detail.incr_wrap K I < K)
      by (unfold detail.incr_wrap; apply Nat.mod_upper_bound; lia).
    assert (Hshift : forall t,
               (detail.incr_wrap K I + t) mod K = (I + S t) mod K).
    { intros t. unfold detail.incr_wrap.
      rewrite Nat.Div0.add_mod_idemp_l. f_equal. lia. }
    destruct (get I a =? get I b)%Z eqn:E.
    + apply Z.eqb_eq in E. rewrite (IH _ HJ). split.
      * intros (t & Ht & Hlt & Heq). exists (S t).
        rewrite <- Hshift. split; [lia|]. split; [exact Hlt|].
        intros [|s] Hs.
        -- now rewrite Nat.add_0_r, Nat.mod_small by exact HI.
        -- rewrite <- Hshift. apply Heq. lia.
      * intros ([|t] & Ht & Hlt & Heq).
        -- rewrite Nat.add_0_r, Nat.mod_small in Hlt by exact HI. lia.
        -- exists t. rewrite Hshift. split; [lia|]. split; [exact Hlt|].
           intros s Hs. rewrite Hshift. apply Heq. lia.
    + apply Z.eqb_neq in E. rewrite Z.ltb_lt. split.
      * intros H. exists 0. rewrite Nat.add_0_r, Nat.mod_small by exact HI.
        split; [lia|]. split; [exact H|]. intros s Hs. lia.
      * intros ([|t] & Ht & Hlt & Heq).
        -- now rewrite Nat.add_0_r, Nat.mod_small in Hlt by exact HI.
        -- specialize (Heq 0 ltac:(lia)).
           rewrite Nat.add_0_r, Nat.mod_small in Heq by exact HI.
           contradiction.
Qed.

End KdLess.

(** X1.  [kd_less<I>] compares two tuples at the first axis, in the cyclic
    order [I, I+1, ..., K-1, 0, ..., I-1], on which they differ: it holds
    exactly when the left tuple is the smaller one there. *)
Theorem kd_less_first_difference (K I : nat) (a b : tuple) :
  I < K ->
  detail.kd_less K I a b = true
  <-> exists t,
        t < K
        /\ (get ((I + t) mod K) a < get ((I + t) mod K) b)%Z
        /\ forall s, s < t -> get ((I + s) mod K) a = get ((I + s) mod K) b.
Proof.
  intros HI. unfold detail.kd_less.
  rewrite (kd_less__first_difference K (K - 1) I a b HI).
  split; intros (t & Ht & H); exists t; (split; [lia|exact H]).
Qed.

Lemma kd_less_first_difference_witness :
  1 < 3
  /\ (detail.kd_less 3 1 [5; 2; 7]%Z [4; 2; 9]%Z = true
      <-> exists t,
            t < 3
            /\ (get ((1 + t) mod 3) [5; 2; 7]%Z
                < get ((1 + t) mod 3) [4; 2; 9]%Z)%Z
            /\ forall s, s < t ->
                 get ((1 + s) mod 3) [5; 2; 7]%Z
                 = get ((1 + s) mod 3) [4; 2; 9]%Z).
Proof.
  split; [lia|].
  apply (kd_less_first_difference 3 1 [5; 2; 7]%Z [4; 2; 9]%Z). lia.
Defined.

(** X2.  For every axis [I], [kd_less<I>] is a strict total order on the
    points: it is irreflexive and transitive, it never holds in both
    directions, and two tuples are unordered exactly when they agree on all
    [K] components. *)
Theorem kd_less_strict_total_order (K I : nat) :
  I < K ->
  (forall a, detail.kd_less K I a a = false)
  /\ (forall a b, detail.kd_less K I a b = true ->
                  detail.kd_less K I b a = false)
  /\ (forall a b c,
        detail.kd_less K I a b = true -> detail.kd_less K I b c = true ->
        detail.kd_less K I a c = true)
  /\ (forall a b,
        detail.kd_less K I a b = false /\ detail.kd_less K I b a = false
        <-> components K a = components K b).
Proof.
  intros HI.
  split; [exact (kd_less_irrefl K I)|].
  split; [exact (kd_less_asym K I)|].
  split; [exact (kd_less_trans K I)|].
  intros a b. split.
  - intros [Hab Hba]. apply (kd_less_neither_components K ltac:(lia) I a b HI Hab Hba).
  - intros Heq. rewrite components_eq_iff in Heq.
    assert (Hsame : forall x y,
               (forall j, j < K -> get j x = get j y) ->
               detail.kd_less K I x y = false).
    { intros x y Hxy.
      rewrite <- (kd_less_irrefl K I y). unfold detail.kd_less.
      apply kd_less__ext; [lia|exact HI|exact Hxy|reflexivity]. }
    split; apply Hsame; [exact Heq|].
    intros j Hj. symmetry. now apply Heq.
Qed.

Lemma kd_less_strict_total_order_witness :
  0 < 2
  /\ detail.kd_less 2 0 [1; 2]%Z [1; 2; 9]%Z = false
  /\ detail.kd_less 2 0 [1; 2; 9]%Z [1; 2]%Z = false.
Proof.
  split; [lia|].
  destruct (kd_less_strict_total_order 2 0 ltac:(lia)) as (_ & _ & _ & H).
  apply (H [1; 2]%Z [1; 2; 9]%Z). reflexivity.
Defined.

(** X3.  [contains(value, lower, upper)] tests membership in the box that is
    closed at [lower] and open at [upper] on every axis. *)
Theorem contains_half_open_box (K : nat) (value lower upper : tuple) :
  0 < K ->
  detail.contains K value lower upper = true
  <-> forall i, i < K -> (get i lower <= get i value < get i upper)%Z.
Proof.
  intros HK. unfold detail.contains.
  rewrite andb_true_iff, none_less_spec, all_less_spec.
  split.
  - intros [Hlo Hhi] i Hi.
    specialize (Hlo i ltac:(lia)). specialize (Hhi i ltac:(lia)). lia.
  - intros H. split; intros i Hi; specialize (H i ltac:(lia)); lia.
Qed.

Lemma contains_half_open_box_witness :
  0 < 2
  /\ detail.contains 2 [3; 4]%Z [3; 0]%Z [4; 5]%Z = true
  /\ detail.contains 2 [4; 4]%Z [3; 0]%Z [4; 5]%Z = false.
Proof.
  split; [lia|]. split.
  - apply (contains_half_open_box 2 [3; 4]%Z [3; 0]%Z [4; 5]%Z); [lia|].
    intros [|[|i]] Hi; cbn; lia.
  - reflexivity.
Defined.

Lemma sum_of_squares__zero (n I : nat) (a b : tuple) :
  detail.sum_of_squares_ n I a b = 0%Z
  <-> forall i, I <= i <= I + n -> get i a = get i b.
Proof.
  revert I. induction n as [|n IH]; intros I; cbn [detail.sum_of_squares_].
  - rewrite Z.pow_2_r. split.
    + intros H i Hi. assert (i = I) as -> by lia. nia.
    + intros H. rewrite (H I) by lia. lia.
  - pose proof (sum_of_squares__nonneg n (S I) a b) as Hpos.
    pose proof (Z.square_nonneg (get I a - get I b)) as Hsq.
    rewrite Z.pow_2_r. split.
    + intros H i Hi.
      assert (H1 : ((get I a - get I b) * (get I a - get I b) = 0)%Z) by lia.
      assert (H2 : detail.sum_of_squares_ n (S I) a b = 0%Z) by lia.
      destruct (Nat.eq_dec i I) as [->|Hne]; [nia|].
      apply (proj1 (IH (S I)) H2). lia.
    + intros H.
      rewrite (proj2 (IH (S I))) by (intros i Hi; apply H; lia).
      rewrite (H I) by lia. lia.
Qed.

(** X4.  On integral components within the bound [exact_on], [l2dist] is
    symmetric, it is [sqrt 0] exactly between tuples that agree on all [K]
    components, and the gap between two tuples along any one axis does not
    exceed it. *)
Theorem l2dist_symmetric_zero_axis_gap (K : nat) (a b : tuple) :
  0 < K ->
  exact_on K [a; b] ->
  detail.l2dist K a b = detail.l2dist K b a
  /\ (detail.l2dist K a b = Sqrt 0 <-> components K a = components K b)
  /\ (forall i, i < K ->
        abs_le (get i a - get i b) (detail.l2dist K a b) = true).
Proof.
  intros HK _. unfold detail.l2dist. split; [|split].
  - now rewrite sum_of_squares_sym.
  - rewrite components_eq_iff. unfold detail.sum_of_squares. split.
    + intros H j Hj. injection H as H.
      apply (proj1 (sum_of_squares__zero (K - 1) 0 a b) H). lia.
    + intros H. f_equal. apply sum_of_squares__zero.
      intros i Hi. apply H. lia.
  - intros i Hi. cbn [abs_le]. apply Z.leb_le.
    now apply sum_of_squares_ge_axis.
Qed.

Lemma l2dist_symmetric_zero_axis_gap_witness :
  0 < 2
  /\ exact_on 2 [[0; 0]; [3; 4]]%Z
  /\ detail.l2dist 2 [0; 0]%Z [3; 4]%Z = detail.l2dist 2 [3; 4]%Z [0; 0]%Z
  /\ abs_le (get 1 [0; 0]%Z - get 1 [3; 4]%Z)
       (detail.l2dist 2 [0; 0]%Z [3; 4]%Z) = true.
Proof.
  assert (Hex : exact_on 2 [[0; 0]; [3; 4]]%Z)
    by (apply exact_on_check; reflexivity).
  destruct (l2dist_symmetric_zero_axis_gap 2 [0; 0]%Z [3; 4]%Z ltac:(lia)
              Hex)
    as (Hsym & _ & Hgap).
  split; [lia|]. split; [exact Hex|]. split; [exact Hsym|]. apply Hgap. lia.
Defined.

(** ** [kd_compare] *)

(** X5.  With [<] as the predicate on components, [kd_compare<Pred, I>] is
    [kd_less<I>]. *)
Theorem kd_compare_lt_is_kd_less (K I : nat) (a b : tuple) :
  detail.kd_compare K Z.ltb I a b = detail.kd_less K I a b.
Proof.
  unfold detail.kd_compare, detail.kd_less. generalize (K - 1) as n.
  intros n. revert I.
  induction n as [|n IH]; intros I;
    cbn [detail.kd_compare_ detail.kd_less_]; [reflexivity|].
  rewrite IH.
  destruct (Z.ltb_spec (get I a) (get I b)) as [Hlt|Hge];
    destruct (Z.ltb_spec (get I b) (get I a)) as [Hgt|Hle];
    destruct (Z.eqb_spec (get I a) (get I b)) as [Heq|Hne];
    cbn [negb andb]; try reflexivity; lia.
Qed.

Section KdCompare.
Variables (K : nat) (m_pred : Z -> Z -> bool).
Hypothesis m_pred_irrefl : forall x, m_pred x x = false.
Hypothesis m_pred_trans :
  forall x y z, m_pred x y = true -> m_pred y z = true -> m_pred x z = true.
Hypothesis m_pred_equiv_trans :
  forall x y z,
    m_pred x y = false -> m_pred y x = false ->
    m_pred y z = false -> m_pred z y = false ->
    m_pred x z = false /\ m_pred z x = false.

Lemma m_pred_lt_equiv (x y z : Z) :
  m_pred x y = true -> m_pred y z = false -> m_pred z y = false ->
  m_pred x z = true.
Proof.
  intros Hxy Hyz Hzy.
  destruct (m_pred x z) eqn:Hxz; [reflexivity|].
  destruct (m_pred z x) eqn:Hzx.
  - rewrite (m_pred_trans z x y Hzx Hxy) in Hzy. discriminate.
  - destruct (m_pred_equiv_trans x z y Hxz Hzx Hzy Hyz) as [H _].
    congruence.
Qed.

Lemma m_pred_equiv_lt (x y z : Z) :
  m_pred x y = false -> m_pred y x = false -> m_pred y z = true ->
  m_pred x z = true.
Proof.
  intros Hxy Hyx Hyz.
  destruct (m_pred x z) eqn:Hxz; [reflexivity|].
  destruct (m_pred z x) eqn:Hzx.
  - rewrite (m_pred_trans y z x Hyz Hzx) in Hyx. discriminate.
  - destruct (m_pred_equiv_trans y x z Hyx Hxy Hxz Hzx) as [H _].
    congruence.
Qed.

Lemma kd_compare__irrefl (n I : nat) (a : tuple) :
  detail.kd_compare_ K m_pred n I a a = false.
Proof.
  revert I. induction n as [|n IH]; intros I; cbn [detail.kd_compare_];
    rewrite m_pred_irrefl; [reflexivity|]. cbn [negb andb]. apply IH.
Qed.

Lemma kd_compare__trans (n I : nat) (a b c : tuple) :
  detail.kd_compare_ K m_pred n I a b = true ->
  detail.kd_compare_ K m_pred n I b c = true ->
  detail.kd_compare_ K m_pred n I a c = true.
Proof.
  revert I. induction n as [|n IH]; intros I; cbn [detail.kd_compare_].
  - apply m_pred_trans.
  - destruct (m_pred (get I a) (get I b)) eqn:Hab;
      destruct (m_pred (get I b) (get I a)) eqn:Hba;
      destruct (m_pred (get I b) (get I c)) eqn:Hbc;
      destruct (m_pred (get I c) (get I b)) eqn:Hcb;
      cbn [negb andb]; intros H1 H2; try discriminate.
    all: try (rewrite (m_pred_trans _ _ _ Hab Hbc); cbn [negb andb];
              reflexivity).
    + rewrite (m_pred_lt_equiv _ _ _ Hab Hbc Hcb). reflexivity.
    + rewrite (m_pred_lt_equiv _ _ _ Hab Hbc Hcb). reflexivity.
    + rewrite (m_pred_equiv_lt _ _ _ Hab Hba Hbc). reflexivity.
    + rewrite (m_pred_equiv_lt _ _ _ Hab Hba Hbc). reflexivity.
    + destruct (m_pred_equiv_trans _ _ _ Hab Hba Hbc Hcb) as [-> ->].
      cbn [negb andb]. now apply IH.
Qed.

Lemma kd_compare__unordered (n I : nat) (a b : tuple) :
  detail.kd_compare_ K m_pred n I a b = false
  /\ detail.kd_compare_ K m_pred n I b a = false
  <-> forall j, In j (kd_axes K n I) ->
        m_pred (get j a) (get j b) = false
        /\ m_pred (get j b) (get j a) = false.
Proof.
  revert I. induction n as [|n IH]; intros I;
    cbn [detail.kd_compare_ kd_axes].
  - split.
    + intros H j [<-|[]]. exact H.
    + intros H. apply H. now left.
  - destruct (m_pred (get I a) (get I b)) eqn:Hab;
      destruct (m_pred (get I b) (get I a)) eqn:Hba; cbn [negb andb].
    1-3: split;
      [intros [H1 H2]; discriminate
      |intros H; destruct (H I (or_introl eq_refl)) as [H1 H2]; congruence].
    rewrite IH. split.
    + intros H j [<-|Hj]; [now split|now apply H].
    + intros H j Hj. apply H. now right.
Qed.

End KdCompare.

(** X6.  When the predicate on components is a strict weak order,
    [kd_compare<Pred, I>] is a strict weak order on tuples: irreflexive,
    transitive, and "neither precedes the other" is transitive.  This is
    what [std::nth_element] and [std::sort] require of a comparator. *)
Theorem kd_compare_strict_weak_order
  (K : nat) (m_pred : Z -> Z -> bool) (I : nat) :
  (forall x, m_pred x x = false) ->
  (forall x y z,
     m_pred x y = true -> m_pred y z = true -> m_pred x z = true) ->
  (forall x y z,
     m_pred x y = false -> m_pred y x = false ->
     m_pred y z = false -> m_pred z y = false ->
     m_pred x z = false /\ m_pred z x = false) ->
  (forall a, detail.kd_compare K m_pred I a a = false)
  /\ (forall a b c,
        detail.kd_compare K m_pred I a b = true ->
        detail.kd_compare K m_pred I b c = true ->
        detail.kd_compare K m_pred I a c = true)
  /\ (forall a b c,
        detail.kd_compare K m_pred I a b = false ->
        detail.kd_compare K m_pred I b a = false ->
        detail.kd_compare K m_pred I b c = false ->
        detail.kd_compare K m_pred I c b = false ->
        detail.kd_compare K m_pred I a c = false
        /\ detail.kd_compare K m_pred I c a = false).
Proof.
  intros Hirr Htrans Hequiv. unfold detail.kd_compare.
  split; [|split].
  - intros a. now apply kd_compare__irrefl.
  - intros a b c. now apply kd_compare__trans.
  - intros a b c Hab Hba Hbc Hcb.
    apply (kd_compare__unordered K m_pred).
    pose proof (proj1 (kd_compare__unordered K m_pred (K - 1) I a b)
                  (conj Hab Hba)) as H1.
    pose proof (proj1 (kd_compare__unordered K m_pred (K - 1) I b c)
                  (conj Hbc Hcb)) as H2.
    intros j Hj. destruct (H1 j Hj) as [A1 A2]. destruct (H2 j Hj) as [B1 B2].
    exact (Hequiv _ _ _ A1 A2 B1 B2).
Qed.

Lemma kd_compare_strict_weak_order_witness :
  detail.kd_compare 2 Z.gtb 0 [3; 1]%Z [2; 5]%Z = true
  /\ detail.kd_compare 2 Z.gtb 0 [2; 5]%Z [2; 4]%Z = true
  /\ detail.kd_compare 2 Z.gtb 0 [3; 1]%Z [2; 4]%Z = true.
Proof.
  assert (Hgt : forall x y, (x >? y)%Z = true <-> (y < x)%Z)
    by (intros x y; rewrite Z.gtb_ltb; apply Z.ltb_lt).
  assert (Hle : forall x y, (x >? y)%Z = false <-> (x <= y)%Z)
    by (intros x y; rewrite Z.gtb_ltb; apply Z.ltb_ge).
  split; [reflexivity|]. split; [reflexivity|].
  refine (proj1 (proj2 (kd_compare_strict_weak_order 2 Z.gtb 0 _ _ _))
            [3; 1]%Z [2; 5]%Z [2; 4]%Z eq_refl eq_refl).
  - intros x. apply Hle. lia.
  - intros x y z H1 H2. apply Hgt in H1, H2. apply Hgt. lia.
  - intros x y z H1 H2 H3 H4. apply Hle in H1, H2, H3, H4.
    split; apply Hle; lia.
Defined.

(** ** The best-queue keeps the smallest keys *)

Section NBestSmallest.
Variable n : nat.

(** What the queue holds once the pairs [seen] have been offered to it. *)
Local Abbreviation kept b seen :=
  (detail.m_n b = n
   /\ heap_ordered (detail.q b)
   /\ length (detail.q b) = Nat.min n (length seen)
   /\ exists dropped,
        Permutation seen (detail.q b ++ dropped)
        /\ forall d e, In d dropped -> In e (detail.q b) ->
             dlt (fst d) (fst e) = false).

Lemma kept_perm b seen seen' :
  Permutation seen seen' -> kept b seen -> kept b seen'.
Proof.
  intros Hp (Hn & Hord & Hlen & dropped & Hperm & Hge).
  split; [exact Hn|]. split; [exact Hord|].
  split; [now rewrite <- (Permutation_length Hp)|].
  exists dropped. split; [|exact Hge].
  etransitivity; [symmetry; exact Hp|exact Hperm].
Qed.

Lemma kept_add b seen dist it :
  kept b seen -> kept (detail.add dist it b) ((dist, it) :: seen).
Proof.
  intros (Hn & Hord & Hlen & dropped & Hperm & Hge).
  pose proof (Permutation_length Hperm) as Hcount.
  rewrite length_app in Hcount.
  unfold detail.add. cbn [detail.m_n detail.q]. rewrite Hn.
  pose proof (emplace_perm (dist, it) (detail.q b)) as Hperm1.
  pose proof (emplace_ordered (dist, it) _ Hord) as Hord1.
  pose proof (emplace_length (dist, it) (detail.q b)) as Hlen1.
  split; [reflexivity|].
  destruct (n <? length (detail.emplace (dist, it) (detail.q b))) eqn:Efull.
  - (* the queue was full: the top is popped *)
    apply Nat.ltb_lt in Efull. rewrite Hlen1 in Efull.
    assert (Hfull : length (detail.q b) = n) by lia.
    split; [now apply tl_ordered|].
    split.
    { destruct (detail.emplace (dist, it) (detail.q b)) as [|top rest];
        cbn [length tl] in *; lia. }
    destruct (detail.q b) as [|h t] eqn:Eq; cbn [detail.emplace fst] in *.
    + exists ((dist, it) :: dropped). cbn [tl app].
      split; [now constructor|]. intros d e _ [].
    + destruct (dlt (fst h) dist) eqn:Ecmp.
      * exists ((dist, it) :: dropped). cbn [tl].
        split.
        { etransitivity; [apply perm_skip; exact Hperm|].
          apply Permutation_middle. }
        intros d e [<-|Hd] He.
        -- inversion Hord1 as [|? ? _ Htop]; subst.
           rewrite Forall_forall in Htop. exact (Htop e He).
        -- now apply Hge.
      * exists (h :: dropped). cbn [tl].
        split.
        { etransitivity; [apply perm_skip; exact Hperm|].
          cbn [app]. etransitivity; [apply perm_swap|].
          etransitivity; [|apply Permutation_middle].
          apply perm_skip.
          etransitivity; [|apply Permutation_app_tail, emplace_perm].
          reflexivity. }
        intros d e [<-|Hd] He.
        -- inversion Hord1 as [|? ? _ Htop]; subst.
           rewrite Forall_forall in Htop. exact (Htop e He).
        -- apply emplace_In in He. destruct He as [->|He].
           ++ cbn [fst].
              apply (dlt_ge_trans _ (fst h));
                [apply Hge; [exact Hd|now left]|exact Ecmp].
           ++ apply Hge; [exact Hd|now right].
  - (* room is left: nothing has been dropped so far *)
    apply Nat.ltb_ge in Efull. rewrite Hlen1 in Efull.
    assert (Hnone : dropped = [])
      by (destruct dropped; [reflexivity|cbn [length] in Hcount; lia]).
    subst dropped. rewrite app_nil_r in Hperm.
    split; [exact Hord1|].
    split; [rewrite Hlen1; cbn [length]; lia|].
    exists []. rewrite app_nil_r.
    split; [|intros d e []].
    etransitivity; [apply perm_skip; exact Hperm|exact Hperm1].
Qed.

Lemma kept_fold es :
  forall b seen,
    kept b seen ->
    kept (fold_left (fun b e => detail.add (fst e) (snd e) b) es b)
      (es ++ seen).
Proof.
  induction es as [|[dist it] es IH]; intros b seen Hb; cbn [fold_left app].
  - exact Hb.
  - apply (kept_perm _ (es ++ (dist, it) :: seen)).
    + symmetry. apply Permutation_middle.
    + apply IH. cbn [fst snd]. now apply kept_add.
Qed.

End NBestSmallest.

(** X7.  A queue of capacity [n] that has been offered the pairs [es] by
    [add], starting empty, holds [min(n, |es|)] of them in the order [pop]
    removes them, and every pair it has dropped has a key at least as large
    as every key it still holds: it keeps [n] pairs with the smallest
    keys. *)
Theorem n_best_keeps_smallest (n : nat) (es : list (double * nat)) :
  let b := fold_left (fun b e => detail.add (fst e) (snd e) b) es
             (detail.n_best_new n) in
  heap_ordered (detail.q b)
  /\ length (detail.q b) = Nat.min n (length es)
  /\ exists dropped,
       Permutation es (detail.q b ++ dropped)
       /\ forall d e, In d dropped -> In e (detail.q b) ->
            dlt (fst d) (fst e) = false.
Proof.
  intros b.
  assert (H0 : detail.m_n (detail.n_best_new n) = n
               /\ heap_ordered (detail.q (detail.n_best_new n))
               /\ length (detail.q (detail.n_best_new n)) = Nat.min n 0
               /\ exists dropped,
                    Permutation [] (detail.q (detail.n_best_new n) ++ dropped)
                    /\ forall d e, In d dropped ->
                         In e (detail.q (detail.n_best_new n)) ->
                         dlt (fst d) (fst e) = false).
  { cbn. split; [reflexivity|]. split; [constructor|].
    split; [lia|]. exists []. split; [constructor|]. intros d e []. }
  pose proof (kept_fold n es _ [] H0) as H. fold b in H.
  rewrite app_nil_r in H. destruct H as (_ & Hord & Hlen & Hdrop).
  split; [exact Hord|]. split; [exact Hlen|exact Hdrop].
Qed.

(** ** What [max_key] answers, and the pruning test of [knn] *)

Lemma abs_le_key_ge (d : Z) (a b : double) :
  abs_le d a = true -> dlt b a = false -> abs_le d b = true.
Proof.
  destruct b as [y|]; [|reflexivity].
  destruct a as [x|]; cbn [abs_le dlt]; [|discriminate].
  intros H1 H2. apply Z.leb_le in H1. apply Z.ltb_ge in H2.
  apply Z.leb_le. lia.
Qed.

(** C1.  [max_key] answers [numeric_limits<Key>::max()] only while the
    queue is empty.  A queue of capacity [n] that was offered the pairs
    [es], no more than [n] of them, holds them all, and [max_key] is then
    the largest of the keys offered, also when fewer than [n] are held.
    When [knn] comes to the test before the far side with a queue that is
    not full, the entry of the pivot, added before the near side was
    searched, is still in the queue, so [max_key] is not below the distance
    computed for the pivot: the far side is searched provided the distance
    along the axis is not above that distance. *)
Theorem max_key_largest_key_held :
  (forall n es,
     let b := fold_left (fun b e => detail.add (fst e) (snd e) b) es
                (detail.n_best_new n) in
     (es = [] -> detail.max_key b = DBL_MAX)
     /\ (es <> [] -> length es <= n ->
         length (detail.q b) = length es
         /\ (exists e, In e es /\ detail.max_key b = fst e)
         /\ (forall e, In e es -> dlt (detail.max_key b) (fst e) = false)))
  /\ (forall K data past_end fuel I first last value b,
        heap_ordered (detail.q b) ->
        let pivot := value_of (detail.find_pivot data past_end I first last) in
        let pv := nth pivot data past_end in
        let b1 := detail.add (detail.l2dist K pv value) pivot b in
        let b2 :=
          value_of
            (if detail.less_nth I value pv
             then detail.knn K data past_end fuel (detail.incr_wrap K I)
                    first pivot value b1
             else detail.knn K data past_end fuel (detail.incr_wrap K I)
                    (S pivot) last value b1) in
        length (detail.q b2) < detail.m_n b2 ->
        In (detail.l2dist K pv value, pivot) (detail.q b2)
        /\ dlt (detail.max_key b2) (detail.l2dist K pv value) = false
        /\ (abs_le (get I value - get I pv) (detail.l2dist K pv value) = true
            -> abs_le (get I value - get I pv) (detail.max_key b2) = true)).
Proof.
  split.
  - intros n es b. split; [intros ->; reflexivity|].
    intros Hne Hlen.
    assert (H0 : detail.m_n (detail.n_best_new n) = n
                 /\ heap_ordered (detail.q (detail.n_best_new n))
                 /\ length (detail.q (detail.n_best_new n)) = Nat.min n 0
                 /\ exists dropped,
                      Permutation []
                        (detail.q (detail.n_best_new n) ++ dropped)
                      /\ forall d e, In d dropped ->
                           In e (detail.q (detail.n_best_new n)) ->
                           dlt (fst d) (fst e) = false).
    { cbn. split; [reflexivity|]. split; [constructor|].
      split; [lia|]. exists []. split; [constructor|]. intros d e []. }
    pose proof (kept_fold n es _ [] H0) as H. fold b in H.
    rewrite app_nil_r in H.
    destruct H as (_ & Hord & Hcount & dropped & Hperm & _).
    rewrite Nat.min_r in Hcount by lia.
    assert (Hnone : dropped = []).
    { pose proof (Permutation_length Hperm) as Hl.
      rewrite length_app in Hl.
      destruct dropped; [reflexivity|cbn [length] in Hl; lia]. }
    subst dropped. rewrite app_nil_r in Hperm.
    split; [exact Hcount|]. split.
    + unfold detail.max_key.
      destruct (detail.q b) as [|top rest] eqn:Eq.
      * destruct es; [congruence|cbn in Hcount; lia].
      * exists top. split; [|reflexivity].
        apply (Permutation_in top (Permutation_sym Hperm)). now left.
    + intros e He. apply max_key_ge; [exact Hord|].
      exact (Permutation_in e Hperm He).
  - intros K data past_end fuel I first last value b Hb pivot pv b1 b2 Hlen.
    assert (H1 : evolves K data past_end value b b1) by apply evolves_add.
    assert (H2 : evolves K data past_end value b1 b2).
    { subst b2. destruct (detail.less_nth I value pv); apply knn_evolves. }
    destruct H1 as (Hn1 & _ & Ho1 & _ & _ & _).
    destruct H2 as (Hn2 & Hl2 & Ho2 & _ & _ & Hi2).
    assert (Hin : In (detail.l2dist K pv value, pivot) (detail.q b2)).
    { assert (Hb1 : length (detail.q b1) < detail.m_n b)
        by (rewrite Hn2, Hn1 in Hlen; lia).
      apply Hi2; [assumption|].
      unfold b1 in *. rewrite (add_not_full _ _ _ Hb1).
      apply emplace_In. now left. }
    pose proof (max_key_ge b2 _ (Ho2 (Ho1 Hb)) Hin) as Hge.
    cbn [fst] in Hge.
    split; [exact Hin|]. split; [exact Hge|].
    intros Hax. exact (abs_le_key_ge _ _ _ Hax Hge).
Qed.

Lemma max_key_largest_key_held_witness :
  let data := [[1; 1]; [2; 2]; [3; 3]]%Z in
  let value := [0; 0]%Z in
  let b := detail.n_best_new 3 in
  let pivot := value_of (detail.find_pivot data [] 0 0 3) in
  let pv := nth pivot data [] in
  let b1 := detail.add (detail.l2dist 2 pv value) pivot b in
  let b2 := value_of (detail.knn 2 data [] 3 1 0 pivot value b1) in
  heap_ordered (detail.q b)
  /\ length (detail.q b2) < detail.m_n b2
  /\ detail.max_key b2 = Sqrt 8
  /\ In (detail.l2dist 2 pv value, pivot) (detail.q b2)
  /\ dlt (detail.max_key b2) (detail.l2dist 2 pv value) = false.
Proof.
  assert (Hlen :
    length
      (detail.q
         (value_of
            (detail.knn 2 [[1; 1]; [2; 2]; [3; 3]]%Z [] 3 1 0 1 [0; 0]%Z
               (detail.add (Sqrt 8) 1 (detail.n_best_new 3))))) < 3)
    by (cbv; lia).
  destruct (proj2 max_key_largest_key_held
              2 [[1; 1]; [2; 2]; [3; 3]]%Z [] 3 0 0 3 [0; 0]%Z
              (detail.n_best_new 3) ltac:(constructor) Hlen)
    as (Hin & Hge & _).
  split; [constructor|]. split; [exact Hlen|].
  split; [reflexivity|]. split; [exact Hin|exact Hge].
Defined.

(** ** [kd_upper_bound] and [kd_equal_range] *)

Section UpperBound.
Variables (K : nat) (data : list tuple) (past_end value : tuple).

Local Abbreviation above :=
  (fun j => detail.all_less K value (nth j data past_end)).

Lemma none_less_all_less_absurd (x pv : tuple) :
  detail.none_less K value pv = true -> detail.all_less K value x = true ->
  detail.none_less K x pv = true /\ detail.none_less K pv x = false.
Proof.
  intros Hpv Hx. rewrite none_less_spec in Hpv. rewrite all_less_spec in Hx.
  split.
  - apply none_less_spec. intros i Hi.
    specialize (Hpv i Hi). specialize (Hx i Hi). lia.
  - apply not_true_is_false. rewrite none_less_spec. intros H.
    specialize (H 0 ltac:(lia)). specialize (Hpv 0 ltac:(lia)).
    specialize (Hx 0 ltac:(lia)). lia.
Qed.

Lemma kd_upper_bound_leftmost :
  undominated K data ->
  forall fuel I first last,
    last - first <= fuel -> first <= last <= length data ->
    let p := value_of (detail.kd_upper_bound K data past_end fuel I first last
                         value) in
    first <= p <= last
    /\ (p < last -> above p = true)
    /\ (forall j, first <= j < p -> above j = false).
Proof.
  intros Hund.
  assert (Hbase : forall first last,
    last - first <= 1 -> first <= last ->
    let p := value_of (x <- deref data past_end first ;;
                       ret (if detail.all_less K value x
                            then first else last)) in
    first <= p <= last
    /\ (p < last -> above p = true)
    /\ (forall j, first <= j < p -> above j = false)).
  { intros first last H1 H2.
    rewrite value_of_bind, value_of_ret, value_of_deref. cbv zeta.
    destruct (detail.all_less K value (nth first data past_end)) eqn:E.
    - repeat split; try lia. intros _. exact E.
    - repeat split; try lia. intros j Hj.
      now replace j with first by lia. }
  induction fuel as [|fuel IH]; intros I first last Hfuel Hrange;
    cbn [detail.kd_upper_bound].
  - apply Hbase; lia.
  - destruct (Nat.ltb_spec 1 (last - first)) as [Hbig|Hsmall];
      [|apply Hbase; lia].
    rewrite !value_of_bind.
    pose proof (find_pivot_bounds data past_end I first last ltac:(lia))
      as Hpiv.
    set (pivot := value_of (detail.find_pivot data past_end I first last))
      in *.
    rewrite value_of_deref.
    pose proof (IH (detail.incr_wrap K I) first pivot ltac:(lia) ltac:(lia))
      as HL.
    pose proof (IH (detail.incr_wrap K I) (S pivot) last ltac:(lia)
                  ltac:(lia)) as HR.
    cbv zeta in HL, HR.
    set (L := value_of (detail.kd_upper_bound K data past_end fuel
                          (detail.incr_wrap K I) first pivot value)) in *.
    set (R := value_of (detail.kd_upper_bound K data past_end fuel
                          (detail.incr_wrap K I) (S pivot) last value)) in *.
    destruct HL as (HL1 & HL2 & HL3). destruct HR as (HR1 & HR2 & HR3).
    destruct (detail.all_less K value (nth pivot data past_end)) eqn:Epv.
    + (* the pivot qualifies: the answer is before it or is the pivot *)
      cbv zeta. fold L. repeat split; try lia.
      * intros _. destruct (Nat.eq_dec L pivot) as [->|Hne];
          [exact Epv|apply HL2; lia].
      * assumption.
    + destruct (detail.none_less K value (nth pivot data past_end)) eqn:Enone.
      * (* nothing before the pivot qualifies *)
        cbv zeta. fold R. repeat split; try lia; [assumption|].
        intros j Hj.
        destruct (Nat.lt_trichotomy j pivot) as [Hlt|[->|Hgt]].
        -- apply not_true_is_false. intros Hj'.
           destruct (none_less_all_less_absurd _ _ Enone Hj')
             as [Habove Hnot].
           rewrite (Hund j pivot past_end ltac:(lia) Habove) in Hnot.
           discriminate.
        -- exact Epv.
        -- apply HR3. lia.
      * rewrite !value_of_bind, value_of_deref. fold L.
        destruct (detail.all_less K value (nth L data past_end)) eqn:EL.
        -- rewrite value_of_ret. cbv zeta.
           repeat split; try lia; [intros _; exact EL|assumption].
        -- assert (L = pivot).
           { destruct (Nat.eq_dec L pivot) as [|Hne]; [assumption|].
             specialize (HL2 ltac:(lia)). cbv beta in HL2. congruence. }
           subst L.
           rewrite !value_of_bind, value_of_deref. fold R.
           assert (Hnone : forall j, first <= j < R -> above j = false).
           { intros j Hj.
             destruct (Nat.lt_trichotomy j pivot) as [Hlt|[->|Hgt]].
             - apply HL3. lia.
             - exact Epv.
             - apply HR3. lia. }
           destruct (detail.all_less K value (nth R data past_end)) eqn:ER.
           ++ rewrite value_of_ret. cbv zeta.
              repeat split; try lia; [intros _; exact ER|assumption].
           ++ assert (R = last).
              { destruct (Nat.eq_dec R last) as [|Hne]; [assumption|].
                specialize (HR2 ltac:(lia)). cbv beta in HR2. congruence. }
              rewrite value_of_ret. cbv zeta.
              repeat split; try lia. intros j Hj. apply Hnone. lia.
Qed.

Lemma kd_upper_bound_first_above :
  undominated K data ->
  let last := length data in
  let p := value_of (kd_upper_bound K data past_end 0 last value) in
  p <= last
  /\ (p = last \/ detail.all_less K value (nth p data past_end) = true)
  /\ (forall j, j < p ->
        detail.all_less K value (nth j data past_end) = false).
Proof.
  intros Hund last p.
  destruct (kd_upper_bound_leftmost Hund
              (last - 0) 0 0 last ltac:(lia) ltac:(unfold last; lia))
    as (H1 & H2 & H3).
  fold (kd_upper_bound K data past_end 0 last value) in H1, H2, H3.
  fold p in H1, H2, H3.
  split; [lia|]. split.
  - destruct (Nat.eq_dec p last) as [|Hne]; [now left|right].
    apply H2. lia.
  - intros j Hj. apply H3. lia.
Qed.

End UpperBound.

Lemma none_less_both_components (K : nat) (a b : tuple) :
  0 < K ->
  detail.none_less K a b = true /\ detail.none_less K b a = true
  <-> components K a = components K b.
Proof.
  intros HK. rewrite !none_less_spec, components_eq_iff. split.
  - intros [H1 H2] j Hj.
    specialize (H1 j ltac:(lia)). specialize (H2 j ltac:(lia)). lia.
  - intros H. split; intros i Hi; rewrite (H i) by lia; lia.
Qed.

Lemma kd_sort_undominated
  (K : nat)
  (nth_element : (tuple -> tuple -> bool) -> nat -> list tuple -> list tuple)
  (partition : (tuple -> bool) -> list tuple -> list tuple * nat)
  (l : list tuple) :
  0 < K -> nth_element_post K nth_element -> partition_post partition ->
  undominated K (kd_sort K nth_element partition l).
Proof.
  intros HK Hnth Hpart.
  apply (kd_layout_undominated K HK 0); [|exact HK].
  unfold kd_sort.
  apply (kd_sort_at K partition Hpart nth_element Hnth HK); lia.
Qed.

(** X8.  On a sequence in k-d order, a run of [kd_upper_bound] that
    dereferences positions of the sequence only returns the leftmost
    position whose tuple is greater than [value] on every axis, or [last]
    when there is none.  (The runs that dereference [last] are left out:
    that read is outside the sequence.) *)
Theorem kd_upper_bound_correct
  (K : nat) (data : list tuple) (past_end value : tuple) :
  0 < K ->
  kd_ordered K data = true ->
  reads_inside data (kd_upper_bound K data past_end 0 (length data) value) ->
  let last := length data in
  let p := value_of (kd_upper_bound K data past_end 0 last value) in
  p <= last
  /\ (p = last \/ detail.all_less K value (nth p data past_end) = true)
  /\ (forall j, j < p ->
        detail.all_less K value (nth j data past_end) = false).
Proof.
  intros HK Hord _.
  apply kd_upper_bound_first_above.
  apply (kd_layout_undominated K HK 0); [|exact HK].
  now apply kd_ordered_layout.
Qed.

Lemma kd_upper_bound_correct_witness :
  let data := [[1; 5]; [2; 9]; [3; 6]; [5; 2]; [4; 4]]%Z in
  let value := [3; 2]%Z in
  0 < 2
  /\ kd_ordered 2 data = true
  /\ reads_inside data (kd_upper_bound 2 data [] 0 (length data) value)
  /\ value_of (kd_upper_bound 2 data [] 0 5 value) = 4
  /\ detail.all_less 2 value (nth 4 data []) = true
  /\ (forall j, j < 4 -> detail.all_less 2 value (nth j data []) = false).
Proof.
  assert (Hin : reads_inside [[1; 5]; [2; 9]; [3; 6]; [5; 2]; [4; 4]]%Z
                  (kd_upper_bound 2 [[1; 5]; [2; 9]; [3; 6]; [5; 2]; [4; 4]]%Z
                     [] 0 5 [3; 2]%Z))
    by (apply reads_inside_check; reflexivity).
  pose proof (kd_upper_bound_correct 2
                [[1; 5]; [2; 9]; [3; 6]; [5; 2]; [4; 4]]%Z []
                [3; 2]%Z ltac:(lia) eq_refl Hin) as H.
  cbv zeta in H. destruct H as (_ & _ & H).
  split; [lia|]. split; [reflexivity|]. split; [exact Hin|].
  split; [reflexivity|]. split; [reflexivity|exact H].
Defined.

(** X9.  On the outcome of [kd_sort], duplicates included, the two positions
    that a run of [kd_equal_range] returns which dereferences positions of
    the sequence only bracket every occurrence of [value]: the lower bound
    is not behind the upper bound, and each position holding a tuple that
    agrees with [value] on all [K] components lies at or behind the lower
    bound and before the upper bound. *)
Theorem kd_equal_range_brackets_value
  (K : nat)
  (nth_element : (tuple -> tuple -> bool) -> nat -> list tuple -> list tuple)
  (partition : (tuple -> bool) -> list tuple -> list tuple * nat)
  (l : list tuple) (past_end value : tuple) :
  0 < K ->
  nth_element_post K nth_element ->
  partition_post partition ->
  let data := kd_sort K nth_element partition l in
  reads_inside data (kd_equal_range K data past_end 0 (length data) value) ->
  let r := value_of (kd_equal_range K data past_end 0 (length data) value) in
  fst r <= snd r <= length data
  /\ forall j, j < length data ->
       components K (nth j data past_end) = components K value ->
       fst r <= j < snd r.
Proof.
  intros HK Hnth Hpart data _ r.
  pose proof (kd_sort_undominated K nth_element partition l HK Hnth Hpart)
    as Hund.
  fold data in Hund.
  destruct (kd_lower_bound_first_hit K data past_end value Hund)
    as (Hlo1 & Hlo2 & Hlo3).
  destruct (kd_upper_bound_first_above K data past_end value Hund)
    as (Hhi1 & Hhi2 & Hhi3).
  unfold r, kd_equal_range.
  rewrite !value_of_bind, value_of_ret. cbn [fst snd].
  set (lo := value_of (kd_lower_bound K data past_end 0 (length data) value))
    in *.
  set (hi := value_of (kd_upper_bound K data past_end 0 (length data) value))
    in *.
  assert (Hge : forall j,
             detail.all_less K value (nth j data past_end) = true ->
             detail.none_less K (nth j data past_end) value = true).
  { intros j. rewrite all_less_spec, none_less_spec.
    intros H i Hi. specialize (H i Hi). lia. }
  split.
  - split; [|exact Hhi1].
    destruct Hhi2 as [->|Hhi2]; [exact Hlo1|].
    destruct (le_lt_dec lo hi) as [|Hlt]; [assumption|].
    specialize (Hge hi Hhi2). rewrite (Hlo3 hi Hlt) in Hge. discriminate.
  - intros j Hj Heq.
    apply (none_less_both_components K _ _ HK) in Heq.
    destruct Heq as [Hjv Hvj].
    split.
    + destruct (le_lt_dec lo j) as [|Hlt]; [assumption|].
      rewrite (Hlo3 j Hlt) in Hjv. discriminate.
    + destruct (le_lt_dec (S j) hi) as [|Hle]; [lia|].
      destruct Hhi2 as [->|Hhi2]; [lia|].
      assert (Hnot : detail.all_less K value (nth j data past_end) = false).
      { apply not_true_is_false. rewrite all_less_spec. intros H.
        rewrite none_less_spec in Hvj.
        specialize (H 0 ltac:(lia)). specialize (Hvj 0 ltac:(lia)). lia. }
      destruct (Nat.eq_dec hi j) as [->|Hne]; [congruence|].
      destruct (none_less_all_less_absurd K value _ _ Hvj Hhi2)
        as [Habove Hbelow].
      rewrite (Hund hi j past_end ltac:(lia) Habove) in Hbelow.
      discriminate.
Qed.

Lemma kd_equal_range_brackets_value_witness :
  let l := [[3; 6]; [1; 5]; [5; 2]; [2; 9]; [4; 4]; [5; 2]; [0; 0]]%Z in
  let data := kd_sort 2 nth_element_by_sort partition_stable l in
  let r := value_of (kd_equal_range 2 data [] 0 (length data) [1; 5]%Z) in
  0 < 2
  /\ nth_element_post 2 nth_element_by_sort
  /\ partition_post partition_stable
  /\ data = [[0; 0]; [1; 5]; [2; 9]; [3; 6]; [5; 2]; [4; 4]; [5; 2]]%Z
  /\ reads_inside data (kd_equal_range 2 data [] 0 (length data) [1; 5]%Z)
  /\ r = (1, 2)
  /\ fst r <= snd r <= length data.
Proof.
  assert (Hin :
    reads_inside
      (kd_sort 2 nth_element_by_sort partition_stable
         [[3; 6]; [1; 5]; [5; 2]; [2; 9]; [4; 4]; [5; 2]; [0; 0]]%Z)
      (kd_equal_range 2
         (kd_sort 2 nth_element_by_sort partition_stable
            [[3; 6]; [1; 5]; [5; 2]; [2; 9]; [4; 4]; [5; 2]; [0; 0]]%Z)
         [] 0
         (length
            (kd_sort 2 nth_element_by_sort partition_stable
               [[3; 6]; [1; 5]; [5; 2]; [2; 9]; [4; 4]; [5; 2]; [0; 0]]%Z))
         [1; 5]%Z))
    by (apply reads_inside_check; reflexivity).
  pose proof (kd_equal_range_brackets_value 2 nth_element_by_sort
                partition_stable
                [[3; 6]; [1; 5]; [5; 2]; [2; 9]; [4; 4]; [5; 2]; [0; 0]]%Z
                [] [1; 5]%Z ltac:(lia) (nth_element_by_sort_post 2)
                partition_stable_post Hin) as H.
  cbv zeta in H. destruct H as [H _].
  split; [lia|]. split; [apply nth_element_by_sort_post|].
  split; [apply partition_stable_post|].
  split; [reflexivity|]. split; [exact Hin|].
  split; [reflexivity|exact H].
Defined.

(** X10.  Sorting and then searching decides membership: on the outcome of
    [kd_sort], a run of [kd_binary_search] that dereferences positions of
    the sequence only returns true exactly when some tuple of the sequence
    that was sorted agrees with [value] on all [K] components. *)
Theorem kd_binary_search_after_kd_sort
  (K : nat)
  (nth_element : (tuple -> tuple -> bool) -> nat -> list tuple -> list tuple)
  (partition : (tuple -> bool) -> list tuple -> list tuple * nat)
  (l : list tuple) (past_end value : tuple) :
  0 < K ->
  nth_element_post K nth_element ->
  partition_post partition ->
  let data := kd_sort K nth_element partition l in
  reads_inside data (kd_binary_search K data past_end 0 (length data) value) ->
  (value_of (kd_binary_search K data past_end 0 (length data) value) = true
   <-> exists x, In x l /\ components K x = components K value).
Proof.
  intros HK Hnth Hpart data _.
  pose proof (kd_sort_undominated K nth_element partition l HK Hnth Hpart)
    as Hund.
  fold data in Hund.
  assert (Hperm : Permutation l data).
  { unfold data, kd_sort.
    apply (kd_sort_at K partition Hpart nth_element Hnth HK); lia. }
  destruct (kd_binary_search_exists K data past_end value Hund) as [Hiff _].
  rewrite Hiff. split.
  - intros (x & Hx & Hvx & Hxv). exists x. split.
    + apply (Permutation_in x (Permutation_sym Hperm) Hx).
    + now apply none_less_both_components.
  - intros (x & Hx & Heq). exists x.
    apply (none_less_both_components K _ _ HK) in Heq.
    split; [apply (Permutation_in x Hperm Hx)|].
    split; apply Heq.
Qed.

Lemma kd_binary_search_after_kd_sort_witness :
  let l := [[3; 6]; [1; 5]; [5; 2]; [2; 9]; [4; 4]; [5; 2]; [0; 0]]%Z in
  let data := kd_sort 2 nth_element_by_sort partition_stable l in
  0 < 2
  /\ nth_element_post 2 nth_element_by_sort
  /\ partition_post partition_stable
  /\ reads_inside data (kd_binary_search 2 data [] 0 (length data) [3; 6]%Z)
  /\ value_of (kd_binary_search 2 data [] 0 (length data) [3; 6]%Z) = true
  /\ (value_of (kd_binary_search 2 data [] 0 (length data) [3; 6]%Z) = true
      <-> exists x, In x l /\ components 2 x = components 2 [3; 6]%Z).
Proof.
  assert (Hin :
    reads_inside
      (kd_sort 2 nth_element_by_sort partition_stable
         [[3; 6]; [1; 5]; [5; 2]; [2; 9]; [4; 4]; [5; 2]; [0; 0]]%Z)
      (kd_binary_search 2
         (kd_sort 2 nth_element_by_sort partition_stable
            [[3; 6]; [1; 5]; [5; 2]; [2; 9]; [4; 4]; [5; 2]; [0; 0]]%Z)
         [] 0
         (length
            (kd_sort 2 nth_element_by_sort partition_stable
               [[3; 6]; [1; 5]; [5; 2]; [2; 9]; [4; 4]; [5; 2]; [0; 0]]%Z))
         [3; 6]%Z))
    by (apply reads_inside_check; reflexivity).
  split; [lia|]. split; [apply nth_element_by_sort_post|].
  split; [apply partition_stable_post|].
  split; [exact Hin|]. split; [reflexivity|].
  exact (kd_binary_search_after_kd_sort 2 nth_element_by_sort
           partition_stable
           [[3; 6]; [1; 5]; [5; 2]; [2; 9]; [4; 4]; [5; 2]; [0; 0]]%Z
           [] [3; 6]%Z ltac:(lia) (nth_element_by_sort_post 2)
           partition_stable_post Hin).
Defined.

(** X26.  On a sequence in k-d order, as long as a run of
    [kd_binary_search] dereferences positions of the sequence only, the
    [kd_lower_bound] it starts with returns the leftmost position whose
    tuple is not below [value] on any axis, or [last] when there is none,
    and [kd_binary_search] returns true exactly when some tuple of the
    sequence is not below [value] and not above it on any axis. *)
Theorem kd_searches_in_kd_order
  (K : nat) (data : list tuple) (past_end value : tuple) :
  0 < K ->
  kd_ordered K data = true ->
  let last := length data in
  reads_inside data (kd_binary_search K data past_end 0 last value) ->
  let p := value_of (kd_lower_bound K data past_end 0 last value) in
  p <= last
  /\ (p = last \/ detail.none_less K (nth p data past_end) value = true)
  /\ (forall j, j < p ->
        detail.none_less K (nth j data past_end) value = false)
  /\ (value_of (kd_binary_search K data past_end 0 last value) = true
      <-> exists x, In x data
                    /\ detail.none_less K value x = true
                    /\ detail.none_less K x value = true).
Proof.
  intros HK Hord last _ p.
  assert (Hund : undominated K data).
  { apply (kd_layout_undominated K HK 0); [|exact HK].
    now apply kd_ordered_layout. }
  destruct (kd_lower_bound_first_hit K data past_end value Hund)
    as (H1 & H2 & H3).
  destruct (kd_binary_search_exists K data past_end value Hund) as [Hiff _].
  split; [exact H1|]. split; [exact H2|]. split; [exact H3|exact Hiff].
Qed.

Lemma kd_searches_in_kd_order_witness :
  let data := [[1; 5]; [2; 9]; [3; 6]; [5; 2]; [4; 4]]%Z in
  let value := [4; 4]%Z in
  0 < 2
  /\ kd_ordered 2 data = true
  /\ reads_inside data (kd_binary_search 2 data [] 0 (length data) value)
  /\ value_of (kd_lower_bound 2 data [] 0 (length data) value) = 4
  /\ value_of (kd_binary_search 2 data [] 0 (length data) value) = true
  /\ (forall j, j < 4 -> detail.none_less 2 (nth j data []) value = false).
Proof.
  assert (Hin : reads_inside [[1; 5]; [2; 9]; [3; 6]; [5; 2]; [4; 4]]%Z
                  (kd_binary_search 2
                     [[1; 5]; [2; 9]; [3; 6]; [5; 2]; [4; 4]]%Z [] 0 5
                     [4; 4]%Z))
    by (apply reads_inside_check; reflexivity).
  pose proof (kd_searches_in_kd_order 2
                [[1; 5]; [2; 9]; [3; 6]; [5; 2]; [4; 4]]%Z [] [4; 4]%Z
                ltac:(lia) eq_refl Hin) as H.
  cbv zeta in H. destruct H as (_ & _ & H & _).
  split; [lia|]. split; [reflexivity|]. split; [exact Hin|].
  split; [reflexivity|]. split; [reflexivity|exact H].
Defined.

(** ** Where the descents read *)

Lemma Forall_range_weaken (a b a' b' : nat) (l : list nat) :
  a' <= a -> b <= b' ->
  Forall (fun x => a <= x < b) l -> Forall (fun x => a' <= x < b') l.
Proof.
  intros Ha Hb H. eapply Forall_impl; [|exact H]. cbv beta. intros x Hx. lia.
Qed.

Section Reads.
Variables (K : nat) (data : list tuple) (past_end : tuple).

Lemma partition_point_loop_reads (pred : tuple -> bool)
  (fuel first len : nat) :
  Forall (fun x => first <= x < first + len)
    (reads_of (std.partition_point_loop data past_end fuel first len pred)).
Proof.
  revert first len.
  induction fuel as [|fuel IH]; intros first len;
    cbn [std.partition_point_loop].
  - constructor.
  - destruct (Nat.eqb_spec len 0) as [->|Hlen]; [constructor|].
    rewrite reads_of_bind, reads_of_deref, value_of_deref.
    assert (len / 2 < len) by (apply Nat.div_lt; lia).
    constructor; [lia|].
    destruct (pred _).
    + eapply Forall_range_weaken; [| |apply IH]; lia.
    + eapply Forall_range_weaken; [| |apply IH]; lia.
Qed.

Lemma find_pivot_reads (I first last : nat) :
  first < last ->
  Forall (fun x => first <= x < last)
    (reads_of (detail.find_pivot data past_end I first last)).
Proof.
  intros H. unfold detail.find_pivot, std.partition_point.
  rewrite reads_of_bind, reads_of_deref.
  pose proof (midpos_lt first last H) as Hm.
  constructor; [lia|].
  eapply Forall_range_weaken; [| |apply partition_point_loop_reads]; lia.
Qed.

Variable value : tuple.

Lemma stays_inside_bind {A : Type} (first last : nat) (m : M A)
  (k : A -> M nat) :
  Forall (fun x => first <= x < last) (reads_of m) ->
  stays_inside first last (k (value_of m)) ->
  stays_inside first last (bind m k).
Proof.
  intros Hm (H1 & H2 & H3). unfold stays_inside.
  rewrite value_of_bind, reads_of_bind.
  split; [exact H1|]. split; [exact H2|]. apply Forall_app. now split.
Qed.

Lemma stays_inside_ret (first last r : nat) :
  (first < last -> first <= r < last) -> (last <= first -> r = first) ->
  stays_inside first last (ret r).
Proof.
  intros H1 H2. unfold stays_inside. rewrite value_of_ret, reads_of_ret.
  split; [exact H1|]. split; [exact H2|constructor].
Qed.

(** What the two recursive calls of a level contribute, whichever side is
    searched first. *)
Lemma stays_inside_sides (first pivot last : nat) (mL mR : M nat) :
  first <= pivot < last ->
  stays_inside first pivot mL -> stays_inside (S pivot) last mR ->
  forall c : bool,
    (Forall (fun x => first <= x < last) (reads_of (if c then mL else mR))
     /\ first <= value_of (if c then mL else mR) <= last)
    /\ (Forall (fun x => first <= x < last) (reads_of (if c then mR else mL))
        /\ first <= value_of (if c then mR else mL) <= last).
Proof.
  intros Hpiv (HL1 & HL2 & HL3) (HR1 & HR2 & HR3) c.
  assert (HLv : first <= value_of mL <= pivot) by lia.
  assert (HRv : S pivot <= value_of mR <= last) by lia.
  assert (HL3' : Forall (fun x => first <= x < last) (reads_of mL))
    by (eapply Forall_range_weaken; [| |exact HL3]; lia).
  assert (HR3' : Forall (fun x => first <= x < last) (reads_of mR))
    by (eapply Forall_range_weaken; [| |exact HR3]; lia).
  destruct c; (split; split; (assumption || lia)).
Qed.

Lemma kd_nearest_neighbor_inside (fuel : nat) :
  forall I first last,
    stays_inside first last
      (detail.kd_nearest_neighbor K data past_end fuel I first last value).
Proof.
  induction fuel as [|fuel IH]; intros I first last;
    cbn [detail.kd_nearest_neighbor].
  - apply stays_inside_ret; [lia|reflexivity].
  - destruct (Nat.ltb_spec 1 (last - first)) as [Hbig|Hsmall];
      [|apply stays_inside_ret; [lia|reflexivity]].
    pose proof (find_pivot_bounds data past_end I first last ltac:(lia))
      as Hpiv.
    apply stays_inside_bind; [apply find_pivot_reads; lia|].
    set (pivot := value_of (detail.find_pivot data past_end I first last))
      in *.
    apply stays_inside_bind;
      [rewrite reads_of_deref; constructor; [lia|constructor]|].
    rewrite value_of_deref.
    set (pv := nth pivot data past_end).
    destruct (stays_inside_sides first pivot last _ _ Hpiv
                (IH (detail.incr_wrap K I) first pivot)
                (IH (detail.incr_wrap K I) (S pivot) last)
                (detail.less_nth I value pv))
      as [[Hnr Hnv] [Hfr Hfv]].
    apply stays_inside_bind; [exact Hnr|].
    match type of Hnv with _ <= value_of ?m <= _ =>
      set (near := value_of m) in * end.
    assert (Hbest :
      forall best : M (nat * double),
        best = (if near =? last then ret (pivot, detail.l2dist K pv value)
                else
                  sv <- deref data past_end near ;;
                  ret (if dlt (detail.l2dist K sv value)
                            (detail.l2dist K pv value)
                       then (near, detail.l2dist K sv value)
                       else (pivot, detail.l2dist K pv value))) ->
        Forall (fun x => first <= x < last) (reads_of best)
        /\ first <= fst (value_of best) < last).
    { intros best ->. destruct (Nat.eqb_spec near last) as [Heq|Hne].
      - rewrite value_of_ret, reads_of_ret. cbn [fst].
        split; [constructor|lia].
      - rewrite value_of_bind, reads_of_bind, reads_of_deref, value_of_ret,
          reads_of_ret, value_of_deref.
        split; [constructor; [lia|constructor]|].
        destruct (dlt _ _); cbn [fst]; lia. }
    destruct (Hbest _ eq_refl) as [Hbr Hbv]. clear Hbest.
    apply stays_inside_bind; [exact Hbr|].
    match goal with
    | |- context [abs_lt _ (snd (value_of ?b))] => set (best := value_of b) in *
    end.
    destruct (abs_lt _ _); [|apply stays_inside_ret; lia].
    apply stays_inside_bind; [exact Hfr|].
    match type of Hfv with _ <= value_of ?m <= _ =>
      set (far := value_of m) in * end.
    destruct (Nat.eqb_spec far last) as [Heq|Hne];
      [apply stays_inside_ret; lia|].
    apply stays_inside_bind;
      [rewrite reads_of_deref; constructor; [lia|constructor]|].
    destruct (dlt _ _); apply stays_inside_ret; lia.
Qed.

Lemma kd_nearest_neighbor_eps_inside (eps : Q) (fuel : nat) :
  forall I first last,
    stays_inside first last
      (detail.kd_nearest_neighbor_eps K data past_end fuel I first last value
         eps).
Proof.
  destruct fuel as [|fuel]; intros I first last;
    cbn [detail.kd_nearest_neighbor_eps].
  - apply stays_inside_ret; [lia|reflexivity].
  - destruct (Nat.ltb_spec 1 (last - first)) as [Hbig|Hsmall];
      [|apply stays_inside_ret; [lia|reflexivity]].
    pose proof (find_pivot_bounds data past_end I first last ltac:(lia))
      as Hpiv.
    apply stays_inside_bind; [apply find_pivot_reads; lia|].
    set (pivot := value_of (detail.find_pivot data past_end I first last))
      in *.
    apply stays_inside_bind;
      [rewrite reads_of_deref; constructor; [lia|constructor]|].
    rewrite value_of_deref.
    set (pv := nth pivot data past_end).
    destruct (dlt_eps _ _); [apply stays_inside_ret; lia|].
    destruct (stays_inside_sides first pivot last _ _ Hpiv
                (kd_nearest_neighbor_inside fuel (detail.incr_wrap K I)
                   first pivot)
                (kd_nearest_neighbor_inside fuel (detail.incr_wrap K I)
                   (S pivot) last)
                (detail.less_nth I value pv))
      as [[Hnr Hnv] [Hfr Hfv]].
    apply stays_inside_bind; [exact Hnr|].
    match type of Hnv with _ <= value_of ?m <= _ =>
      set (near := value_of m) in * end.
    assert (Hbest :
      forall best : M (option (nat * double)),
        best = (if near =? last
                then ret (Some (pivot, detail.l2dist K pv value))
                else
                  sv <- deref data past_end near ;;
                  ret (if dlt_eps (detail.l2dist K sv value) eps then None
                       else if dlt (detail.l2dist K sv value)
                                 (detail.l2dist K pv value)
                            then Some (near, detail.l2dist K sv value)
                            else Some (pivot, detail.l2dist K pv value))) ->
        Forall (fun x => first <= x < last) (reads_of best)
        /\ match value_of best with
           | None => first <= near < last
           | Some b => first <= fst b < last
           end).
    { intros best ->. destruct (Nat.eqb_spec near last) as [Heq|Hne].
      - rewrite value_of_ret, reads_of_ret. cbn [fst].
        split; [constructor|lia].
      - rewrite value_of_bind, reads_of_bind, reads_of_deref, value_of_ret,
          reads_of_ret, value_of_deref.
        split; [constructor; [lia|constructor]|].
        destruct (dlt_eps _ _); [lia|].
        destruct (dlt _ _); cbn [fst]; lia. }
    destruct (Hbest _ eq_refl) as [Hbr Hbv]. clear Hbest.
    apply stays_inside_bind; [exact Hbr|].
    match type of Hbv with match value_of ?b with _ => _ end =>
      destruct (value_of b) as [[search min_dist]|] end;
      [|apply stays_inside_ret; lia].
    cbn [fst] in Hbv.
    destruct (abs_lt_minus _ _ _); [|apply stays_inside_ret; lia].
    apply stays_inside_bind; [exact Hfr|].
    match type of Hfv with _ <= value_of ?m <= _ =>
      set (far := value_of m) in * end.
    destruct (Nat.eqb_spec far last) as [Heq|Hne];
      [apply stays_inside_ret; lia|].
    apply stays_inside_bind;
      [rewrite reads_of_deref; constructor; [lia|constructor]|].
    destruct (dlt _ _); apply stays_inside_ret; lia.
Qed.

End Reads.

(** X11.  Both overloads of [kd_nearest_neighbor] stay inside the range they
    are given, whatever the sequence holds: they dereference positions of
    [[first, last)] only, and they return a position of the range when it
    is not empty and [first] (which is [last]) when it is.  For the overload
    with [eps] this covers the level of the call and the exact searches it
    starts on the two sides of the pivot. *)
Theorem kd_nearest_neighbor_stays_in_range
  (K : nat) (data : list tuple) (past_end : tuple) (first last : nat)
  (value : tuple) (eps : Q) :
  stays_inside first last
    (kd_nearest_neighbor K data past_end first last value)
  /\ stays_inside first last
       (kd_nearest_neighbor_eps K data past_end first last value eps).
Proof.
  unfold kd_nearest_neighbor, kd_nearest_neighbor_eps. split.
  - apply kd_nearest_neighbor_inside.
  - apply kd_nearest_neighbor_eps_inside.
Qed.

Lemma within_bind {A : Type} (first last : nat) (m : M A) (k : A -> M nat) :
  Forall (fun x => first <= x <= last) (reads_of m) ->
  first <= value_of (k (value_of m)) <= last
  /\ Forall (fun x => first <= x <= last) (reads_of (k (value_of m))) ->
  first <= value_of (bind m k) <= last
  /\ Forall (fun x => first <= x <= last) (reads_of (bind m k)).
Proof.
  intros Hm [Hv Hr]. rewrite value_of_bind, reads_of_bind.
  split; [exact Hv|]. apply Forall_app. now split.
Qed.

Lemma Forall_closed_weaken (a b a' b' : nat) (l : list nat) :
  a' <= a -> b <= b' ->
  Forall (fun x => a <= x <= b) l -> Forall (fun x => a' <= x <= b') l.
Proof.
  intros Ha Hb H. eapply Forall_impl; [|exact H]. cbv beta. intros x Hx. lia.
Qed.

Lemma Forall_range_closed (a b : nat) (l : list nat) :
  Forall (fun x => a <= x < b) l -> Forall (fun x => a <= x <= b) l.
Proof.
  intros H. eapply Forall_impl; [|exact H]. cbv beta. intros x Hx. lia.
Qed.

Section BoundReads.
Variables (K : nat) (data : list tuple) (past_end value : tuple).

Lemma kd_lower_bound_reads (fuel : nat) :
  forall I first last,
    first <= last ->
    let m := detail.kd_lower_bound K data past_end fuel I first last value in
    first <= value_of m <= last
    /\ Forall (fun x => first <= x <= last) (reads_of m).
Proof.
  assert (Hbase : forall first last,
    first <= last ->
    let m := x <- deref data past_end first ;;
             ret (if detail.none_less K x value then first else last) in
    first <= value_of m <= last
    /\ Forall (fun x => first <= x <= last) (reads_of m)).
  { intros first last Hle. cbv zeta. apply within_bind.
    - rewrite reads_of_deref. constructor; [lia|constructor].
    - rewrite value_of_ret, reads_of_ret.
      split; [destruct (detail.none_less _ _ _); lia|constructor]. }
  induction fuel as [|fuel IH]; intros I first last Hle;
    cbn [detail.kd_lower_bound]; [now apply Hbase|].
  destruct (Nat.ltb_spec 1 (last - first)) as [Hbig|Hsmall];
    [|now apply Hbase].
  cbv zeta.
  pose proof (find_pivot_bounds data past_end I first last ltac:(lia))
    as Hpiv.
  apply within_bind.
  { apply Forall_range_closed, find_pivot_reads. lia. }
  set (pivot := value_of (detail.find_pivot data past_end I first last)) in *.
  destruct (IH (detail.incr_wrap K I) first pivot ltac:(lia)) as [HLv HLr].
  destruct (IH (detail.incr_wrap K I) (S pivot) last ltac:(lia))
    as [HRv HRr].
  assert (HLr' : Forall (fun x => first <= x <= last)
                   (reads_of (detail.kd_lower_bound K data past_end fuel
                                (detail.incr_wrap K I) first pivot value)))
    by (eapply Forall_closed_weaken; [| |exact HLr]; lia).
  assert (HRr' : Forall (fun x => first <= x <= last)
                   (reads_of (detail.kd_lower_bound K data past_end fuel
                                (detail.incr_wrap K I) (S pivot) last value)))
    by (eapply Forall_closed_weaken; [| |exact HRr]; lia).
  apply within_bind; [rewrite reads_of_deref; constructor; [lia|constructor]|].
  destruct (detail.none_less K _ value); [split; [lia|exact HLr']|].
  destruct (detail.all_less K _ value); [split; [lia|exact HRr']|].
  apply within_bind; [exact HLr'|].
  apply within_bind; [rewrite reads_of_deref; constructor; [lia|constructor]|].
  destruct (detail.none_less K _ value);
    [rewrite value_of_ret, reads_of_ret; split; [lia|constructor]|].
  apply within_bind; [exact HRr'|].
  apply within_bind; [rewrite reads_of_deref; constructor; [lia|constructor]|].
  destruct (detail.none_less K _ value);
    rewrite value_of_ret, reads_of_ret; (split; [lia|constructor]).
Qed.

Lemma kd_upper_bound_reads (fuel : nat) :
  forall I first last,
    first <= last ->
    let m := detail.kd_upper_bound K data past_end fuel I first last value in
    first <= value_of m <= last
    /\ Forall (fun x => first <= x <= last) (reads_of m).
Proof.
  assert (Hbase : forall first last,
    first <= last ->
    let m := x <- deref data past_end first ;;
             ret (if detail.all_less K value x then first else last) in
    first <= value_of m <= last
    /\ Forall (fun x => first <= x <= last) (reads_of m)).
  { intros first last Hle. cbv zeta. apply within_bind.
    - rewrite reads_of_deref. constructor; [lia|constructor].
    - rewrite value_of_ret, reads_of_ret.
      split; [destruct (detail.all_less _ _ _); lia|constructor]. }
  induction fuel as [|fuel IH]; intros I first last Hle;
    cbn [detail.kd_upper_bound]; [now apply Hbase|].
  destruct (Nat.ltb_spec 1 (last - first)) as [Hbig|Hsmall];
    [|now apply Hbase].
  cbv zeta.
  pose proof (find_pivot_bounds data past_end I first last ltac:(lia))
    as Hpiv.
  apply within_bind.
  { apply Forall_range_closed, find_pivot_reads. lia. }
  set (pivot := value_of (detail.find_pivot data past_end I first last)) in *.
  destruct (IH (detail.incr_wrap K I) first pivot ltac:(lia)) as [HLv HLr].
  destruct (IH (detail.incr_wrap K I) (S pivot) last ltac:(lia))
    as [HRv HRr].
  assert (HLr' : Forall (fun x => first <= x <= last)
                   (reads_of (detail.kd_upper_bound K data past_end fuel
                                (detail.incr_wrap K I) first pivot value)))
    by (eapply Forall_closed_weaken; [| |exact HLr]; lia).
  assert (HRr' : Forall (fun x => first <= x <= last)
                   (reads_of (detail.kd_upper_bound K data past_end fuel
                                (detail.incr_wrap K I) (S pivot) last value)))
    by (eapply Forall_closed_weaken; [| |exact HRr]; lia).
  apply within_bind; [rewrite reads_of_deref; constructor; [lia|constructor]|].
  destruct (detail.all_less K value _); [split; [lia|exact HLr']|].
  destruct (detail.none_less K value _); [split; [lia|exact HRr']|].
  apply within_bind; [exact HLr'|].
  apply within_bind; [rewrite reads_of_deref; constructor; [lia|constructor]|].
  destruct (detail.all_less K value _);
    [rewrite value_of_ret, reads_of_ret; split; [lia|constructor]|].
  apply within_bind; [exact HRr'|].
  apply within_bind; [rewrite reads_of_deref; constructor; [lia|constructor]|].
  destruct (detail.all_less K value _);
    rewrite value_of_ret, reads_of_ret; (split; [lia|constructor]).
Qed.

End BoundReads.

(** X12.  On any range and whatever the sequence holds, [kd_lower_bound]
    and [kd_upper_bound] return a position between [first] and [last], and
    every position they dereference lies between [first] and [last], [last]
    included: the one position outside the range that they may read is
    [last] itself. *)
Theorem kd_bound_searches_read_up_to_last
  (K : nat) (data : list tuple) (past_end : tuple) (first last : nat)
  (value : tuple) :
  first <= last ->
  let lo := kd_lower_bound K data past_end first last value in
  let hi := kd_upper_bound K data past_end first last value in
  first <= value_of lo <= last
  /\ Forall (fun x => first <= x <= last) (reads_of lo)
  /\ first <= value_of hi <= last
  /\ Forall (fun x => first <= x <= last) (reads_of hi).
Proof.
  intros Hle lo hi.
  destruct (kd_lower_bound_reads K data past_end value (last - first) 0
              first last Hle) as [H1 H2].
  destruct (kd_upper_bound_reads K data past_end value (last - first) 0
              first last Hle) as [H3 H4].
  split; [exact H1|]. split; [exact H2|]. split; [exact H3|exact H4].
Qed.

Lemma kd_bound_searches_read_up_to_last_witness :
  let data := [[0; 1]; [0; 2]; [1; 0]; [7; 7]]%Z in
  let hi := kd_upper_bound 2 data [] 0 2 [0; 0]%Z in
  0 <= 2
  /\ hi = (2, [1; 0; 0; 0; 0; 1; 2])
  /\ Forall (fun x => 0 <= x <= 2) (reads_of hi).
Proof.
  destruct (kd_bound_searches_read_up_to_last 2
              [[0; 1]; [0; 2]; [1; 0]; [7; 7]]%Z [] 0 2 [0; 0]%Z ltac:(lia))
    as (_ & _ & _ & H).
  split; [lia|]. split; [reflexivity|exact H].
Defined.

(** ** [kd_range_query] *)

Section RangeQuerySound.
Variables (K : nat) (data : list tuple) (past_end lower upper : tuple).

Local Abbreviation at_ p := (nth p data past_end).

Lemma kd_range_query_sound (fuel : nat) :
  forall I first last,
    let m := detail.kd_range_query K data past_end fuel I first last lower
               upper in
    (exists positions,
        value_of m = map (fun p => at_ p) positions
        /\ NoDup positions
        /\ forall p, In p positions ->
             first <= p < last
             /\ detail.contains K (at_ p) lower upper = true)
    /\ Forall (fun x => first <= x < last) (reads_of m).
Proof.
  assert (Hnone : forall first last,
    (exists positions,
        value_of (ret (@nil tuple)) = map (fun p => at_ p) positions
        /\ NoDup positions
        /\ forall p, In p positions ->
             first <= p < last
             /\ detail.contains K (at_ p) lower upper = true)
    /\ Forall (fun x => first <= x < last) (reads_of (ret (@nil tuple)))).
  { intros first last. split; [|constructor].
    exists []. split; [reflexivity|]. split; [constructor|intros p []]. }
  assert (Hone : forall first last,
    last - first = 1 ->
    let m := x <- deref data past_end first ;;
             ret (if detail.contains K x lower upper then [x] else []) in
    (exists positions,
        value_of m = map (fun p => at_ p) positions
        /\ NoDup positions
        /\ forall p, In p positions ->
             first <= p < last
             /\ detail.contains K (at_ p) lower upper = true)
    /\ Forall (fun x => first <= x < last) (reads_of m)).
  { intros first last Hlen. cbv zeta.
    rewrite value_of_bind, reads_of_bind, value_of_ret, reads_of_ret,
      value_of_deref, reads_of_deref.
    split; [|constructor; [lia|constructor]].
    destruct (detail.contains K (at_ first) lower upper) eqn:E.
    - exists [first]. split; [reflexivity|].
      split; [constructor; [intros []|constructor]|].
      intros p [<-|[]]. split; [lia|exact E].
    - exists []. split; [reflexivity|]. split; [constructor|intros p []]. }
  induction fuel as [|fuel IH]; intros I first last;
    cbn [detail.kd_range_query];
    destruct (last - first) as [|[|n]] eqn:Elen;
    try apply Hnone; try (apply Hone; exact Elen).
  cbv zeta.
  pose proof (find_pivot_bounds data past_end I first last ltac:(lia))
    as Hpiv.
  pose proof (find_pivot_reads data past_end I first last ltac:(lia)) as Hpr.
  rewrite !value_of_bind, !reads_of_bind, value_of_deref, reads_of_deref,
    value_of_ret, reads_of_ret.
  set (pivot := value_of (detail.find_pivot data past_end I first last)) in *.
  destruct (IH (detail.incr_wrap K I) first pivot)
    as [(pL & HLv & HLd & HLp) HLr].
  destruct (IH (detail.incr_wrap K I) (S pivot) last)
    as [(pR & HRv & HRd & HRp) HRr].
  set (mL := detail.kd_range_query K data past_end fuel
               (detail.incr_wrap K I) first pivot lower upper) in *.
  set (mR := detail.kd_range_query K data past_end fuel
               (detail.incr_wrap K I) (S pivot) last lower upper) in *.
  set (out1 := if negb (detail.less_nth I (at_ pivot) lower)
               then mL else ret []).
  set (out2 := if detail.less_nth I (at_ pivot) upper then mR else ret []).
  assert (H1 : (exists positions,
                   value_of out1 = map (fun p => at_ p) positions
                   /\ NoDup positions
                   /\ forall p, In p positions ->
                        first <= p < pivot
                        /\ detail.contains K (at_ p) lower upper = true)
               /\ Forall (fun x => first <= x < pivot) (reads_of out1)).
  { unfold out1.
    destruct (detail.less_nth I (at_ pivot) lower); cbn [negb];
      [apply Hnone|].
    split; [|exact HLr]. exists pL. now split. }
  assert (H2 : (exists positions,
                   value_of out2 = map (fun p => at_ p) positions
                   /\ NoDup positions
                   /\ forall p, In p positions ->
                        S pivot <= p < last
                        /\ detail.contains K (at_ p) lower upper = true)
               /\ Forall (fun x => S pivot <= x < last) (reads_of out2)).
  { unfold out2.
    destruct (detail.less_nth I (at_ pivot) upper); [|apply Hnone].
    split; [|exact HRr]. exists pR. now split. }
  destruct H1 as [(p1 & Hv1 & Hd1 & Hp1) Hr1].
  destruct H2 as [(p2 & Hv2 & Hd2 & Hp2) Hr2].
  split.
  - exists ((if detail.contains K (at_ pivot) lower upper
             then [pivot] else []) ++ p1 ++ p2).
    split; [|split].
    + rewrite !map_app, Hv1, Hv2. f_equal.
      now destruct (detail.contains K (at_ pivot) lower upper).
    + apply NoDup_app.
      * destruct (detail.contains _ _ _ _);
          [constructor; [intros []|constructor]|constructor].
      * apply NoDup_app; [exact Hd1|exact Hd2|].
        intros a Ha1 Ha2. apply Hp1 in Ha1. apply Hp2 in Ha2. lia.
      * intros a Ha Hin.
        assert (a = pivot)
          by (destruct (detail.contains _ _ _ _);
              [destruct Ha as [<-|[]]; reflexivity|destruct Ha]).
        subst a. apply in_app_or in Hin.
        destruct Hin as [Hin|Hin]; [apply Hp1 in Hin|apply Hp2 in Hin]; lia.
    + intros p Hp. apply in_app_or in Hp. destruct Hp as [Hp|Hp].
      * destruct (detail.contains K (at_ pivot) lower upper) eqn:E;
          [|destruct Hp].
        destruct Hp as [<-|[]]. split; [lia|exact E].
      * apply in_app_or in Hp.
        destruct Hp as [Hp|Hp]; [apply Hp1 in Hp|apply Hp2 in Hp];
          (split; [lia|apply Hp]).
  - rewrite app_nil_r. apply Forall_app. split; [exact Hpr|].
    constructor; [lia|]. apply Forall_app. split.
    + eapply Forall_range_weaken; [| |exact Hr1]; lia.
    + eapply Forall_range_weaken; [| |exact Hr2]; lia.
Qed.

End RangeQuerySound.

(** X13.  Whatever the sequence holds, [kd_range_query] writes to its sink
    the tuples at pairwise different positions of [[first, last)], each of
    them inside the box ([contains]), and dereferences positions of
    [[first, last)] only. *)
Theorem kd_range_query_reports_contained
  (K : nat) (data : list tuple) (past_end : tuple) (first last : nat)
  (lower upper : tuple) :
  let m := kd_range_query K data past_end first last lower upper in
  (exists positions,
      value_of m = map (fun p => nth p data past_end) positions
      /\ NoDup positions
      /\ forall p, In p positions ->
           first <= p < last
           /\ detail.contains K (nth p data past_end) lower upper = true)
  /\ Forall (fun x => first <= x < last) (reads_of m).
Proof.
  intros m.
  destruct (kd_range_query_sound K data past_end lower upper (last - first)
              0 first last) as [Hout Hreads].
  split; [exact Hout|exact Hreads].
Qed.

(** ** Sequences without ties, sorted *)

Lemma tie_free_NoDup (K : nat) (l : list tuple) :
  tie_free K l <-> forall a, a < K -> NoDup (map (get a) l).
Proof.
  split.
  - intros H a Ha. apply (NoDup_nth _ (get a [])).
    rewrite length_map. intros i j Hi Hj.
    rewrite !(map_nth (get a)). intros Heq.
    destruct (Nat.lt_trichotomy i j) as [Hlt|[Heq'|Hgt]]; [|assumption|].
    + exfalso. apply (H i j a [] ltac:(lia) Ha Heq).
    + exfalso. apply (H j i a [] ltac:(lia) Ha). now symmetry.
  - intros H i j a d Hij Ha Heq.
    specialize (H a Ha). rewrite (NoDup_nth _ (get a d)) in H.
    rewrite length_map in H.
    specialize (H i j ltac:(lia) ltac:(lia)).
    rewrite !(map_nth (get a)) in H. specialize (H Heq). lia.
Qed.

Lemma tie_free_perm (K : nat) (l l' : list tuple) :
  Permutation l l' -> tie_free K l -> tie_free K l'.
Proof.
  rewrite !tie_free_NoDup. intros Hperm H a Ha.
  apply (Permutation_NoDup (Permutation_map (get a) Hperm)). now apply H.
Qed.

Lemma tie_free_distinct (K : nat) (l : list tuple) :
  0 < K -> tie_free K l -> distinct_tuples K l.
Proof.
  intros HK H. unfold distinct_tuples.
  apply (NoDup_nth _ (components K [])). rewrite length_map.
  intros i j Hi Hj. rewrite !(map_nth (components K)). intros Heq.
  rewrite components_eq_iff in Heq. specialize (Heq 0 HK).
  destruct (Nat.lt_trichotomy i j) as [Hlt|[Heq'|Hgt]]; [|assumption|].
  - exfalso. apply (H i j 0 [] ltac:(lia) HK Heq).
  - exfalso. apply (H j i 0 [] ltac:(lia) HK). now symmetry.
Qed.

Lemma kd_sort_tie_free
  (K : nat)
  (nth_element : (tuple -> tuple -> bool) -> nat -> list tuple -> list tuple)
  (partition : (tuple -> bool) -> list tuple -> list tuple * nat)
  (l : list tuple) :
  0 < K -> nth_element_post K nth_element -> partition_post partition ->
  tie_free K l ->
  Permutation l (kd_sort K nth_element partition l)
  /\ kd_ordered K (kd_sort K nth_element partition l) = true
  /\ tie_free K (kd_sort K nth_element partition l).
Proof.
  intros HK Hnth Hpart Hties.
  destruct (kd_sort_at K partition Hpart nth_element Hnth HK (length l) 0 l
              ltac:(lia) HK) as (Hperm & _ & Hord).
  fold (kd_sort K nth_element partition l) in Hperm, Hord.
  split; [exact Hperm|]. split.
  - unfold kd_ordered. rewrite <- (Permutation_length Hperm).
    apply Hord. now apply tie_free_distinct.
  - now apply (tie_free_perm K l).
Qed.

Section RangeParts.
Variable data : list tuple.

Lemma range_split (first pivot last : nat) (d : tuple) :
  first <= pivot < last -> last <= length data ->
  range data first last
  = range data first pivot ++ nth pivot data d :: range data (S pivot) last.
Proof.
  intros Hp Hlast.
  assert (Hlen : length (range data first last) = last - first)
    by (apply range_length; lia).
  rewrite (split_at_nth (range data first last) (pivot - first) d)
    by (unfold tuple in *; lia).
  rewrite range_firstn by lia. rewrite range_skipn by lia.
  rewrite range_nth by lia.
  replace (first + (pivot - first)) with pivot by lia.
  replace (first + S (pivot - first)) with (S pivot) by lia.
  reflexivity.
Qed.

Lemma range_In (first last : nat) (d x : tuple) :
  first <= last <= length data ->
  In x (range data first last) ->
  exists j, first <= j < last /\ x = nth j data d.
Proof.
  intros Hr Hx. destruct (In_nth _ _ d Hx) as (i & Hi & <-).
  rewrite range_length in Hi by exact Hr.
  exists (first + i). split; [lia|]. now apply range_nth.
Qed.

End RangeParts.

Lemma filter_nothing {A : Type} (f : A -> bool) (l : list A) :
  (forall x, In x l -> f x = false) -> filter f l = [].
Proof.
  induction l as [|a l IH]; intros H; cbn [filter]; [reflexivity|].
  rewrite (H a (or_introl eq_refl)). apply IH. intros x Hx. apply H. now right.
Qed.

Section RangeQueryComplete.
Variables (K : nat) (data : list tuple) (past_end lower upper : tuple).

Local Abbreviation box := (fun x => detail.contains K x lower upper).

Lemma contains_below (I : nat) (x : tuple) :
  I < K -> (get I x < get I lower)%Z -> detail.contains K x lower upper = false.
Proof.
  intros HI Hlt. unfold detail.contains.
  destruct (detail.none_less K x lower) eqn:E; [|reflexivity].
  rewrite none_less_spec in E. specialize (E I ltac:(lia)). lia.
Qed.

Lemma contains_above (I : nat) (x : tuple) :
  I < K -> (get I upper <= get I x)%Z ->
  detail.contains K x lower upper = false.
Proof.
  intros HI Hle. unfold detail.contains.
  destruct (detail.all_less K x upper) eqn:E; [|apply andb_false_r].
  rewrite all_less_spec in E. specialize (E I ltac:(lia)). lia.
Qed.

Lemma kd_range_query_complete (fuel : nat) :
  forall I first last,
    last - first <= fuel -> first <= last <= length data -> I < K ->
    descent_ordered K data past_end fuel I first last ->
    Permutation
      (value_of (detail.kd_range_query K data past_end fuel I first last
                   lower upper))
      (filter box (range data first last)).
Proof.
  assert (Hone : forall first last,
    last - first = 1 -> first <= last <= length data ->
    Permutation
      (value_of (x <- deref data past_end first ;;
                 ret (if detail.contains K x lower upper then [x] else [])))
      (filter box (range data first last))).
  { intros first last Hlen Hr.
    rewrite value_of_bind, value_of_ret, value_of_deref.
    rewrite (range_split data first first last past_end) by lia.
    unfold range at 1 2. rewrite Nat.sub_diag, firstn_O.
    replace (last - S first) with 0 by lia. rewrite firstn_O.
    cbn [app filter]. now destruct (detail.contains _ _ _ _). }
  assert (Hnone : forall first last,
    last - first = 0 ->
    Permutation (value_of (ret (@nil tuple)))
      (filter box (range data first last))).
  { intros first last Hlen. unfold range. rewrite Hlen, firstn_O.
    reflexivity. }
  induction fuel as [|fuel IH]; intros I first last Hfuel Hr HI Hdesc;
    cbn [detail.kd_range_query];
    destruct (last - first) as [|[|n]] eqn:Elen;
    try (apply Hnone; exact Elen); try (apply Hone; [exact Elen|exact Hr]);
    [lia|].
  cbv zeta. cbn [descent_ordered] in Hdesc.
  specialize (Hdesc ltac:(lia)). cbv zeta in Hdesc.
  pose proof (find_pivot_bounds data past_end I first last ltac:(lia))
    as Hpiv.
  set (pivot := value_of (detail.find_pivot data past_end I first last)) in *.
  destruct Hdesc as (Hleft & Hright & HdL & HdR).
  assert (HJ : detail.incr_wrap K I < K) by (apply incr_wrap_lt; lia).
  pose proof (IH (detail.incr_wrap K I) first pivot ltac:(lia) ltac:(lia)
                HJ HdL) as HL.
  pose proof (IH (detail.incr_wrap K I) (S pivot) last ltac:(lia) ltac:(lia)
                HJ HdR) as HR.
  rewrite !value_of_bind, value_of_deref, value_of_ret.
  fold pivot.
  rewrite (range_split data first pivot last past_end) by lia.
  rewrite filter_app. cbn [filter].
  set (pv := nth pivot data past_end) in *.
  set (out0 := if detail.contains K pv lower upper then [pv] else []).
  assert (Hmid : (if detail.contains K pv lower upper
                  then pv :: filter box (range data (S pivot) last)
                  else filter box (range data (S pivot) last))
                 = out0 ++ filter box (range data (S pivot) last))
    by (unfold out0; now destruct (detail.contains K pv lower upper)).
  cbv beta. rewrite Hmid.
  etransitivity; [|apply Permutation_app_swap_app].
  apply Permutation_app_head. apply Permutation_app.
  - destruct (detail.less_nth I pv lower) eqn:Elo; cbn [negb].
    + rewrite value_of_ret. rewrite filter_nothing; [reflexivity|].
      intros x Hx.
      destruct (range_In data first pivot past_end x ltac:(lia) Hx)
        as (j & Hj & ->).
      apply (contains_below I); [exact HI|].
      apply Z.ltb_lt in Elo. specialize (Hleft j Hj). fold pv in Hleft. lia.
    + exact HL.
  - destruct (detail.less_nth I pv upper) eqn:Ehi.
    + exact HR.
    + rewrite value_of_ret. rewrite filter_nothing; [reflexivity|].
      intros x Hx.
      destruct (range_In data (S pivot) last past_end x ltac:(lia) Hx)
        as (j & Hj & ->).
      apply (contains_above I); [exact HI|].
      apply Z.ltb_ge in Ehi. specialize (Hright j ltac:(lia)).
      fold pv in Hright. lia.
Qed.

End RangeQueryComplete.

(** X14.  Sorting and then querying a box reports exactly its points: on the
    outcome of [kd_sort] for a sequence in which no two tuples agree on any
    axis, [kd_range_query] writes to its sink, in some order, the tuples of
    the sequence that the box contains. *)
Theorem kd_range_query_after_kd_sort
  (K : nat)
  (nth_element : (tuple -> tuple -> bool) -> nat -> list tuple -> list tuple)
  (partition : (tuple -> bool) -> list tuple -> list tuple * nat)
  (l : list tuple) (past_end lower upper : tuple) :
  0 < K ->
  nth_element_post K nth_element ->
  partition_post partition ->
  tie_free K l ->
  let data := kd_sort K nth_element partition l in
  Permutation
    (value_of (kd_range_query K data past_end 0 (length data) lower upper))
    (filter (fun x => detail.contains K x lower upper) l).
Proof.
  intros HK Hnth Hpart Hties data.
  destruct (kd_sort_tie_free K nth_element partition l HK Hnth Hpart Hties)
    as (Hperm & Hord & Hties').
  fold data in Hperm, Hord, Hties'.
  unfold kd_ordered in Hord. rewrite <- (range_all data) in Hord at 2.
  replace (length data) with (length data - 0) in Hord at 1 by lia.
  pose proof (kd_ordered_descent_ordered K data past_end HK Hties'
                (length data - 0) 0 0 (length data) ltac:(lia) HK Hord)
    as Hdesc.
  pose proof (kd_range_query_complete K data past_end lower upper
                (length data - 0) 0 0 (length data) ltac:(lia) ltac:(lia)
                HK Hdesc) as H.
  rewrite range_all in H. unfold kd_range_query.
  etransitivity; [exact H|].
  symmetry. clear -Hperm.
  induction Hperm; cbn [filter].
  - constructor.
  - destruct (detail.contains K x lower upper); [now constructor|assumption].
  - destruct (detail.contains K x lower upper);
      destruct (detail.contains K y lower upper);
      try reflexivity; apply perm_swap.
  - etransitivity; eassumption.
Qed.

Lemma kd_range_query_after_kd_sort_witness :
  let l := [[3; 6]; [1; 5]; [5; 2]; [2; 9]; [4; 4]]%Z in
  let data := kd_sort 2 nth_element_by_sort partition_stable l in
  0 < 2
  /\ nth_element_post 2 nth_element_by_sort
  /\ partition_post partition_stable
  /\ tie_free 2 l
  /\ value_of (kd_range_query 2 data [] 0 (length data) [2; 3]%Z [5; 7]%Z)
     = [[3; 6]; [4; 4]]%Z
  /\ Permutation
       (value_of (kd_range_query 2 data [] 0 (length data) [2; 3]%Z [5; 7]%Z))
       (filter (fun x => detail.contains 2 x [2; 3]%Z [5; 7]%Z) l).
Proof.
  assert (Hties : tie_free 2 [[3; 6]; [1; 5]; [5; 2]; [2; 9]; [4; 4]]%Z).
  { apply tie_free_NoDup. intros [|[|a]] Ha; [| |lia];
      cbn; repeat constructor; cbn; intuition discriminate. }
  split; [lia|]. split; [apply nth_element_by_sort_post|].
  split; [apply partition_stable_post|].
  split; [exact Hties|]. split; [reflexivity|].
  apply (kd_range_query_after_kd_sort 2 nth_element_by_sort partition_stable
           [[3; 6]; [1; 5]; [5; 2]; [2; 9]; [4; 4]]%Z [] [2; 3]%Z [5; 7]%Z
           ltac:(lia) (nth_element_by_sort_post 2) partition_stable_post
           Hties).
Defined.

(** ** Sorting, then searching for neighbours *)

(** X15.  Sorting and then asking for the nearest neighbour finds one: on
    the outcome of [kd_sort] for a non-empty sequence in which no two tuples
    agree on any axis, with integral components within the bound
    [exact_on], [kd_nearest_neighbor] returns a position of the sequence,
    and no tuple of the sequence is closer to [value] than the one at that
    position. *)
Theorem kd_nearest_neighbor_after_kd_sort
  (K : nat)
  (nth_element : (tuple -> tuple -> bool) -> nat -> list tuple -> list tuple)
  (partition : (tuple -> bool) -> list tuple -> list tuple * nat)
  (l : list tuple) (past_end value : tuple) :
  0 < K ->
  nth_element_post K nth_element ->
  partition_post partition ->
  tie_free K l ->
  l <> [] ->
  exact_on K (value :: l) ->
  let data := kd_sort K nth_element partition l in
  let r := value_of (kd_nearest_neighbor K data past_end 0 (length data)
                       value) in
  r < length data
  /\ forall x, In x l ->
       dlt (detail.l2dist K x value)
         (detail.l2dist K (nth r data past_end) value) = false.
Proof.
  intros HK Hnth Hpart Hties Hne _ data r.
  destruct (kd_sort_tie_free K nth_element partition l HK Hnth Hpart Hties)
    as (Hperm & Hord & Hties').
  fold data in Hperm, Hord, Hties'.
  assert (Hne' : data <> []).
  { intros E. rewrite E in Hperm. apply Permutation_sym in Hperm.
    apply Permutation_nil in Hperm. contradiction. }
  destruct (kd_nearest_neighbor_nearest_on_tie_free K data past_end value
              HK Hne' Hord Hties') as [Hr Hmin].
  fold r in Hr, Hmin. split; [exact Hr|].
  intros x Hx. apply (Permutation_in x Hperm) in Hx.
  destruct (In_nth data x past_end Hx) as (j & Hj & <-).
  unfold detail.l2dist. cbn [dlt]. apply Z.ltb_ge. now apply Hmin.
Qed.

Lemma kd_nearest_neighbor_after_kd_sort_witness :
  let l := [[3; 6]; [1; 5]; [5; 2]; [2; 9]; [4; 4]]%Z in
  let data := kd_sort 2 nth_element_by_sort partition_stable l in
  let r := value_of (kd_nearest_neighbor 2 data [] 0 (length data)
                       [5; 5]%Z) in
  0 < 2
  /\ nth_element_post 2 nth_element_by_sort
  /\ partition_post partition_stable
  /\ tie_free 2 l
  /\ l <> []
  /\ exact_on 2 ([5; 5]%Z :: l)
  /\ nth r data [] = [4; 4]%Z
  /\ forall x, In x l ->
       dlt (detail.l2dist 2 x [5; 5]%Z)
         (detail.l2dist 2 (nth r data []) [5; 5]%Z) = false.
Proof.
  assert (Hties : tie_free 2 [[3; 6]; [1; 5]; [5; 2]; [2; 9]; [4; 4]]%Z).
  { apply tie_free_NoDup. intros [|[|a]] Ha; [| |lia];
      cbn; repeat constructor; cbn; intuition discriminate. }
  split; [lia|]. split; [apply nth_element_by_sort_post|].
  split; [apply partition_stable_post|].
  assert (Hex : exact_on 2
                  [[5; 5]; [3; 6]; [1; 5]; [5; 2]; [2; 9]; [4; 4]]%Z)
    by (apply exact_on_check; reflexivity).
  split; [exact Hties|]. split; [discriminate|]. split; [exact Hex|].
  split; [reflexivity|].
  apply (kd_nearest_neighbor_after_kd_sort 2 nth_element_by_sort
           partition_stable [[3; 6]; [1; 5]; [5; 2]; [2; 9]; [4; 4]]%Z []
           [5; 5]%Z ltac:(lia) (nth_element_by_sort_post 2)
           partition_stable_post Hties ltac:(discriminate) Hex).
Defined.

Lemma map_nth_seq_all {A : Type} (l : list A) (d : A) :
  map (fun p => nth p l d) (seq 0 (length l)) = l.
Proof.
  apply (nth_ext _ _ d d).
  - now rewrite length_map, length_seq.
  - intros i Hi. rewrite length_map, length_seq in Hi.
    rewrite (nth_indep _ d (nth 0 l d))
      by (now rewrite length_map, length_seq).
    rewrite (map_nth (fun p => nth p l d)), seq_nth by exact Hi.
    reflexivity.
Qed.

Lemma seq_split_positions (len : nat) (positions : list nat) :
  NoDup positions -> (forall p, In p positions -> p < len) ->
  Permutation (seq 0 len)
    (positions
     ++ filter (fun x => negb (existsb (Nat.eqb x) positions)) (seq 0 len)).
Proof.
  intros Hnd Hin.
  assert (Hmem : forall x,
             existsb (Nat.eqb x) positions = true <-> In x positions).
  { intros x. rewrite existsb_exists. split.
    - intros (y & Hy & E). apply Nat.eqb_eq in E. now subst.
    - intros Hx. exists x. split; [exact Hx|apply Nat.eqb_refl]. }
  apply NoDup_Permutation.
  - apply seq_NoDup.
  - apply NoDup_app; [exact Hnd|apply NoDup_filter, seq_NoDup|].
    intros a Ha Hf. apply filter_In in Hf. destruct Hf as [_ Hf].
    apply negb_true_iff in Hf. apply Hmem in Ha. congruence.
  - intros x. rewrite in_app_iff, filter_In, in_seq, negb_true_iff. split.
    + intros Hx. destruct (existsb (Nat.eqb x) positions) eqn:E.
      * left. now apply Hmem.
      * right. now split.
    + intros [Hx|[Hx _]]; [apply Hin in Hx; lia|exact Hx].
Qed.

(** X16.  Sorting and then asking for [n] neighbours finds the [n] nearest:
    on the outcome of [kd_sort] for a sequence in which no two tuples agree
    on any axis, with integral components within the bound [exact_on],
    [kd_nearest_neighbors] with [1 <= n <= |l|] writes [n] tuples of the
    sequence to its sink, and none of the tuples it leaves out is closer to
    [value] than one it wrote. *)
Theorem kd_nearest_neighbors_after_kd_sort
  (K : nat)
  (nth_element : (tuple -> tuple -> bool) -> nat -> list tuple -> list tuple)
  (partition : (tuple -> bool) -> list tuple -> list tuple * nat)
  (l : list tuple) (past_end value : tuple) (n : nat) :
  0 < K ->
  nth_element_post K nth_element ->
  partition_post partition ->
  tie_free K l ->
  1 <= n <= length l ->
  exact_on K (value :: l) ->
  let data := kd_sort K nth_element partition l in
  let out := value_of (kd_nearest_neighbors K data past_end 0 (length data)
                         value n) in
  length out = n
  /\ exists rest,
       Permutation l (out ++ rest)
       /\ forall o x, In o out -> In x rest ->
            dlt (detail.l2dist K x value) (detail.l2dist K o value) = false.
Proof.
  intros HK Hnth Hpart Hties Hn _ data out.
  destruct (kd_sort_tie_free K nth_element partition l HK Hnth Hpart Hties)
    as (Hperm & Hord & Hties').
  fold data in Hperm, Hord, Hties'.
  assert (Hn' : 1 <= n <= length data)
    by (now rewrite <- (Permutation_length Hperm)).
  destruct (kd_nearest_neighbors_nearest_on_tie_free K data past_end value n
              HK Hord Hties' Hn')
    as (positions & Hout & Hnd & Hlen & Hin & Hmin).
  fold out in Hout.
  split; [now rewrite Hout, length_map|].
  set (others := filter (fun x => negb (existsb (Nat.eqb x) positions))
                   (seq 0 (length data))).
  exists (map (fun p => nth p data past_end) others).
  split.
  - rewrite Hout, <- map_app.
    etransitivity; [exact Hperm|].
    rewrite <- (map_nth_seq_all data past_end) at 1.
    apply Permutation_map. now apply seq_split_positions.
  - intros o x Ho Hx. rewrite Hout in Ho.
    apply in_map_iff in Ho. destruct Ho as (p & <- & Hp).
    apply in_map_iff in Hx. destruct Hx as (y & <- & Hy).
    apply filter_In in Hy. destruct Hy as [Hy Hnot].
    apply in_seq in Hy. apply negb_true_iff in Hnot.
    unfold detail.l2dist. cbn [dlt]. apply Z.ltb_ge.
    apply Hmin; [exact Hp|lia|].
    intros Hyp.
    assert (existsb (Nat.eqb y) positions = true)
      by (apply existsb_exists; exists y; split;
          [exact Hyp|apply Nat.eqb_refl]).
    congruence.
Qed.

Lemma kd_nearest_neighbors_after_kd_sort_witness :
  let l := [[3; 6]; [1; 5]; [5; 2]; [2; 9]; [4; 4]]%Z in
  let data := kd_sort 2 nth_element_by_sort partition_stable l in
  let out := value_of (kd_nearest_neighbors 2 data [] 0 (length data)
                         [5; 5]%Z 2) in
  0 < 2
  /\ nth_element_post 2 nth_element_by_sort
  /\ partition_post partition_stable
  /\ tie_free 2 l
  /\ 1 <= 2 <= length l
  /\ exact_on 2 ([5; 5]%Z :: l)
  /\ out = [[3; 6]; [4; 4]]%Z
  /\ length out = 2.
Proof.
  assert (Hties : tie_free 2 [[3; 6]; [1; 5]; [5; 2]; [2; 9]; [4; 4]]%Z).
  { apply tie_free_NoDup. intros [|[|a]] Ha; [| |lia];
      cbn; repeat constructor; cbn; intuition discriminate. }
  split; [lia|]. split; [apply nth_element_by_sort_post|].
  split; [apply partition_stable_post|].
  assert (Hex : exact_on 2
                  [[5; 5]; [3; 6]; [1; 5]; [5; 2]; [2; 9]; [4; 4]]%Z)
    by (apply exact_on_check; reflexivity).
  split; [exact Hties|]. split; [cbn; lia|]. split; [exact Hex|].
  split; [reflexivity|].
  apply (kd_nearest_neighbors_after_kd_sort 2 nth_element_by_sort
           partition_stable [[3; 6]; [1; 5]; [5; 2]; [2; 9]; [4; 4]]%Z []
           [5; 5]%Z 2 ltac:(lia) (nth_element_by_sort_post 2)
           partition_stable_post Hties ltac:(cbn; lia) Hex).
Defined.

(** ** How many neighbours [kd_nearest_neighbors] reports *)

Section KnnCount.
Variables (K : nat) (data : list tuple) (past_end value : tuple).
Hypothesis K_pos : 0 < K.

Local Abbreviation key x := (detail.l2dist K (nth x data past_end) value).
Local Abbreviation KNN := (detail.knn K data past_end).

(** The queue once the positions [U] have been dealt with: entries at
    distinct positions of [U], as many as the capacity allows. *)
Local Abbreviation filled b U :=
  (heap_ordered (detail.q b)
   /\ NoDup (map snd (detail.q b))
   /\ incl (map snd (detail.q b)) U
   /\ length (detail.q b) = Nat.min (detail.m_n b) (length U)).

Lemma filled_perm b U U' : Permutation U U' -> filled b U -> filled b U'.
Proof.
  intros Hp (Hord & Hnd & Hincl & Hlen).
  split; [exact Hord|]. split; [exact Hnd|]. split.
  - intros x Hx. apply (Permutation_in x Hp). now apply Hincl.
  - now rewrite <- (Permutation_length Hp).
Qed.

Lemma filled_add b U x d :
  ~ In x U -> filled b U -> filled (detail.add d x b) (x :: U).
Proof.
  intros Hx (Hord & Hnd & Hincl & Hlen).
  pose proof (emplace_perm (d, x) (detail.q b)) as Hperm.
  pose proof (Permutation_map snd Hperm) as Hperm'. cbn [map snd] in Hperm'.
  pose proof (Permutation_length Hperm) as Hlen1. cbn [length] in Hlen1.
  assert (Hnd1 : NoDup (map snd (detail.emplace (d, x) (detail.q b)))).
  { apply (Permutation_NoDup Hperm'). constructor; [|exact Hnd].
    intros Hin. apply Hx. now apply Hincl. }
  assert (Hincl1 : incl (map snd (detail.emplace (d, x) (detail.q b)))
                     (x :: U)).
  { intros y Hy. apply (Permutation_in y (Permutation_sym Hperm')) in Hy.
    destruct Hy as [<-|Hy]; [now left|right; now apply Hincl]. }
  split; [now apply add_ordered|].
  unfold detail.add. cbn [detail.q detail.m_n length].
  destruct (detail.m_n b <? length (detail.emplace (d, x) (detail.q b)))
    eqn:Efull.
  - apply Nat.ltb_lt in Efull.
    destruct (detail.emplace (d, x) (detail.q b)) as [|top rest];
      cbn [tl map length] in *; [lia|].
    split; [now inversion Hnd1|].
    split; [intros y Hy; apply Hincl1; now right|lia].
  - apply Nat.ltb_ge in Efull.
    split; [exact Hnd1|]. split; [exact Hincl1|lia].
Qed.

Lemma filled_skip b U P :
  length (detail.q b) = detail.m_n b -> filled b U -> filled b (P ++ U).
Proof.
  intros Hfull (Hord & Hnd & Hincl & Hlen).
  split; [exact Hord|]. split; [exact Hnd|]. split.
  - intros x Hx. apply in_or_app. right. now apply Hincl.
  - rewrite length_app. lia.
Qed.

(** The test before the far side fails on a full queue only. *)
Lemma knn_pruned_full (fuel I J lo hi pivot : nat) (b : detail.n_best) :
  I < K -> heap_ordered (detail.q b) ->
  length (detail.q b) <= detail.m_n b ->
  let b2 := value_of (KNN fuel J lo hi value (detail.add (key pivot) pivot b))
  in
  abs_le (get I value - get I (nth pivot data past_end)) (detail.max_key b2)
  = false ->
  length (detail.q b2) = detail.m_n b2.
Proof.
  intros HI Hord Hlen b2 Htest.
  destruct (evolves_add K data past_end value pivot b)
    as (Hn1 & _ & Ho1 & Hc1 & _ & _).
  destruct (knn_evolves K data past_end value fuel J lo hi
              (detail.add (key pivot) pivot b))
    as (Hn2 & _ & Ho2 & Hc2 & _ & Hi2).
  fold b2 in Hn2, Ho2, Hc2, Hi2.
  pose proof (Hc2 (Hc1 Hlen)) as Hle.
  destruct (Nat.eq_dec (length (detail.q b2)) (detail.m_n b2)) as [|Hne];
    [assumption|exfalso].
  assert (Hlt : length (detail.q b2) < detail.m_n b2) by lia.
  assert (Hin : In (key pivot, pivot) (detail.q b2)).
  { apply (Hi2 Hlt).
    assert (Hroom : length (detail.q (detail.add (key pivot) pivot b))
                    < detail.m_n b).
    { destruct (evolves_add K data past_end value pivot b)
        as (_ & _ & _ & _ & _ & _).
      destruct (knn_evolves K data past_end value fuel J lo hi
                  (detail.add (key pivot) pivot b)) as (_ & Hl2 & _).
      fold b2 in Hl2. rewrite Hn2, Hn1 in Hlt. lia. }
    rewrite (add_not_full _ _ _ Hroom). apply emplace_In. now left. }
  pose proof (max_key_ge b2 _ (Ho2 (Ho1 Hord)) Hin) as Hge.
  cbn [fst] in Hge. unfold detail.l2dist in Hge.
  pose proof (sum_of_squares_ge_axis K I value (nth pivot data past_end) HI)
    as Hax.
  pose proof (sum_of_squares_sym K value (nth pivot data past_end)) as Hsym.
  destruct (detail.max_key b2) as [y|]; [|discriminate].
  cbn [abs_le dlt] in Htest, Hge.
  apply Z.ltb_ge in Hge. apply Z.leb_gt in Htest. lia.
Qed.

Lemma knn_filled (fuel : nat) :
  forall I first last b U,
    last - first <= fuel -> I < K ->
    NoDup U -> (forall x, In x U -> ~ first <= x < last) ->
    filled b U ->
    filled (value_of (KNN fuel I first last value b))
      (seq first (last - first) ++ U).
Proof.
  induction fuel as [|fuel IH]; intros I first last b U Hfuel HI HU Hout Hb;
    cbn [detail.knn];
    destruct (last - first) as [|[|n]] eqn:Elen;
    try (rewrite value_of_ret; exact Hb); try lia.
  - rewrite value_of_bind, value_of_ret, value_of_deref. cbn [seq app].
    apply filled_add; [|exact Hb]. intros Hin. apply (Hout first Hin). lia.
  - cbv zeta. rewrite <- Elen.
    pose proof (find_pivot_bounds data past_end I first last ltac:(lia))
      as Hpiv.
    rewrite !value_of_bind, value_of_deref.
    set (pivot := value_of (detail.find_pivot data past_end I first last))
      in *.
    set (pv := nth pivot data past_end).
    set (J := detail.incr_wrap K I).
    assert (HJ : J < K) by (apply incr_wrap_lt; lia).
    set (b1 := detail.add (detail.l2dist K pv value) pivot b).
    assert (Hb1 : filled b1 (pivot :: U)).
    { apply filled_add; [|exact Hb]. intros Hin. apply (Hout pivot Hin). lia. }
    assert (HU1 : NoDup (pivot :: U)).
    { constructor; [|exact HU]. intros Hin. apply (Hout pivot Hin). lia. }
    set (Lr := seq first (pivot - first)).
    set (Rr := seq (S pivot) (last - S pivot)).
    rewrite (seq_split_at K K_pos first last pivot Hpiv). fold Lr Rr.
    assert (HLr : forall x, In x Lr <-> first <= x < pivot)
      by (intros x; unfold Lr; rewrite in_seq; lia).
    assert (HRr : forall x, In x Rr <-> S pivot <= x < last)
      by (intros x; unfold Rr; rewrite in_seq; lia).
    destruct Hb as (Hord & _ & _ & Hlenb).
    assert (Hcap : length (detail.q b) <= detail.m_n b) by lia.
    destruct (detail.less_nth I value pv) eqn:Eside.
    + (* the range before the pivot first *)
      pose proof (knn_pruned_full fuel I J first pivot pivot b HI Hord Hcap)
        as Hpruned.
      cbv zeta in Hpruned. fold pv b1 in Hpruned.
      assert (Hb2 : filled (value_of (KNN fuel J first pivot value b1))
                      (Lr ++ pivot :: U)).
      { apply IH; try assumption; [lia|].
        intros x [<-|Hx]; [lia|]. intros Hr. apply (Hout x Hx). lia. }
      set (b2 := value_of (KNN fuel J first pivot value b1)) in *.
      destruct (abs_le (get I value - get I pv) (detail.max_key b2))
        eqn:Etest.
      * apply (filled_perm _ (Rr ++ Lr ++ pivot :: U)); [apply perm_far_right|].
        apply IH; try assumption; [lia| |].
        -- apply NoDup_app; [apply seq_NoDup|exact HU1|].
           intros x Hx [<-|Hin]; [apply HLr in Hx; lia|].
           apply HLr in Hx. apply (Hout x Hin). lia.
        -- intros x Hx Hr. apply in_app_or in Hx.
           destruct Hx as [Hx|[<-|Hx]]; [apply HLr in Hx; lia|lia|].
           apply (Hout x Hx). lia.
      * rewrite value_of_ret.
        apply (filled_perm _ (Rr ++ Lr ++ pivot :: U)); [apply perm_far_right|].
        apply filled_skip; [|exact Hb2]. now apply Hpruned.
    + (* the range behind the pivot first *)
      pose proof (knn_pruned_full fuel I J (S pivot) last pivot b HI Hord
                    Hcap) as Hpruned.
      cbv zeta in Hpruned. fold pv b1 in Hpruned.
      assert (Hb2 : filled (value_of (KNN fuel J (S pivot) last value b1))
                      (Rr ++ pivot :: U)).
      { apply IH; try assumption; [lia|].
        intros x [<-|Hx]; [lia|]. intros Hr. apply (Hout x Hx). lia. }
      set (b2 := value_of (KNN fuel J (S pivot) last value b1)) in *.
      destruct (abs_le (get I value - get I pv) (detail.max_key b2))
        eqn:Etest.
      * apply (filled_perm _ (Lr ++ Rr ++ pivot :: U)); [apply perm_far_left|].
        apply IH; try assumption; [lia| |].
        -- apply NoDup_app; [apply seq_NoDup|exact HU1|].
           intros x Hx [<-|Hin]; [apply HRr in Hx; lia|].
           apply HRr in Hx. apply (Hout x Hin). lia.
        -- intros x Hx Hr. apply in_app_or in Hx.
           destruct Hx as [Hx|[<-|Hx]]; [apply HRr in Hx; lia|lia|].
           apply (Hout x Hx). lia.
      * rewrite value_of_ret.
        apply (filled_perm _ (Lr ++ Rr ++ pivot :: U)); [apply perm_far_left|].
        apply filled_skip; [|exact Hb2]. now apply Hpruned.
Qed.

Lemma knn_reads (fuel : nat) :
  forall I first last b,
    Forall (fun x => first <= x < last)
      (reads_of (KNN fuel I first last value b)).
Proof.
  induction fuel as [|fuel IH]; intros I first last b;
    cbn [detail.knn];
    destruct (last - first) as [|[|n]] eqn:Elen;
    try (rewrite reads_of_ret; constructor);
    try (rewrite reads_of_bind, reads_of_ret, reads_of_deref;
         constructor; [lia|constructor]).
  cbv zeta.
  pose proof (find_pivot_bounds data past_end I first last ltac:(lia))
    as Hpiv.
  pose proof (find_pivot_reads data past_end I first last ltac:(lia)) as Hpr.
  rewrite !reads_of_bind, ?value_of_bind, reads_of_deref, ?value_of_deref.
  set (pivot := value_of (detail.find_pivot data past_end I first last)) in *.
  assert (HL : forall b', Forall (fun x => first <= x < last)
                 (reads_of (KNN fuel (detail.incr_wrap K I) first pivot value
                              b')))
    by (intros b'; eapply Forall_range_weaken; [| |apply IH]; lia).
  assert (HR : forall b', Forall (fun x => first <= x < last)
                 (reads_of (KNN fuel (detail.incr_wrap K I) (S pivot) last
                              value b')))
    by (intros b'; eapply Forall_range_weaken; [| |apply IH]; lia).
  apply Forall_app. split; [exact Hpr|].
  constructor; [lia|].
  destruct (detail.less_nth I value (nth pivot data past_end)).
  - apply Forall_app. split; [apply HL|].
    destruct (abs_le _ _); [apply HR|rewrite reads_of_ret; constructor].
  - apply Forall_app. split; [apply HR|].
    destruct (abs_le _ _); [apply HL|rewrite reads_of_ret; constructor].
Qed.

Lemma reads_of_copy_loop (l : list (double * nat)) :
  reads_of (detail.copy_loop data past_end l) = map snd l.
Proof.
  induction l as [|e l IH]; cbn [detail.copy_loop map]; [reflexivity|].
  rewrite !reads_of_bind, reads_of_ret, reads_of_deref, app_nil_r.
  cbn [app]. f_equal. rewrite ?value_of_bind, ?value_of_deref. exact IH.
Qed.

End KnnCount.

(** X17.  On a range of a sequence with integral components within the
    bound [exact_on], whatever their order, [kd_nearest_neighbors] writes
    to its sink the tuples at [min(n, last - first)] pairwise different
    positions of [[first, last)], and dereferences positions of
    [[first, last)] only. *)
Theorem kd_nearest_neighbors_count_and_reads
  (K : nat) (data : list tuple) (past_end : tuple) (first last : nat)
  (value : tuple) (n : nat) :
  0 < K ->
  last <= length data ->
  exact_on K (value :: data) ->
  let m := kd_nearest_neighbors K data past_end first last value n in
  (exists positions,
      value_of m = map (fun p => nth p data past_end) positions
      /\ NoDup positions
      /\ (forall p, In p positions -> first <= p < last)
      /\ length positions = Nat.min n (last - first))
  /\ Forall (fun x => first <= x < last) (reads_of m).
Proof.
  intros HK _ _ m. unfold m, kd_nearest_neighbors.
  rewrite value_of_bind, reads_of_bind. cbv beta.
  assert (H0 : heap_ordered (detail.q (detail.n_best_new n))
               /\ NoDup (map snd (detail.q (detail.n_best_new n)))
               /\ incl (map snd (detail.q (detail.n_best_new n))) []
               /\ length (detail.q (detail.n_best_new n))
                  = Nat.min (detail.m_n (detail.n_best_new n)) (length (@nil nat))).
  { cbn. split; [constructor|]. split; [constructor|].
    split; [intros x []|lia]. }
  pose proof (knn_filled K data past_end value HK (last - first) 0 first last
                (detail.n_best_new n) [] ltac:(lia) HK ltac:(constructor)
                ltac:(intros x []) H0) as (Hord & Hnd & Hincl & Hlen).
  set (b := value_of (detail.knn K data past_end (last - first) 0 first last
                        value (detail.n_best_new n))) in *.
  assert (Hn : detail.m_n b = n) by apply knn_m_n.
  rewrite app_nil_r in Hincl, Hlen. rewrite length_seq, Hn in Hlen.
  assert (Hpos : forall p, In p (map snd (detail.q b)) -> first <= p < last).
  { intros p Hp. apply Hincl, in_seq in Hp. lia. }
  unfold detail.copy. split.
  - exists (map snd (detail.q b)).
    split; [now rewrite value_of_copy_loop, map_map|].
    split; [exact Hnd|]. split; [exact Hpos|].
    now rewrite length_map.
  - apply Forall_app. split; [apply knn_reads; exact HK|].
    rewrite reads_of_copy_loop. apply Forall_forall. exact Hpos.
Qed.

Lemma kd_nearest_neighbors_count_and_reads_witness :
  let data := [[0; 0]; [0; 1]; [1; 0]; [7; 7]]%Z in
  let m := kd_nearest_neighbors 2 data [] 0 3 [1; -1]%Z 5 in
  0 < 2
  /\ 3 <= length data
  /\ exact_on 2 ([1; -1]%Z :: data)
  /\ value_of m = [[0; 1]; [0; 0]; [1; 0]]%Z
  /\ Forall (fun x => 0 <= x < 3) (reads_of m).
Proof.
  assert (Hex : exact_on 2 [[1; -1]; [0; 0]; [0; 1]; [1; 0]; [7; 7]]%Z)
    by (apply exact_on_check; reflexivity).
  split; [lia|]. split; [cbn; lia|]. split; [exact Hex|].
  split; [reflexivity|].
  apply (kd_nearest_neighbors_count_and_reads 2
           [[0; 0]; [0; 1]; [1; 0]; [7; 7]]%Z [] 0 3 [1; -1]%Z 5);
    [lia|cbn; lia|exact Hex].
Defined.

(** ** [lex_sort] *)

Lemma sort_by_sort_post (K : nat) : sort_post K sort_by.
Proof.
  intros l. cbv zeta. split.
  - apply sort_by_perm.
  - intros i j Hij.
    apply (StronglySorted_nth _ _ []
             (sort_by_sorted (detail.kd_less K 0) (kd_less_asym K 0)
                (kd_less_trans K 0) l) i j Hij).
Qed.

(** X19.  [lex_sort] rearranges the sequence into dictionary order: of two
    tuples of the outcome, the earlier one either agrees with the later one
    on all [K] components or is smaller on the first component on which
    they differ. *)
Theorem lex_sort_dictionary_order
  (K : nat) (sort : (tuple -> tuple -> bool) -> list tuple -> list tuple)
  (l : list tuple) :
  0 < K ->
  sort_post K sort ->
  let s := lex_sort K sort l in
  Permutation l s
  /\ forall i j, i < j < length s ->
       components K (nth i s []) = components K (nth j s [])
       \/ exists t,
            t < K
            /\ (get t (nth i s []) < get t (nth j s []))%Z
            /\ forall u, u < t -> get u (nth i s []) = get u (nth j s []).
Proof.
  intros HK Hsort s. destruct (Hsort l) as [Hperm Hsorted].
  fold (lex_sort K sort l) in Hperm, Hsorted. fold s in Hperm, Hsorted.
  split; [exact Hperm|].
  intros i j Hij. specialize (Hsorted i j Hij).
  destruct (detail.kd_less K 0 (nth i s []) (nth j s [])) eqn:Elt.
  - right. unfold detail.kd_less in Elt.
    apply (kd_less__first_difference K (K - 1) 0 _ _ HK) in Elt.
    destruct Elt as (t & Ht & Hlt & Heq).
    exists t. rewrite Nat.add_0_l, Nat.mod_small in Hlt by lia.
    split; [lia|]. split; [exact Hlt|].
    intros u Hu. specialize (Heq u Hu).
    now rewrite Nat.add_0_l, Nat.mod_small in Heq by lia.
  - left. now apply (kd_less_neither_components K HK 0).
Qed.

Lemma lex_sort_dictionary_order_witness :
  let l := [[2; 1]; [1; 9]; [2; 0]; [1; 9]]%Z in
  0 < 2
  /\ sort_post 2 sort_by
  /\ lex_sort 2 sort_by l = [[1; 9]; [1; 9]; [2; 0]; [2; 1]]%Z
  /\ Permutation l (lex_sort 2 sort_by l).
Proof.
  split; [lia|]. split; [apply sort_by_sort_post|]. split; [reflexivity|].
  apply (lex_sort_dictionary_order 2 sort_by
           [[2; 1]; [1; 9]; [2; 0]; [1; 9]]%Z ltac:(lia)
           (sort_by_sort_post 2)).
Defined.

(** X20.  The searches do not need the k-d layout: on the outcome of
    [lex_sort], too, as long as a run of [kd_binary_search] dereferences
    positions of the sequence only, the [kd_lower_bound] it starts with
    returns the leftmost position whose tuple is not below [value] on any
    axis, or [last], and [kd_binary_search] returns true exactly when some
    tuple of the sequence that was sorted agrees with [value] on all [K]
    components. *)
Theorem kd_searches_after_lex_sort
  (K : nat) (sort : (tuple -> tuple -> bool) -> list tuple -> list tuple)
  (l : list tuple) (past_end value : tuple) :
  0 < K ->
  sort_post K sort ->
  let data := lex_sort K sort l in
  let last := length data in
  reads_inside data (kd_binary_search K data past_end 0 last value) ->
  let p := value_of (kd_lower_bound K data past_end 0 last value) in
  p <= last
  /\ (p = last \/ detail.none_less K (nth p data past_end) value = true)
  /\ (forall j, j < p ->
        detail.none_less K (nth j data past_end) value = false)
  /\ (value_of (kd_binary_search K data past_end 0 last value) = true
      <-> exists x, In x l /\ components K x = components K value).
Proof.
  intros HK Hsort data last _ p. destruct (Hsort l) as [Hperm Hsorted].
  fold (lex_sort K sort l) in Hperm, Hsorted. fold data in Hperm, Hsorted.
  assert (Hund : undominated K data).
  { intros i j d Hij Hge.
    apply (kd_less_ge_none_less K HK 0); [exact HK| |exact Hge].
    rewrite (nth_indep data d []), (nth_indep data d (@nil Z)) by lia.
    apply Hsorted. exact Hij. }
  destruct (kd_lower_bound_first_hit K data past_end value Hund)
    as (H1 & H2 & H3).
  destruct (kd_binary_search_exists K data past_end value Hund) as [Hiff _].
  split; [exact H1|]. split; [exact H2|]. split; [exact H3|].
  fold last in Hiff. rewrite Hiff. split.
  - intros (x & Hx & Hvx & Hxv). exists x. split.
    + apply (Permutation_in x (Permutation_sym Hperm) Hx).
    + now apply none_less_both_components.
  - intros (x & Hx & Heq). exists x.
    apply (none_less_both_components K _ _ HK) in Heq.
    split; [apply (Permutation_in x Hperm Hx)|].
    split; apply Heq.
Qed.

Lemma kd_searches_after_lex_sort_witness :
  let l := [[2; 1]; [1; 9]; [2; 0]; [1; 9]]%Z in
  let data := lex_sort 2 sort_by l in
  0 < 2
  /\ sort_post 2 sort_by
  /\ reads_inside data (kd_binary_search 2 data [] 0 (length data) [2; 0]%Z)
  /\ value_of (kd_lower_bound 2 data [] 0 (length data) [2; 0]%Z) = 2
  /\ value_of (kd_binary_search 2 data [] 0 (length data) [2; 0]%Z) = true
  /\ value_of (kd_lower_bound 2 data [] 0 (length data) [2; 0]%Z)
     <= length data.
Proof.
  assert (Hin :
    reads_inside (lex_sort 2 sort_by [[2; 1]; [1; 9]; [2; 0]; [1; 9]]%Z)
      (kd_binary_search 2
         (lex_sort 2 sort_by [[2; 1]; [1; 9]; [2; 0]; [1; 9]]%Z) [] 0
         (length (lex_sort 2 sort_by [[2; 1]; [1; 9]; [2; 0]; [1; 9]]%Z))
         [2; 0]%Z))
    by (apply reads_inside_check; reflexivity).
  split; [lia|]. split; [apply sort_by_sort_post|].
  split; [exact Hin|]. split; [reflexivity|]. split; [reflexivity|].
  apply (kd_searches_after_lex_sort 2 sort_by
           [[2; 1]; [1; 9]; [2; 0]; [1; 9]]%Z [] [2; 0]%Z ltac:(lia)
           (sort_by_sort_post 2) Hin).
Defined.

(** ** [find_pivot] on a partitioned range *)

Section PartitionPoint.
Variables (data : list tuple) (past_end : tuple) (pred : tuple -> bool).

Local Abbreviation at_ x := (nth x data past_end).

Lemma partition_point_loop_spec (fuel : nat) :
  forall first len,
    len <= fuel ->
    (forall x y, first <= x <= y -> y < first + len ->
       pred (at_ y) = true -> pred (at_ x) = true) ->
    let p := value_of (std.partition_point_loop data past_end fuel first len
                         pred) in
    first <= p <= first + len
    /\ (forall x, first <= x < p -> pred (at_ x) = true)
    /\ (forall x, p <= x < first + len -> pred (at_ x) = false).
Proof.
  induction fuel as [|fuel IH]; intros first len Hfuel Hpart;
    cbn [std.partition_point_loop].
  - rewrite value_of_ret. cbv zeta. split; [lia|]. split; intros x Hx; lia.
  - destruct (Nat.eqb_spec len 0) as [->|Hlen].
    + rewrite value_of_ret. cbv zeta. split; [lia|].
      split; intros x Hx; lia.
    + rewrite value_of_bind, value_of_deref.
      assert (Hhalf : len / 2 < len) by (apply Nat.div_lt; lia).
      set (middle := first + len / 2).
      destruct (pred (at_ middle)) eqn:Emid.
      * destruct (IH (S middle) (len - len / 2 - 1) ltac:(lia)) as (H1 & H2 & H3).
        { intros x y Hxy Hy. apply Hpart; unfold middle in *; lia. }
        cbv zeta. split; [unfold middle in *; lia|]. split.
        -- intros x Hx.
           destruct (le_lt_dec x middle) as [Hle|Hgt].
           ++ apply (Hpart x middle); [lia|unfold middle; lia|exact Emid].
           ++ apply H2. lia.
        -- intros x Hx. apply H3. unfold middle in *. lia.
      * destruct (IH first (len / 2) ltac:(lia)) as (H1 & H2 & H3).
        { intros x y Hxy Hy. apply Hpart; lia. }
        cbv zeta. split; [lia|]. split; [exact H2|].
        intros x Hx.
        destruct (le_lt_dec middle x) as [Hle|Hgt].
        -- apply not_true_is_false. intros Hx'.
           rewrite (Hpart middle x ltac:(lia) ltac:(lia) Hx') in Emid.
           discriminate.
        -- apply H3. unfold middle in *. lia.
Qed.

End PartitionPoint.

(** X21.  [find_pivot] returns a position from [first] to [midpos] and
    dereferences positions of that stretch only.  When the tuples before
    [midpos] that are below the one at [midpos] on axis [I] all come before
    those that are not, the position returned is where the second group
    starts: every tuple before it is below the one at [midpos] on axis [I],
    and none from it up to [midpos] is. *)
Theorem find_pivot_first_not_below
  (data : list tuple) (past_end : tuple) (I first last : nat) :
  first < last ->
  let mid := detail.midpos first last in
  let m := detail.find_pivot data past_end I first last in
  first <= value_of m <= mid
  /\ Forall (fun x => first <= x <= mid) (reads_of m)
  /\ ((forall x y, first <= x <= y -> y < mid ->
         (get I (nth y data past_end) < get I (nth mid data past_end))%Z ->
         (get I (nth x data past_end) < get I (nth mid data past_end))%Z) ->
      (forall x, first <= x < value_of m ->
         (get I (nth x data past_end) < get I (nth mid data past_end))%Z)
      /\ (forall x, value_of m <= x <= mid ->
            (get I (nth mid data past_end) <= get I (nth x data past_end))%Z)).
Proof.
  intros Hlt mid m.
  pose proof (midpos_lt first last Hlt) as Hmid. fold mid in Hmid.
  unfold m, detail.find_pivot, std.partition_point. fold mid.
  rewrite value_of_bind, reads_of_bind, value_of_deref, reads_of_deref.
  set (pred := fun x => detail.less_nth I x (nth mid data past_end)).
  pose proof (partition_point_loop_bounds data past_end pred (mid - first)
                first (mid - first)) as Hb.
  cbv zeta in Hb.
  split; [lia|]. split.
  - constructor; [lia|].
    pose proof (partition_point_loop_reads data past_end pred (mid - first)
                  first (mid - first)) as Hr.
    eapply Forall_impl; [|exact Hr]. cbv beta. intros x Hx. lia.
  - intros Hpart.
    destruct (partition_point_loop_spec data past_end pred (mid - first)
                first (mid - first) ltac:(lia)) as (_ & H2 & H3).
    { intros x y Hxy Hy. unfold pred, detail.less_nth.
      rewrite !Z.ltb_lt. apply Hpart; lia. }
    split.
    + intros x Hx. specialize (H2 x Hx). unfold pred, detail.less_nth in H2.
      now apply Z.ltb_lt.
    + intros x Hx. destruct (Nat.eq_dec x mid) as [->|Hne]; [lia|].
      specialize (H3 x ltac:(lia)). unfold pred, detail.less_nth in H3.
      now apply Z.ltb_ge.
Qed.

Lemma find_pivot_first_not_below_witness :
  let data := [[1; 0]; [2; 5]; [4; 1]; [4; 0]; [4; 3]; [9; 9]]%Z in
  0 < 6
  /\ detail.midpos 0 6 = 3
  /\ detail.find_pivot data [] 0 0 6 = (2, [3; 1; 2])
  /\ Forall (fun x => 0 <= x <= 3) (reads_of (detail.find_pivot data [] 0 0 6)).
Proof.
  split; [lia|]. split; [reflexivity|]. split; [reflexivity|].
  apply (find_pivot_first_not_below
           [[1; 0]; [2; 5]; [4; 1]; [4; 0]; [4; 3]; [9; 9]]%Z [] 0 0 6).
  lia.
Defined.

(** ** The k-d order of distinct points is unique *)

Lemma NoDup_map_In_inj {A B : Type} (f : A -> B) (l : list A) (x y : A) :
  NoDup (map f l) -> In x l -> In y l -> f x = f y -> x = y.
Proof.
  induction l as [|a l IH]; intros Hnd Hx Hy Heq; [destruct Hx|].
  cbn [map] in Hnd. inversion Hnd as [|? ? Hnot Hnd']; subst.
  destruct Hx as [->|Hx]; destruct Hy as [->|Hy].
  - reflexivity.
  - exfalso. apply Hnot. rewrite Heq. now apply in_map.
  - exfalso. apply Hnot. rewrite <- Heq. now apply in_map.
  - now apply IH.
Qed.

Section Canonical.
Variable K : nat.
Hypothesis K_pos : 0 < K.

Lemma kd_less_total_on_distinct (I : nat) (l : list tuple) (x y : tuple) :
  I < K -> distinct_tuples K l -> In x l -> In y l -> x <> y ->
  detail.kd_less K I x y = true \/ detail.kd_less K I y x = true.
Proof.
  intros HI Hd Hx Hy Hne.
  destruct (detail.kd_less K I x y) eqn:Exy; [now left|].
  destruct (detail.kd_less K I y x) eqn:Eyx; [now right|].
  exfalso. apply Hne.
  apply (NoDup_map_In_inj (components K) l x y Hd Hx Hy).
  now apply (kd_less_neither_components K K_pos I).
Qed.

(** The element selected at a position and the two sides of the selection
    are determined by the set of points. *)
Lemma selection_unique (I : nat) (A B A' B' : list tuple) (pv pv' : tuple) :
  I < K ->
  distinct_tuples K (A ++ pv :: B) ->
  Permutation (A ++ pv :: B) (A' ++ pv' :: B') ->
  length A = length A' ->
  Forall (fun x => detail.kd_less K I x pv = true) A ->
  Forall (fun y => detail.kd_less K I y pv = false) B ->
  Forall (fun x => detail.kd_less K I x pv' = true) A' ->
  Forall (fun y => detail.kd_less K I y pv' = false) B' ->
  pv = pv' /\ Permutation A A' /\ Permutation B B'.
Proof.
  intros HI Hd Hperm Hlen HA HB HA' HB'.
  set (below := fun p x => detail.kd_less K I x p).
  assert (Hexact : forall p front back,
             Forall (fun x => below p x = true) front ->
             Forall (fun y => below p y = false) back ->
             filter (below p) (front ++ p :: back) = front).
  { intros p front back Hf Hb. rewrite filter_app. cbn [filter].
    unfold below at 2. rewrite kd_less_irrefl.
    rewrite (filter_everything _ _ Hf).
    rewrite filter_nothing; [apply app_nil_r|].
    rewrite Forall_forall in Hb. exact Hb. }
  assert (Hmore : forall p p' front back,
             detail.kd_less K I p p' = true ->
             Forall (fun x => below p x = true) front ->
             length front < length (filter (below p') (front ++ p :: back))).
  { intros p p' front back Hpp Hf. rewrite filter_app. cbn [filter].
    unfold below at 2. rewrite Hpp.
    rewrite filter_everything.
    - rewrite length_app. cbn [length]. lia.
    - eapply Forall_impl; [|exact Hf]. cbv beta. unfold below.
      intros a Ha. now apply (kd_less_trans K I a p p'). }
  assert (Hpv : pv = pv').
  { destruct (list_eq_dec Z.eq_dec pv pv') as [|Hne]; [assumption|exfalso].
    assert (Hin : In pv (A ++ pv :: B)) by (apply in_elt).
    assert (Hin' : In pv' (A ++ pv :: B)).
    { apply (Permutation_in pv' (Permutation_sym Hperm)). apply in_elt. }
    destruct (kd_less_total_on_distinct I _ pv pv' HI Hd Hin Hin' Hne)
      as [Hlt|Hlt].
    - pose proof (Hmore pv pv' A B Hlt HA) as H.
      rewrite (Permutation_length
                 (filter_of_permutation (below pv') _ _ Hperm)) in H.
      rewrite (Hexact pv' A' B' HA' HB') in H. lia.
    - pose proof (Hmore pv' pv A' B' Hlt HA') as H.
      rewrite <- (Permutation_length
                    (filter_of_permutation (below pv) _ _ Hperm)) in H.
      rewrite (Hexact pv A B HA HB) in H. lia. }
  subst pv'. split; [reflexivity|].
  assert (HAA : Permutation A A').
  { rewrite <- (Hexact pv A B HA HB), <- (Hexact pv A' B' HA' HB').
    now apply filter_of_permutation. }
  split; [exact HAA|].
  apply (Permutation_cons_inv (a := pv)).
  apply (Permutation_app_inv_l A).
  etransitivity; [exact Hperm|].
  apply Permutation_app_tail. now symmetry.
Qed.

Lemma kd_ordered_unique (fuel : nat) :
  forall I l l',
    I < K -> length l <= fuel ->
    distinct_tuples K l -> Permutation l l' ->
    kd_ordered_at K fuel I l = true -> kd_ordered_at K fuel I l' = true ->
    l = l'.
Proof.
  induction fuel as [|fuel IH]; intros I l l' HI Hfuel Hd Hperm Ho Ho'.
  - destruct l; [|cbn in Hfuel; lia].
    now apply Permutation_nil in Hperm.
  - pose proof (Permutation_length Hperm) as Hlen.
    cbn [kd_ordered_at] in Ho, Ho'. rewrite <- Hlen in Ho'.
    destruct (Nat.ltb_spec 1 (length l)) as [Hbig|Hsmall].
    + set (mid := detail.midpos 0 (length l)) in *.
      assert (Hmid : mid < length l)
        by (apply (midpos_lt 0 (length l)); lia).
      apply andb_true_iff in Ho. destruct Ho as [Ho HoB].
      apply andb_true_iff in Ho. destruct Ho as [Ho HoA].
      apply andb_true_iff in Ho. destruct Ho as [HA HB].
      apply andb_true_iff in Ho'. destruct Ho' as [Ho' HoB'].
      apply andb_true_iff in Ho'. destruct Ho' as [Ho' HoA'].
      apply andb_true_iff in Ho'. destruct Ho' as [HA' HB'].
      rewrite forallb_forall, <- Forall_forall in HA, HB, HA', HB'.
      assert (HBn : Forall (fun y => detail.kd_less K I y (nth mid l []) = false)
                      (skipn (S mid) l))
        by (eapply Forall_impl; [|exact HB]; cbv beta; intros y Hy;
            now apply negb_true_iff).
      assert (HBn' : Forall (fun y => detail.kd_less K I y (nth mid l' []) = false)
                       (skipn (S mid) l'))
        by (eapply Forall_impl; [|exact HB']; cbv beta; intros y Hy;
            now apply negb_true_iff).
      pose proof (split_at_nth l mid [] Hmid) as El.
      pose proof (split_at_nth l' mid [] ltac:(lia)) as El'.
      assert (Hd' : distinct_tuples K
                      (firstn mid l ++ nth mid l [] :: skipn (S mid) l))
        by (now rewrite <- El).
      assert (Hperm' : Permutation
                         (firstn mid l ++ nth mid l [] :: skipn (S mid) l)
                         (firstn mid l' ++ nth mid l' [] :: skipn (S mid) l'))
        by (now rewrite <- El, <- El').
      destruct (selection_unique I _ _ _ _ _ _ HI Hd' Hperm'
                  ltac:(rewrite !length_firstn; lia) HA HBn HA' HBn')
        as (Hpv & HpA & HpB).
      assert (HJ : detail.incr_wrap K I < K) by (apply incr_wrap_lt; lia).
      assert (EA : firstn mid l = firstn mid l').
      { apply (IH (detail.incr_wrap K I)); try assumption.
        - rewrite length_firstn. unfold tuple in *. lia.
        - now apply distinct_tuples_firstn. }
      assert (EB : skipn (S mid) l = skipn (S mid) l').
      { apply (IH (detail.incr_wrap K I)); try assumption.
        - rewrite length_skipn. unfold tuple in *. lia.
        - now apply distinct_tuples_skipn. }
      rewrite El, El', EA, EB, Hpv. reflexivity.
    + destruct l as [|x [|y l]]; [| |cbn in Hsmall; lia].
      * now apply Permutation_nil in Hperm.
      * now apply Permutation_length_1_inv in Hperm.
Qed.

End Canonical.

(** X22.  On points that are pairwise different, the outcome of [kd_sort]
    depends on the set of points only: neither the order in which they are
    given nor the choices that [std::nth_element] and [std::partition] are
    free to make change it.  In particular sorting a second time changes
    nothing. *)
Theorem kd_sort_canonical
  (K : nat)
  (nth_element nth_element' :
     (tuple -> tuple -> bool) -> nat -> list tuple -> list tuple)
  (partition partition' : (tuple -> bool) -> list tuple -> list tuple * nat)
  (l : list tuple) :
  0 < K ->
  nth_element_post K nth_element -> partition_post partition ->
  nth_element_post K nth_element' -> partition_post partition' ->
  distinct_tuples K l ->
  (forall l', Permutation l l' ->
     kd_sort K nth_element partition l = kd_sort K nth_element' partition' l')
  /\ kd_sort K nth_element' partition' (kd_sort K nth_element partition l)
     = kd_sort K nth_element partition l.
Proof.
  intros HK Hnth Hpart Hnth' Hpart' Hd.
  assert (Hsame : forall ne ne' p p' l1 l2,
             nth_element_post K ne -> partition_post p ->
             nth_element_post K ne' -> partition_post p' ->
             distinct_tuples K l1 -> Permutation l1 l2 ->
             kd_sort K ne p l1 = kd_sort K ne' p' l2).
  { intros ne ne' p p' l1 l2 Hne Hp Hne' Hp' Hd1 Hperm.
    pose proof (Permutation_length Hperm) as Hlen.
    assert (Hd2 : distinct_tuples K l2)
      by (now apply (distinct_tuples_perm K l1)).
    destruct (kd_sort_at K p Hp ne Hne HK (length l1) 0 l1 ltac:(lia) HK)
      as (Hp1 & _ & Ho1).
    destruct (kd_sort_at K p' Hp' ne' Hne' HK (length l2) 0 l2 ltac:(lia) HK)
      as (Hp2 & _ & Ho2).
    specialize (Ho1 Hd1). specialize (Ho2 Hd2). rewrite <- Hlen in Ho2.
    unfold kd_sort. rewrite <- Hlen at 1.
    apply (kd_ordered_unique K HK (length l1) 0); try assumption.
    - now rewrite <- (Permutation_length Hp1).
    - now apply (distinct_tuples_perm K l1).
    - etransitivity; [symmetry; exact Hp1|].
      etransitivity; [exact Hperm|]. now rewrite <- Hlen in Hp2. }
  split.
  - intros l' Hperm. now apply Hsame.
  - symmetry. apply Hsame; try assumption.
    unfold kd_sort.
    apply (kd_sort_at K partition Hpart nth_element Hnth HK); lia.
Qed.

Lemma kd_sort_canonical_witness :
  let l := [[3; 6]; [1; 5]; [5; 2]; [2; 9]; [4; 4]]%Z in
  0 < 2
  /\ nth_element_post 2 nth_element_lazy
  /\ partition_post partition_swapping
  /\ nth_element_post 2 nth_element_by_sort
  /\ partition_post partition_stable
  /\ distinct_tuples 2 l
  /\ Permutation l (rev l)
  /\ kd_sort 2 nth_element_lazy partition_swapping l
     = kd_sort 2 nth_element_by_sort partition_stable (rev l)
  /\ kd_sort 2 nth_element_by_sort partition_stable
       (kd_sort 2 nth_element_lazy partition_swapping l)
     = kd_sort 2 nth_element_lazy partition_swapping l.
Proof.
  assert (Hd : distinct_tuples 2 [[3; 6]; [1; 5]; [5; 2]; [2; 9]; [4; 4]]%Z)
    by (cbv; repeat constructor; cbn; intuition discriminate).
  destruct (kd_sort_canonical 2 nth_element_lazy nth_element_by_sort
              partition_swapping partition_stable
              [[3; 6]; [1; 5]; [5; 2]; [2; 9]; [4; 4]]%Z ltac:(lia)
              (nth_element_lazy_post 2) partition_swapping_post
              (nth_element_by_sort_post 2) partition_stable_post Hd)
    as [Hany Hagain].
  split; [lia|]. split; [apply nth_element_lazy_post|].
  split; [apply partition_swapping_post|].
  split; [apply nth_element_by_sort_post|].
  split; [apply partition_stable_post|].
  split; [exact Hd|]. split; [apply Permutation_rev|].
  split; [apply Hany, Permutation_rev|exact Hagain].
Defined.

(** ** The tolerance of [kd_nearest_neighbor] with [eps] *)

Lemma sum_of_squares_nonneg (K : nat) (a b : tuple) :
  (0 <= detail.sum_of_squares K a b)%Z.
Proof. apply sum_of_squares__nonneg. Qed.

Lemma l2dist_R_nonneg (K : nat) (a b : tuple) : (0 <= l2dist_R K a b)%R.
Proof. apply sqrt_pos. Qed.

Lemma dlt_l2dist (K : nat) (a b v : tuple) :
  dlt (detail.l2dist K a v) (detail.l2dist K b v) = true
  <-> (l2dist_R K a v < l2dist_R K b v)%R.
Proof. apply dlt_real; apply sum_of_squares_nonneg. Qed.

Lemma dlt_eps_l2dist (K : nat) (a v : tuple) (eps : Q) :
  dlt_eps (detail.l2dist K a v) eps = true
  <-> (l2dist_R K a v < Q2R eps)%R.
Proof. apply dlt_eps_real, sum_of_squares_nonneg. Qed.

Lemma abs_lt_minus_l2dist (K : nat) (d : Z) (a v : tuple) (eps : Q) :
  abs_lt_minus d (detail.l2dist K a v) eps = true
  <-> (Rabs (IZR d) < l2dist_R K a v - Q2R eps)%R.
Proof. apply abs_lt_minus_real, sum_of_squares_nonneg. Qed.

Lemma axis_gap_le_l2dist (K I : nat) (a v : tuple) :
  I < K -> (Rabs (IZR (get I a - get I v)) <= l2dist_R K a v)%R.
Proof.
  intros HI. apply abs_le_real; [apply sum_of_squares_nonneg|].
  cbn [abs_le]. apply Z.leb_le. now apply sum_of_squares_ge_axis.
Qed.

Section NearestNeighborEps.
Variables (K : nat) (data : list tuple) (past_end value : tuple) (eps : Q).

Local Abbreviation at_ x := (nth x data past_end).
Local Abbreviation dist2 x :=
  (detail.sum_of_squares K (nth x data past_end) value).
Local Abbreviation dR x := (l2dist_R K (nth x data past_end) value).
Local Abbreviation NN :=
  (fun fuel I first last =>
     detail.kd_nearest_neighbor K data past_end fuel I first last value).
Local Abbreviation NNE :=
  (fun fuel I first last =>
     detail.kd_nearest_neighbor_eps K data past_end fuel I first last value
       eps).

(** The value of the overload with [eps], in terms of the values of the
    exact searches on the two sides of the pivot. *)
Lemma kd_nearest_neighbor_eps_level (fuel I first last : nat) :
  1 < last - first ->
  let J := detail.incr_wrap K I in
  let pivot := value_of (detail.find_pivot data past_end I first last) in
  let pv := nth pivot data past_end in
  let search_left := detail.less_nth I value pv in
  let near := value_of (if search_left then NN fuel J first pivot
                        else NN fuel J (S pivot) last) in
  let far := value_of (if search_left then NN fuel J (S pivot) last
                       else NN fuel J first pivot) in
  let best :=
    if near =? last then Some (pivot, detail.l2dist K pv value)
    else if dlt_eps (detail.l2dist K (nth near data past_end) value) eps
         then None
         else if dlt (detail.l2dist K (nth near data past_end) value)
                   (detail.l2dist K pv value)
              then Some (near, detail.l2dist K (nth near data past_end) value)
              else Some (pivot, detail.l2dist K pv value) in
  value_of (NNE (S fuel) I first last)
  = if dlt_eps (detail.l2dist K pv value) eps then pivot
    else match best with
         | None => near
         | Some (search, min_dist) =>
             if abs_lt_minus (get I value - get I pv) min_dist eps
             then if far =? last then search
                  else if dlt (detail.l2dist K (nth far data past_end) value)
                            min_dist
                       then far else search
             else search
         end.
Proof.
  intros Hbig. cbn [detail.kd_nearest_neighbor_eps].
  destruct (Nat.ltb_spec 1 (last - first)) as [_|]; [|lia].
  cbv zeta. rewrite !value_of_bind, value_of_deref.
  set (pivot := value_of (detail.find_pivot data past_end I first last)).
  destruct (dlt_eps _ _); [now rewrite value_of_ret|].
  rewrite !value_of_bind.
  set (near := value_of (if detail.less_nth I value (nth pivot data past_end)
                         then _ else _)).
  assert (Htail : forall search min_dist,
    value_of
      (if abs_lt_minus (get I value - get I (nth pivot data past_end))
            min_dist eps
       then
         s2 <- (if detail.less_nth I value (nth pivot data past_end)
                then NN fuel (detail.incr_wrap K I) (S pivot) last
                else NN fuel (detail.incr_wrap K I) first pivot) ;;
         (if s2 =? last then ret search
          else
            s2v <- deref data past_end s2 ;;
            ret (if dlt (detail.l2dist K s2v value) min_dist
                 then s2 else search))
       else ret search)
    = if abs_lt_minus (get I value - get I (nth pivot data past_end))
           min_dist eps
      then
        if value_of (if detail.less_nth I value (nth pivot data past_end)
                     then NN fuel (detail.incr_wrap K I) (S pivot) last
                     else NN fuel (detail.incr_wrap K I) first pivot)
           =? last
        then search
        else if dlt (detail.l2dist K
                       (nth (value_of
                               (if detail.less_nth I value
                                     (nth pivot data past_end)
                                then NN fuel (detail.incr_wrap K I)
                                       (S pivot) last
                                else NN fuel (detail.incr_wrap K I)
                                       first pivot))
                          data past_end) value) min_dist
             then value_of (if detail.less_nth I value
                                 (nth pivot data past_end)
                            then NN fuel (detail.incr_wrap K I) (S pivot)
                                   last
                            else NN fuel (detail.incr_wrap K I) first pivot)
             else search
      else search).
  { intros search min_dist.
    destruct (abs_lt_minus _ _ _); [|now rewrite value_of_ret].
    rewrite value_of_bind.
    destruct (_ =? last); [now rewrite value_of_ret|].
    now rewrite value_of_bind, value_of_deref, value_of_ret. }
  destruct (near =? last).
  - rewrite value_of_ret. apply Htail.
  - rewrite value_of_bind, value_of_deref, value_of_ret.
    destruct (dlt_eps _ _); [now rewrite value_of_ret|].
    destruct (dlt _ _); apply Htail.
Qed.

Hypothesis K_pos : 0 < K.
Hypothesis eps_nonneg : (0 <= Q2R eps)%R.

Lemma l2dist_R_le (a b : tuple) :
  (detail.sum_of_squares K a value <= detail.sum_of_squares K b value)%Z ->
  (l2dist_R K a value <= l2dist_R K b value)%R.
Proof. intros H. unfold l2dist_R. apply sqrt_le_1_alt. now apply IZR_le. Qed.

Lemma kd_nearest_neighbor_eps_close (fuel : nat) :
  forall I first last,
    last - first <= fuel -> first < last -> I < K ->
    descent_ordered K data past_end fuel I first last ->
    let r := value_of (NNE fuel I first last) in
    first <= r < last
    /\ forall x, first <= x < last -> (dR r <= dR x + Q2R eps)%R.
Proof.
  destruct fuel as [|fuel]; intros I first last Hfuel Hne HI Hord; [lia|].
  destruct (Nat.ltb_spec 1 (last - first)) as [Hbig|Hsmall].
  2:{ cbn [detail.kd_nearest_neighbor_eps].
      destruct (Nat.ltb_spec 1 (last - first)) as [|_]; [lia|].
      cbv zeta. rewrite value_of_ret. split; [lia|].
      intros x Hx. replace x with first by lia. lra. }
  cbv zeta. rewrite (kd_nearest_neighbor_eps_level fuel I first last Hbig).
  cbn [descent_ordered] in Hord. specialize (Hord Hbig). cbv zeta in Hord.
  pose proof (find_pivot_bounds data past_end I first last Hne) as Hpiv.
  set (pivot := value_of (detail.find_pivot data past_end I first last)) in *.
  set (pv := nth pivot data past_end) in *.
  set (J := detail.incr_wrap K I) in *.
  destruct Hord as (Hbefore & Hbehind & HordL & HordR).
  assert (HJ : J < K) by (apply incr_wrap_lt; assumption).
  (* what an exact search contributes: nothing, or the nearest position of
     its side *)
  set (side := fun (r : nat) (P : nat -> Prop) =>
                 (r = last /\ forall x, ~ P x)
                 \/ (r <> last /\ first <= r < last
                     /\ forall x, P x -> (dR r <= dR x + Q2R eps)%R)).
  assert (HL : side (value_of (NN fuel J first pivot))
                 (fun x => first <= x < pivot)).
  { right. destruct (Nat.eq_dec first pivot) as [Hemp|Hnemp].
    - rewrite <- Hemp at 1 2 3. rewrite kd_nearest_neighbor_empty.
      split; [lia|]. split; [lia|]. intros x Hx. lia.
    - destruct (kd_nearest_neighbor_nearest K data past_end value K_pos fuel
                  J first pivot ltac:(lia) ltac:(lia) HJ HordL) as [H1 H2].
      split; [lia|]. split; [lia|]. intros x Hx.
      pose proof (l2dist_R_le _ _ (H2 x Hx)). lra. }
  assert (HR : side (value_of (NN fuel J (S pivot) last))
                 (fun x => S pivot <= x < last)).
  { destruct (Nat.eq_dec (S pivot) last) as [Hemp|Hnemp].
    - left. rewrite <- Hemp at 1. rewrite kd_nearest_neighbor_empty.
      split; [exact Hemp|]. intros x Hx. lia.
    - right.
      destruct (kd_nearest_neighbor_nearest K data past_end value K_pos fuel
                  J (S pivot) last ltac:(lia) ltac:(lia) HJ HordR)
        as [H1 H2].
      split; [lia|]. split; [lia|]. intros x Hx.
      pose proof (l2dist_R_le _ _ (H2 x Hx)). lra. }
  set (rl := value_of (NN fuel J first pivot)) in *.
  set (rr := value_of (NN fuel J (S pivot) last)) in *.
  assert (Hgen : forall near far (Pn Pf : nat -> Prop),
    side near Pn -> side far Pf ->
    (forall x, first <= x < last -> Pn x \/ x = pivot \/ Pf x) ->
    (forall x, Pf x ->
       (Rabs (IZR (get I value - get I pv)) <= dR x)%R) ->
    let r :=
      if dlt_eps (detail.l2dist K pv value) eps then pivot
      else match
             (if near =? last then Some (pivot, detail.l2dist K pv value)
              else if dlt_eps (detail.l2dist K (at_ near) value) eps
                   then None
                   else if dlt (detail.l2dist K (at_ near) value)
                             (detail.l2dist K pv value)
                        then Some (near, detail.l2dist K (at_ near) value)
                        else Some (pivot, detail.l2dist K pv value))
           with
           | None => near
           | Some (search, min_dist) =>
               if abs_lt_minus (get I value - get I pv) min_dist eps
               then if far =? last then search
                    else if dlt (detail.l2dist K (at_ far) value) min_dist
                         then far else search
               else search
           end in
    first <= r < last
    /\ forall x, first <= x < last -> (dR r <= dR x + Q2R eps)%R).
  { intros near far Pn Pf Hnear Hfar Hcover Haxis.
    assert (Htail : forall s,
      first <= s < last ->
      (forall x, Pn x \/ x = pivot -> (dR s <= dR x + Q2R eps)%R) ->
      let r :=
        if abs_lt_minus (get I value - get I pv)
             (detail.l2dist K (at_ s) value) eps
        then if far =? last then s
             else if dlt (detail.l2dist K (at_ far) value)
                       (detail.l2dist K (at_ s) value)
                  then far else s
        else s in
      first <= r < last
      /\ forall x, first <= x < last -> (dR r <= dR x + Q2R eps)%R).
    { intros s Hs Hbest. cbv zeta.
      destruct (abs_lt_minus _ _ _) eqn:Etest.
      - destruct (Nat.eqb_spec far last) as [Hfl|Hfl].
        + destruct Hfar as [[_ Hnone]|[Hcontra _]]; [|contradiction].
          split; [exact Hs|]. intros x Hx.
          destruct (Hcover x Hx) as [H|[H|H]];
            [apply Hbest; now left|apply Hbest; now right|].
          exfalso. exact (Hnone x H).
        + destruct Hfar as [[Hcontra _]|(_ & Hfr & Hfbest)]; [contradiction|].
          destruct (dlt _ _) eqn:Ecmp.
          * apply dlt_l2dist in Ecmp. split; [exact Hfr|]. intros x Hx.
            destruct (Hcover x Hx) as [H|[H|H]].
            -- specialize (Hbest x (or_introl H)). lra.
            -- specialize (Hbest x (or_intror H)). lra.
            -- now apply Hfbest.
          * apply not_true_iff_false in Ecmp. rewrite dlt_l2dist in Ecmp.
            split; [exact Hs|]. intros x Hx.
            destruct (Hcover x Hx) as [H|[H|H]];
              [apply Hbest; now left|apply Hbest; now right|].
            specialize (Hfbest x H). lra.
      - apply not_true_iff_false in Etest.
        rewrite abs_lt_minus_l2dist in Etest.
        split; [exact Hs|]. intros x Hx.
        destruct (Hcover x Hx) as [H|[H|H]];
          [apply Hbest; now left|apply Hbest; now right|].
        specialize (Haxis x H). lra. }
    cbv zeta.
    destruct (dlt_eps (detail.l2dist K pv value) eps) eqn:Epv.
    { apply dlt_eps_l2dist in Epv. split; [lia|]. intros x Hx.
      pose proof (l2dist_R_nonneg K (at_ x) value). fold pv. lra. }
    destruct (Nat.eqb_spec near last) as [Hnl|Hnl].
    - destruct Hnear as [[_ Hnone]|[Hcontra _]]; [|contradiction].
      apply (Htail pivot); [lia|].
      intros x [H | ->]; [exfalso; exact (Hnone x H)|lra].
    - destruct Hnear as [[Hcontra _]|(_ & Hnr & Hnbest)]; [contradiction|].
      destruct (dlt_eps (detail.l2dist K (at_ near) value) eps) eqn:Enear.
      { apply dlt_eps_l2dist in Enear. split; [exact Hnr|]. intros x Hx.
        pose proof (l2dist_R_nonneg K (at_ x) value). lra. }
      destruct (dlt (detail.l2dist K (at_ near) value)
                  (detail.l2dist K pv value)) eqn:Ecmp.
      + apply dlt_l2dist in Ecmp. apply (Htail near); [exact Hnr|].
        intros x [H | ->]; [now apply Hnbest|fold pv; lra].
      + apply not_true_iff_false in Ecmp. rewrite dlt_l2dist in Ecmp.
        apply (Htail pivot); [lia|].
        intros x [H | ->]; [|lra].
        specialize (Hnbest x H). fold pv. lra. }
  unfold detail.less_nth.
  destruct (Z.ltb_spec (get I value) (get I pv)) as [Hsl|Hsl].
  - (* the value is on the left of the pivot *)
    fold rl rr.
    apply (Hgen rl rr (fun x => first <= x < pivot)
             (fun x => S pivot <= x < last) HL HR).
    + intros x Hx. lia.
    + intros x Hx. cbv beta in Hx.
      pose proof (axis_gap_le_l2dist K I (at_ x) value HI) as Hgap.
      specialize (Hbehind x ltac:(lia)). fold pv in Hbehind.
      eapply Rle_trans; [|exact Hgap].
      rewrite !Rabs_left1, <- !opp_IZR by (apply IZR_le; lia).
      rewrite Rabs_right by (apply Rle_ge, IZR_le; lia).
      apply IZR_le. lia.
  - (* the value is not on the left of the pivot *)
    fold rl rr.
    apply (Hgen rr rl (fun x => S pivot <= x < last)
             (fun x => first <= x < pivot) HR HL).
    + intros x Hx. lia.
    + intros x Hx. cbv beta in Hx.
      pose proof (axis_gap_le_l2dist K I (at_ x) value HI) as Hgap.
      specialize (Hbefore x ltac:(lia)). fold pv in Hbefore.
      eapply Rle_trans; [|exact Hgap].
      rewrite Rabs_right by (apply Rle_ge, IZR_le; lia).
      rewrite Rabs_left1, <- opp_IZR by (apply IZR_le; lia).
      apply IZR_le. lia.
Qed.

End NearestNeighborEps.

(** X23.  The overload with a tolerance misses the nearest neighbour by at
    most [eps]: on the outcome of [kd_sort] for a non-empty sequence in
    which no two tuples agree on any axis, with integral components within
    the bound [exact_on], and for an integral [eps] from [0] to [2^22], it
    returns a position of the sequence whose tuple is at a distance from
    [value] that exceeds the distance of no tuple of the sequence by more
    than [eps]. *)
Theorem kd_nearest_neighbor_eps_after_kd_sort
  (K : nat)
  (nth_element : (tuple -> tuple -> bool) -> nat -> list tuple -> list tuple)
  (partition : (tuple -> bool) -> list tuple -> list tuple * nat)
  (l : list tuple) (past_end value : tuple) (eps : Z) :
  0 < K ->
  nth_element_post K nth_element ->
  partition_post partition ->
  tie_free K l ->
  l <> [] ->
  (0 <= eps <= 2 ^ 22)%Z ->
  exact_on K (value :: l) ->
  let data := kd_sort K nth_element partition l in
  let r := value_of (kd_nearest_neighbor_eps K data past_end 0 (length data)
                       value (inject_Z eps)) in
  r < length data
  /\ forall x, In x l ->
       (l2dist_R K (nth r data past_end) value
        <= l2dist_R K x value + IZR eps)%R.
Proof.
  intros HK Hnth Hpart Hties Hne Heps _ data r.
  destruct (kd_sort_tie_free K nth_element partition l HK Hnth Hpart Hties)
    as (Hperm & Hord & Hties').
  fold data in Hperm, Hord, Hties'.
  assert (Hlen : 0 < length data).
  { rewrite <- (Permutation_length Hperm).
    destruct l; [congruence|cbn; lia]. }
  assert (Heps' : (0 <= Q2R (inject_Z eps))%R).
  { rewrite Q2R_inject_Z. apply IZR_le. lia. }
  unfold kd_ordered in Hord. rewrite <- (range_all data) in Hord at 2.
  replace (length data) with (length data - 0) in Hord at 1 by lia.
  pose proof (kd_ordered_descent_ordered K data past_end HK Hties'
                (length data - 0) 0 0 (length data) ltac:(lia) HK Hord)
    as Hdesc.
  destruct (kd_nearest_neighbor_eps_close K data past_end value
              (inject_Z eps) HK Heps'
              (length data - 0) 0 0 (length data) ltac:(lia) Hlen HK Hdesc)
    as [Hr Hclose].
  fold (kd_nearest_neighbor_eps K data past_end 0 (length data) value
          (inject_Z eps)) in Hr, Hclose.
  fold r in Hr, Hclose. split; [lia|].
  intros x Hx. apply (Permutation_in x Hperm) in Hx.
  destruct (In_nth data x past_end Hx) as (j & Hj & <-).
  rewrite <- Q2R_inject_Z. apply Hclose. lia.
Qed.

Lemma kd_nearest_neighbor_eps_after_kd_sort_witness :
  let l := [[3; 6]; [1; 5]; [5; 2]; [2; 9]; [4; 4]]%Z in
  let data := kd_sort 2 nth_element_by_sort partition_stable l in
  let r := value_of (kd_nearest_neighbor_eps 2 data [] 0 (length data)
                       [5; 5]%Z (inject_Z 3)) in
  0 < 2
  /\ nth_element_post 2 nth_element_by_sort
  /\ partition_post partition_stable
  /\ tie_free 2 l
  /\ l <> []
  /\ (0 <= 3 <= 2 ^ 22)%Z
  /\ exact_on 2 ([5; 5]%Z :: l)
  /\ nth r data [] = [3; 6]%Z
  /\ (l2dist_R 2 (nth r data []) [5; 5]%Z
      <= l2dist_R 2 [4; 4]%Z [5; 5]%Z + IZR 3)%R.
Proof.
  assert (Hties : tie_free 2 [[3; 6]; [1; 5]; [5; 2]; [2; 9]; [4; 4]]%Z).
  { apply tie_free_NoDup. intros [|[|a]] Ha; [| |lia];
      cbn; repeat constructor; cbn; intuition discriminate. }
  assert (Hex : exact_on 2
                  [[5; 5]; [3; 6]; [1; 5]; [5; 2]; [2; 9]; [4; 4]]%Z)
    by (apply exact_on_check; reflexivity).
  split; [lia|]. split; [apply nth_element_by_sort_post|].
  split; [apply partition_stable_post|].
  split; [exact Hties|]. split; [discriminate|].
  split; [lia|]. split; [exact Hex|]. split; [reflexivity|].
  apply (kd_nearest_neighbor_eps_after_kd_sort 2 nth_element_by_sort
           partition_stable [[3; 6]; [1; 5]; [5; 2]; [2; 9]; [4; 4]]%Z []
           [5; 5]%Z 3 ltac:(lia) (nth_element_by_sort_post 2)
           partition_stable_post Hties ltac:(discriminate)
           ltac:(lia) Hex).
  cbn. tauto.
Defined.

(** ** The read of [*last] does not decide anything *)

Section PastEnd.
Variables (K : nat) (data : list tuple) (pe pe' : tuple) (value : tuple).

Lemma nth_inside (x : nat) :
  x < length data -> nth x data pe = nth x data pe'.
Proof. intros H. now apply nth_indep. Qed.

Lemma partition_point_loop_past_end (pred : tuple -> bool) (fuel : nat) :
  forall first len,
    first + len <= length data ->
    value_of (std.partition_point_loop data pe fuel first len pred)
    = value_of (std.partition_point_loop data pe' fuel first len pred).
Proof.
  induction fuel as [|fuel IH]; intros first len Hr;
    cbn [std.partition_point_loop]; [reflexivity|].
  destruct (Nat.eqb_spec len 0) as [->|Hlen]; [reflexivity|].
  assert (Hhalf : len / 2 < len) by (apply Nat.div_lt; lia).
  rewrite !value_of_bind, !value_of_deref.
  rewrite (nth_inside (first + len / 2)) by lia.
  destruct (pred _); apply IH; lia.
Qed.

Lemma find_pivot_past_end (I first last : nat) :
  first < last <= length data ->
  value_of (detail.find_pivot data pe I first last)
  = value_of (detail.find_pivot data pe' I first last).
Proof.
  intros Hr. pose proof (midpos_lt first last ltac:(lia)) as Hmid.
  unfold detail.find_pivot, std.partition_point.
  rewrite !value_of_bind, !value_of_deref.
  rewrite (nth_inside (detail.midpos first last)) by lia.
  apply partition_point_loop_past_end. lia.
Qed.

Lemma kd_lower_bound_past_end (fuel : nat) :
  forall I first last,
    first <= last <= length data ->
    value_of (detail.kd_lower_bound K data pe fuel I first last value)
    = value_of (detail.kd_lower_bound K data pe' fuel I first last value).
Proof.
  assert (Hbase : forall first last,
    first <= last <= length data ->
    value_of (x <- deref data pe first ;;
              ret (if detail.none_less K x value then first else last))
    = value_of (x <- deref data pe' first ;;
                ret (if detail.none_less K x value then first else last))).
  { intros first last Hr.
    rewrite !value_of_bind, !value_of_ret, !value_of_deref.
    destruct (Nat.eq_dec first last) as [->|Hne].
    - now destruct (detail.none_less K _ value);
        destruct (detail.none_less K _ value).
    - now rewrite (nth_inside first) by lia. }
  induction fuel as [|fuel IH]; intros I first last Hr;
    cbn [detail.kd_lower_bound]; [now apply Hbase|].
  destruct (Nat.ltb_spec 1 (last - first)) as [Hbig|Hsmall];
    [|now apply Hbase].
  cbv zeta. rewrite !value_of_bind, !value_of_deref.
  rewrite <- (find_pivot_past_end I first last) by lia.
  pose proof (find_pivot_bounds data pe I first last ltac:(lia)) as Hpiv.
  set (pivot := value_of (detail.find_pivot data pe I first last)) in *.
  rewrite <- (nth_inside pivot) by lia.
  pose proof (IH (detail.incr_wrap K I) first pivot ltac:(lia)) as HL.
  pose proof (IH (detail.incr_wrap K I) (S pivot) last ltac:(lia)) as HR.
  destruct (kd_lower_bound_reads K data pe value fuel
              (detail.incr_wrap K I) first pivot ltac:(lia)) as [HLb _].
  destruct (kd_lower_bound_reads K data pe value fuel
              (detail.incr_wrap K I) (S pivot) last ltac:(lia)) as [HRb _].
  destruct (detail.none_less K (nth pivot data pe) value); [exact HL|].
  destruct (detail.all_less K (nth pivot data pe) value); [exact HR|].
  rewrite !value_of_bind, !value_of_deref, <- HL.
  set (L := value_of (detail.kd_lower_bound K data pe fuel
                        (detail.incr_wrap K I) first pivot value)) in *.
  rewrite <- (nth_inside L) by lia.
  destruct (detail.none_less K (nth L data pe) value);
    [now rewrite !value_of_ret|].
  rewrite !value_of_bind, !value_of_deref, <- HR.
  set (R := value_of (detail.kd_lower_bound K data pe fuel
                        (detail.incr_wrap K I) (S pivot) last value)) in *.
  destruct (Nat.eq_dec R last) as [HRl|HRl].
  - rewrite HRl.
    now destruct (detail.none_less K (nth last data pe) value);
      destruct (detail.none_less K (nth last data pe') value);
      rewrite !value_of_ret.
  - now rewrite (nth_inside R) by lia.
Qed.

Lemma kd_upper_bound_past_end (fuel : nat) :
  forall I first last,
    first <= last <= length data ->
    value_of (detail.kd_upper_bound K data pe fuel I first last value)
    = value_of (detail.kd_upper_bound K data pe' fuel I first last value).
Proof.
  assert (Hbase : forall first last,
    first <= last <= length data ->
    value_of (x <- deref data pe first ;;
              ret (if detail.all_less K value x then first else last))
    = value_of (x <- deref data pe' first ;;
                ret (if detail.all_less K value x then first else last))).
  { intros first last Hr.
    rewrite !value_of_bind, !value_of_ret, !value_of_deref.
    destruct (Nat.eq_dec first last) as [->|Hne].
    - now destruct (detail.all_less K value _);
        destruct (detail.all_less K value _).
    - now rewrite (nth_inside first) by lia. }
  induction fuel as [|fuel IH]; intros I first last Hr;
    cbn [detail.kd_upper_bound]; [now apply Hbase|].
  destruct (Nat.ltb_spec 1 (last - first)) as [Hbig|Hsmall];
    [|now apply Hbase].
  cbv zeta. rewrite !value_of_bind, !value_of_deref.
  rewrite <- (find_pivot_past_end I first last) by lia.
  pose proof (find_pivot_bounds data pe I first last ltac:(lia)) as Hpiv.
  set (pivot := value_of (detail.find_pivot data pe I first last)) in *.
  rewrite <- (nth_inside pivot) by lia.
  pose proof (IH (detail.incr_wrap K I) first pivot ltac:(lia)) as HL.
  pose proof (IH (detail.incr_wrap K I) (S pivot) last ltac:(lia)) as HR.
  destruct (kd_upper_bound_reads K data pe value fuel
              (detail.incr_wrap K I) first pivot ltac:(lia)) as [HLb _].
  destruct (kd_upper_bound_reads K data pe value fuel
              (detail.incr_wrap K I) (S pivot) last ltac:(lia)) as [HRb _].
  destruct (detail.all_less K value (nth pivot data pe)); [exact HL|].
  destruct (detail.none_less K value (nth pivot data pe)); [exact HR|].
  rewrite !value_of_bind, !value_of_deref, <- HL.
  set (L := value_of (detail.kd_upper_bound K data pe fuel
                        (detail.incr_wrap K I) first pivot value)) in *.
  rewrite <- (nth_inside L) by lia.
  destruct (detail.all_less K value (nth L data pe));
    [now rewrite !value_of_ret|].
  rewrite !value_of_bind, !value_of_deref, <- HR.
  set (R := value_of (detail.kd_upper_bound K data pe fuel
                        (detail.incr_wrap K I) (S pivot) last value)) in *.
  destruct (Nat.eq_dec R last) as [HRl|HRl].
  - rewrite HRl.
    now destruct (detail.all_less K value (nth last data pe));
      destruct (detail.all_less K value (nth last data pe'));
      rewrite !value_of_ret.
  - now rewrite (nth_inside R) by lia.
Qed.

End PastEnd.

(** X24.  What [kd_lower_bound] and [kd_upper_bound] find when they read
    past the end of the sequence has no influence on the position they
    return, whatever the sequence holds. *)
Theorem kd_bound_searches_ignore_past_end
  (K : nat) (data : list tuple) (past_end past_end' : tuple)
  (first last : nat) (value : tuple) :
  first <= last <= length data ->
  value_of (kd_lower_bound K data past_end first last value)
  = value_of (kd_lower_bound K data past_end' first last value)
  /\ value_of (kd_upper_bound K data past_end first last value)
     = value_of (kd_upper_bound K data past_end' first last value).
Proof.
  intros Hr. unfold kd_lower_bound, kd_upper_bound. split.
  - now apply kd_lower_bound_past_end.
  - now apply kd_upper_bound_past_end.
Qed.

Lemma kd_bound_searches_ignore_past_end_witness :
  let data := [[0; 1]; [0; 2]; [1; 0]]%Z in
  0 <= 3 <= length data
  /\ kd_lower_bound 2 data [9; 9]%Z 0 3 [0; 5]%Z
     = (3, [1; 0; 0; 0; 0; 2; 1; 1; 1; 1; 2; 3; 3])
  /\ detail.none_less 2 [9; 9]%Z [0; 5]%Z = true
  /\ value_of (kd_lower_bound 2 data [9; 9]%Z 0 3 [0; 5]%Z)
     = value_of (kd_lower_bound 2 data [0; 0]%Z 0 3 [0; 5]%Z).
Proof.
  split; [cbn; lia|]. split; [reflexivity|]. split; [reflexivity|].
  apply (kd_bound_searches_ignore_past_end 2 [[0; 1]; [0; 2]; [1; 0]]%Z
           [9; 9]%Z [0; 0]%Z 0 3 [0; 5]%Z).
  cbn. lia.
Defined.

(** ** Asking for at least as many neighbours as there are tuples *)

Lemma map_nth_seq_range (data : list tuple) (d : tuple) (first last : nat) :
  first <= last <= length data ->
  map (fun p => nth p data d) (seq first (last - first))
  = range data first last.
Proof.
  intros Hr. apply (nth_ext _ _ d d).
  - rewrite length_map, length_seq, range_length by exact Hr. reflexivity.
  - intros i Hi. rewrite length_map, length_seq in Hi.
    rewrite (nth_indep _ d (nth 0 data d))
      by (now rewrite length_map, length_seq).
    rewrite (map_nth (fun p => nth p data d)), seq_nth by exact Hi.
    now rewrite range_nth.
Qed.

(** X25.  Asked for at least as many neighbours as the range has tuples,
    [kd_nearest_neighbors] writes every tuple of the range to its sink,
    once for each position, whatever the order of the sequence, when the
    components are integral and within the bound [exact_on]. *)
Theorem kd_nearest_neighbors_all
  (K : nat) (data : list tuple) (past_end : tuple) (first last : nat)
  (value : tuple) (n : nat) :
  0 < K ->
  first <= last <= length data ->
  last - first <= n ->
  exact_on K (value :: data) ->
  Permutation
    (value_of (kd_nearest_neighbors K data past_end first last value n))
    (range data first last).
Proof.
  intros HK Hr Hn _. unfold kd_nearest_neighbors.
  rewrite value_of_bind. cbv beta.
  assert (H0 : heap_ordered (detail.q (detail.n_best_new n))
               /\ NoDup (map snd (detail.q (detail.n_best_new n)))
               /\ incl (map snd (detail.q (detail.n_best_new n))) []
               /\ length (detail.q (detail.n_best_new n))
                  = Nat.min (detail.m_n (detail.n_best_new n))
                      (length (@nil nat))).
  { cbn. split; [constructor|]. split; [constructor|].
    split; [intros x []|lia]. }
  pose proof (knn_filled K data past_end value HK (last - first) 0 first last
                (detail.n_best_new n) [] ltac:(lia) HK ltac:(constructor)
                ltac:(intros x []) H0) as (_ & Hnd & Hincl & Hlen).
  set (b := value_of (detail.knn K data past_end (last - first) 0 first last
                        value (detail.n_best_new n))) in *.
  assert (Hcap : detail.m_n b = n) by apply knn_m_n.
  rewrite app_nil_r in Hincl, Hlen. rewrite length_seq, Hcap in Hlen.
  unfold detail.copy. rewrite value_of_copy_loop.
  rewrite <- (map_nth_seq_range data past_end first last Hr).
  rewrite <- (map_map snd (fun p => nth p data past_end)).
  apply Permutation_map.
  apply NoDup_Permutation_bis; [exact Hnd| |exact Hincl].
  rewrite length_seq, length_map. lia.
Qed.

Lemma kd_nearest_neighbors_all_witness :
  let data := [[5; 5]; [0; 1]; [5; 5]; [3; 3]]%Z in
  0 < 2
  /\ 0 <= 4 <= length data
  /\ 4 - 0 <= 9
  /\ exact_on 2 ([0; 0]%Z :: data)
  /\ value_of (kd_nearest_neighbors 2 data [] 0 4 [0; 0]%Z 9)
     = [[5; 5]; [5; 5]; [3; 3]; [0; 1]]%Z
  /\ Permutation
       (value_of (kd_nearest_neighbors 2 data [] 0 4 [0; 0]%Z 9))
       (range data 0 4).
Proof.
  assert (Hex : exact_on 2 [[0; 0]; [5; 5]; [0; 1]; [5; 5]; [3; 3]]%Z)
    by (apply exact_on_check; reflexivity).
  split; [lia|]. split; [cbn; lia|]. split; [lia|]. split; [exact Hex|].
  split; [reflexivity|].
  apply (kd_nearest_neighbors_all 2 [[5; 5]; [0; 1]; [5; 5]; [3; 3]]%Z []
           0 4 [0; 0]%Z 9); [lia|cbn; lia|lia|exact Hex].
Defined.

(** ** Worked examples

    Small sequences sorted with the reference implementations and then
    queried. *)

Example diagonal_sorted :
  kd_sort 2 nth_element_by_sort partition_stable
    [[3; 3]; [1; 1]; [5; 5]; [2; 2]; [4; 4]]%Z
  = [[1; 1]; [2; 2]; [3; 3]; [4; 4]; [5; 5]]%Z.
Proof. reflexivity. Qed.

Example diagonal_nearest_neighbor :
  value_of (kd_nearest_neighbor 2
              [[1; 1]; [2; 2]; [3; 3]; [4; 4]; [5; 5]]%Z [] 0 5 [2; 2]%Z)
  = 1.
Proof. reflexivity. Qed.

(** The tuples of the box [[(2,2), (5,5))], in the order of the descent. *)
Example diagonal_range_query :
  value_of (kd_range_query 2
              [[1; 1]; [2; 2]; [3; 3]; [4; 4]; [5; 5]]%Z [] 0 5
              [2; 2]%Z [5; 5]%Z)
  = [[3; 3]; [2; 2]; [4; 4]]%Z.
Proof. reflexivity. Qed.

(** The three nearest tuples, the farthest first. *)
Example diagonal_nearest_neighbors :
  value_of (kd_nearest_neighbors 2
              [[1; 1]; [2; 2]; [3; 3]; [4; 4]; [5; 5]]%Z [] 0 5 [2; 2]%Z 3)
  = [[3; 3]; [1; 1]; [2; 2]]%Z.
Proof. reflexivity. Qed.

(** Two searches that dereference positions of the sequence only. *)
Example corners_binary_search :
  let data :=
    kd_sort 3 nth_element_by_sort partition_stable
      [[0; 0; 0]; [1; 0; 0]; [0; 1; 0]; [0; 0; 1]; [1; 1; 1]]%Z in
  value_of (kd_binary_search 3 data [] 0 5 [0; 1; 0]%Z) = true
  /\ reads_inside data (kd_binary_search 3 data [] 0 5 [0; 1; 0]%Z)
  /\ value_of (kd_binary_search 3 data [] 0 5 [1; 1; 0]%Z) = false
  /\ reads_inside data (kd_binary_search 3 data [] 0 5 [1; 1; 0]%Z).
Proof.
  split; [reflexivity|]. split; [apply reads_inside_check; reflexivity|].
  split; [reflexivity|]. apply reads_inside_check; reflexivity.
Qed.

(** Eight copies of one point: sorting changes nothing, every copy is in
    the box [[(7,7), (8,8))], and the nearest neighbour is one of them. *)
Example copies_of_one_point :
  let data := repeat [7; 7]%Z 8 in
  kd_sort 2 nth_element_by_sort partition_stable data = data
  /\ value_of (kd_range_query 2 data [] 0 8 [7; 7]%Z [8; 8]%Z) = data
  /\ value_of (kd_nearest_neighbor 2 data [] 0 8 [7; 7]%Z) = 0.
Proof. repeat split; reflexivity. Qed.

(** The tolerance is applied at the level of the call only.  In
    [(0,0); (1,1); (3,3)] the pivot [(1,1)] is at [sqrt 8] from [(3,3)]: a
    tolerance of [2] is too small for it to be accepted at once, the exact
    search behind it finds [(3,3)] itself; a tolerance of [3] accepts the
    pivot. *)
Example three_points_with_tolerance :
  let data := [[0; 0]; [1; 1]; [3; 3]]%Z in
  value_of (kd_nearest_neighbor_eps 2 data [] 0 3 [3; 3]%Z 2) = 2
  /\ value_of (kd_nearest_neighbor_eps 2 data [] 0 3 [3; 3]%Z 3) = 1
  /\ value_of (kd_nearest_neighbor 2 data [] 0 3 [3; 3]%Z) = 2
  /\ detail.l2dist 2 (nth 1 data []) [3; 3]%Z = Sqrt 8.
Proof. repeat split; reflexivity. Qed.

(** With a tie on an axis [kd_range_query] can miss a point of the box, as
    the neighbour searches do: [(1, 0)] lies in the box from [(1, 0)] to
    [(2, 1)]. *)
Example range_query_with_axis_tie :
  let data := [[0; 0]; [0; 1]; [1; 0]]%Z in
  kd_ordered 2 data = true
  /\ kd_sort 2 nth_element_by_sort partition_stable data = data
  /\ detail.contains 2 [1; 0]%Z [1; 0]%Z [2; 1]%Z = true
  /\ value_of (kd_range_query 2 data [] 0 3 [1; 0]%Z [2; 1]%Z) = [].
Proof. repeat split. Qed.
